(** * snap-db: the persistent red-black tree and the leveled compactor

    A shallow embedding of [src/bin/rbtree.js] (the persistent ordered map
    used as merge buffer) and of the compaction pass of the store
    ([SnapCompactor._runCompaction]), with the properties the
    specification states about them.

    Layout of the development:
    - [RedBlackTree]: the tree operations as pure functions over an
      inductive tree, and the invariants of a tree.  The ancestor stacks of
      the source ([n_stack], [cstack], [stack]) are rendered as zippers: a
      list of frames, the nearest ancestor first, each frame an ancestor
      node with a hole in place of the child the path goes through.
    - [Heap]: the same operations written over an explicit store of
      mutable node objects, allocation and field assignment as in the
      source, with the queries that read the store.
    - [CrossCheck]: sample runs on which the two models are compared.
    - [Compactor], [Scenarios]: the compaction pass over a manifest, and
      concrete manifests.
    - [Samples]: a small tree, an iterator and a store.
    - [RBFacts], [HeapFacts], [CompactorFacts]: the proofs.
    - [Claims]: the properties of the specification, one theorem each.
    - [IteratorFacts], [StoreFacts], [InsertFacts], [PassFacts],
      [SampleFacts]: proofs about iterators, bound queries and traversals,
      the queries of the store, [insert] on the store, and the loops of
      the pass.
    - [Properties], [StoreProperties], [PassProperties]: further
      properties of the tree, of the store and of the pass. *)

From Stdlib Require Import ZArith List Lia Bool.
From Stdlib Require String Ascii.
From stdpp Require Import base list sorting.
Import ListNotations String.StringSyntax.
Open Scope Z_scope.

(** Outcome of an operation that may dereference [null] (a JavaScript
    [TypeError]) or whose loop is cut by the fuel of the model. *)
Inductive outcome (A : Type) : Type :=
| Ok (a : A)
| TypeError
| OutOfFuel.
Arguments Ok {A} a.
Arguments TypeError {A}.
Arguments OutOfFuel {A}.

(** [var RED = 0; var BLACK = 1;] *)
Inductive color : Type := RED | BLACK.

Definition color_eqb (a b : color) : bool :=
  match a, b with
  | RED, RED | BLACK, BLACK => true
  | _, _ => false
  end.

Inductive dir : Type := Left | Right.

Module RedBlackTree.

Section Tree.

Context {K V : Type}.

(** [RBNode(color, key, value, left, right, count)]; [Leaf] is [null]. *)
Inductive tree : Type :=
| Leaf
| Node (c : color) (k : K) (v : V) (l r : tree) (count : Z).

(** [node ? node._count : 0] *)
Definition count (t : tree) : Z :=
  match t with
  | Leaf => 0
  | Node _ _ _ _ _ n => n
  end.

(** [y && y._color === RED] *)
Definition is_red (t : tree) : bool :=
  match t with
  | Node RED _ _ _ _ _ => true
  | _ => false
  end.

Definition is_node (t : tree) : bool :=
  match t with
  | Leaf => false
  | Node _ _ _ _ _ _ => true
  end.

(** [repaint(color, node)]: a copy of [node] with another colour. *)
Definition repaint (c : color) (t : tree) : tree :=
  match t with
  | Leaf => Leaf
  | Node _ k v l r n => Node c k v l r n
  end.

(** A node whose [_count] has just been recomputed by [recount]. *)
Definition recounted (c : color) (k : K) (v : V) (l r : tree) : tree :=
  Node c k v l r (1 + count l + count r).

(** [RedBlackTree.prototype.length] *)
Definition length (t : tree) : Z :=
  match t with
  | Leaf => 0
  | Node _ _ _ _ _ n => n
  end.

(** An entry of an ancestor stack: the ancestor node with a hole where the
    child on the path is.  [fdir] says which child the path takes (the
    source tests it by [p.left === n]), [fsib] is the other child. *)
Record frame : Type := Frame {
  fdir : dir;
  fcolor : color;
  fkey : K;
  fval : V;
  fsib : tree;
  fcount : Z
}.

(** Fill the hole of a frame with [t]. *)
Definition plug (t : tree) (f : frame) : tree :=
  match fdir f with
  | Left => Node (fcolor f) (fkey f) (fval f) t (fsib f) (fcount f)
  | Right => Node (fcolor f) (fkey f) (fval f) (fsib f) t (fcount f)
  end.

(** The root reached from subtree [t] through the stack (nearest ancestor
    first): what [stack[0]] denotes in the source. *)
Definition zip (t : tree) (stack : list frame) : tree :=
  fold_left plug stack t.

Definition set_color (c : color) (f : frame) : frame :=
  Frame (fdir f) c (fkey f) (fval f) (fsib f) (fcount f).

Definition set_sib (s : tree) (f : frame) : frame :=
  Frame (fdir f) (fcolor f) (fkey f) (fval f) s (fcount f).

Variable cmp : K -> K -> Z.

(** ** insert *)

(** Lines 53-77: the descent to the insertion point and the rebuilt path.
    Every ancestor is copied with [_count + 1] and the descent goes left
    when [cmp(key, n.key) <= 0]. *)
Fixpoint insert_path (key : K) (n : tree) (stack : list frame) : list frame :=
  match n with
  | Leaf => stack
  | Node c k v l r cnt =>
      if cmp key k <=? 0
      then insert_path key l (Frame Left c k v r (cnt + 1) :: stack)
      else insert_path key r (Frame Right c k v l (cnt + 1) :: stack)
  end.

(** The recolouring shared by the cases LLr, LRr, RRr and RLr:
    [p._color = BLACK; pp.<other> = repaint(BLACK, y); pp._color = RED]. *)
Definition recolor (n : tree) (p pp : frame) : tree :=
  plug (plug n (set_color BLACK p))
       (set_color RED (set_sib (repaint BLACK (fsib pp)) pp)).

(** Lines 80-221: the rebalancing loop [for (s = n_stack.length - 1; s > 1; --s)].
    [n] is [n_stack[s]], the head of [stack] is [p = n_stack[s-1]], the next
    frame is [pp = n_stack[s-2]]; the result is the tree below [n_stack[0]]. *)
Fixpoint rebalance (n : tree) (stack : list frame) : tree :=
  match stack with
  | p :: ((pp :: rest) as above) =>
      match n with
      | Leaf => zip n stack
      | Node nc nk nv nl nr ncnt =>
          if color_eqb (fcolor p) BLACK || color_eqb nc BLACK then zip n stack
          else
            match fdir pp, fdir p with
            | Left, Left =>
                if is_red (fsib pp) then rebalance (recolor n p pp) rest
                else (* LLb *)
                  let pp' := recounted RED (fkey pp) (fval pp) (fsib p) (fsib pp) in
                  let p' := recounted BLACK (fkey p) (fval p) n pp' in
                  zip p' rest
            | Left, Right =>
                if is_red (fsib pp) then rebalance (recolor n p pp) rest
                else (* LRb *)
                  let p' := recounted (fcolor p) (fkey p) (fval p) (fsib p) nl in
                  let pp' := recounted RED (fkey pp) (fval pp) nr (fsib pp) in
                  let n' := recounted BLACK nk nv p' pp' in
                  zip n' rest
            | Right, Right =>
                if is_red (fsib pp) then rebalance (recolor n p pp) rest
                else (* RRb *)
                  let pp' := recounted RED (fkey pp) (fval pp) (fsib pp) (fsib p) in
                  let p' := recounted BLACK (fkey p) (fval p) pp' n in
                  zip p' rest
            | Right, Left =>
                if is_red (fsib pp) then rebalance (recolor n p pp) rest
                else (* RLb *)
                  let p' := recounted (fcolor p) (fkey p) (fval p) nr (fsib p) in
                  let pp' := recounted RED (fkey pp) (fval pp) (fsib pp) nl in
                  let n' := recounted BLACK nk nv pp' p' in
                  zip n' rest
            end
      end
  | _ => zip n stack
  end.

(** [RedBlackTree.prototype.insert]: new RED leaf, rebuilt path, rebalancing,
    and [n_stack[0]._color = BLACK]. *)
Definition insert (key : K) (value : V) (t : tree) : tree :=
  repaint BLACK (rebalance (Node RED key value Leaf Leaf 1) (insert_path key t [])).

(** ** get, find *)

(** [RedBlackTree.prototype.get]; [None] is [undefined]. *)
Fixpoint get (key : K) (n : tree) : option V :=
  match n with
  | Leaf => None
  | Node _ k v l r _ =>
      let d := cmp key k in
      if d =? 0 then Some v
      else if d <=? 0 then get key l else get key r
  end.

(** An iterator: its [_stack], [None] when the stack is empty, else the node
    on top and the frames of its ancestors. *)
Definition iterator : Type := option (tree * list frame).

(** [RedBlackTree.prototype.find] *)
Fixpoint find_loop (key : K) (n : tree) (stack : list frame) : iterator :=
  match n with
  | Leaf => None
  | Node c k v l r cnt =>
      let d := cmp key k in
      if d =? 0 then Some (n, stack)
      else if d <=? 0 then find_loop key l (Frame Left c k v r cnt :: stack)
      else find_loop key r (Frame Right c k v l cnt :: stack)
  end.

Definition find (key : K) (t : tree) : iterator := find_loop key t [].

(** ** remove *)

(** [cstack[i]._count--] for every entry of the stack. *)
Definition dec_count (f : frame) : frame :=
  Frame (fdir f) (fcolor f) (fkey f) (fval f) (fsib f) (fcount f - 1).

Definition dec_counts (stack : list frame) : list frame := map dec_count stack.

(** Lines 530-534: [while (n.right) { cstack.push(n); n = n.right; }], the
    walk to the rightmost node below [n]. *)
Fixpoint walk_right (n : tree) (stack : list frame) : tree * list frame :=
  match n with
  | Leaf => (n, stack)
  | Node c k v l r cnt =>
      match r with
      | Leaf => (n, stack)
      | Node _ _ _ _ _ _ => walk_right r (Frame Right c k v l cnt :: stack)
      end
  end.

(** Lines 526-546: a node with two children exchanges key and value with
    its in-order predecessor; the path then leads to the predecessor's
    position, which holds the entry to delete. *)
Definition move_to_leaf (n : tree) (stack : list frame) : tree * list frame :=
  match n with
  | Node c k v (Node lc lk lv ll lr lcnt) (Node rc rk rv rl rr rcnt) cnt =>
      let l := Node lc lk lv ll lr lcnt in
      let r := Node rc rk rv rl rr rcnt in
      match walk_right l [] with
      | (Node qc qk qv ql qr qcnt, below) =>
          (Node qc k v ql qr qcnt, below ++ Frame Left c qk qv r cnt :: stack)
      | (Leaf, _) => (n, stack)
      end
  | _ => (n, stack)
  end.

(** The subtree a parent links to in place of [n]: nothing when [n] is the
    node being deleted, which [remove] unlinks from its parent after
    [fixDoubleBlack] returns (lines 597-602); the parent keeps that node as
    the same child throughout the fix-up. *)
Definition place (doomed : bool) (n : tree) : tree :=
  if doomed then Leaf else n.

(** One iteration of the loop of [fixDoubleBlack] (lines 750-952) at
    [n = stack[i]] with [p = stack[i-1]] the head of [stack]: either the
    loop returns with the finished tree, or it goes on at another position. *)
Inductive fix_step : Type :=
| Return (t : tree)
| Continue (doomed : bool) (n : tree) (stack : list frame)
| Fail.

Definition fixDoubleBlack_step (doomed : bool) (n : tree) (stack : list frame) : fix_step :=
  match stack with
  | [] => Return (place doomed (repaint BLACK n))
  | p :: rest =>
      match fdir p with
      | Left =>
          match fsib p with
          | Leaf => Fail
          | Node sc sk sv sl sr scnt =>
              if is_red sr then
                (* case 1: right sibling child red *)
                let z' := repaint BLACK sr in
                let p' := Node BLACK (fkey p) (fval p) (place doomed (repaint BLACK n)) sl
                               (1 + count n + count sl) in
                let s' := recounted (fcolor p) sk sv p' z' in
                Return (zip s' rest)
              else if is_red sl then
                (* case 1: left sibling child red *)
                match sl with
                | Leaf => Fail
                | Node zc zk zv zl zr zcnt =>
                    let p' := Node BLACK (fkey p) (fval p) (place doomed (repaint BLACK n)) zl
                                   (1 + count n + count zl) in
                    let s' := recounted BLACK sk sv zr sr in
                    let z' := recounted (fcolor p) zk zv p' s' in
                    Return (zip z' rest)
                end
              else if color_eqb sc BLACK then
                if color_eqb (fcolor p) RED then
                  (* case 2: black sibling, red parent *)
                  Return (zip (Node BLACK (fkey p) (fval p) (place doomed n)
                                    (repaint RED (fsib p)) (fcount p)) rest)
                else
                  (* case 2: black sibling, black parent *)
                  Continue false
                           (Node (fcolor p) (fkey p) (fval p) (place doomed n)
                                 (repaint RED (fsib p)) (fcount p))
                           rest
              else
                (* case 3: red sibling *)
                let pcnt := 1 + count n + count sl in
                let p' := Frame Left RED (fkey p) (fval p) sl pcnt in
                let s' := Frame Left (fcolor p) sk sv sr (1 + pcnt + count sr) in
                Continue doomed n (p' :: s' :: rest)
          end
      | Right =>
          match fsib p with
          | Leaf => Fail
          | Node sc sk sv sl sr scnt =>
              if is_red sl then
                (* case 1: left sibling child red *)
                let z' := repaint BLACK sl in
                let p' := Node BLACK (fkey p) (fval p) sr (place doomed (repaint BLACK n))
                               (1 + count sr + count n) in
                let s' := recounted (fcolor p) sk sv z' p' in
                Return (zip s' rest)
              else if is_red sr then
                (* case 1: right sibling child red *)
                match sr with
                | Leaf => Fail
                | Node zc zk zv zl zr zcnt =>
                    let p' := Node BLACK (fkey p) (fval p) zr (place doomed (repaint BLACK n))
                                   (1 + count zr + count n) in
                    let s' := recounted BLACK sk sv sl zl in
                    let z' := recounted (fcolor p) zk zv s' p' in
                    Return (zip z' rest)
                end
              else if color_eqb sc BLACK then
                if color_eqb (fcolor p) RED then
                  (* case 2: black sibling, red parent *)
                  Return (zip (Node BLACK (fkey p) (fval p) (repaint RED (fsib p))
                                    (place doomed n) (fcount p)) rest)
                else
                  (* case 2: black sibling, black parent *)
                  Continue false
                           (Node (fcolor p) (fkey p) (fval p) (repaint RED (fsib p))
                                 (place doomed n) (fcount p))
                           rest
              else
                (* case 3: red sibling *)
                let pcnt := 1 + count sr + count n in
                let p' := Frame Right RED (fkey p) (fval p) sr pcnt in
                let s' := Frame Right (fcolor p) sk sv sl (1 + count sl + pcnt) in
                Continue doomed n (p' :: s' :: rest)
          end
      end
  end.

(** [fixDoubleBlack(stack)]: the loop, one unit of fuel per iteration. *)
Fixpoint fixDoubleBlack (fuel : nat) (doomed : bool) (n : tree) (stack : list frame)
  : outcome tree :=
  match fuel with
  | O => OutOfFuel
  | S fuel' =>
      match fixDoubleBlack_step doomed n stack with
      | Return t => Ok t
      | Continue doomed' n' stack' => fixDoubleBlack fuel' doomed' n' stack'
      | Fail => TypeError
      end
  end.

(** Number of nodes of a tree. *)
Fixpoint size (t : tree) : nat :=
  match t with
  | Leaf => O
  | Node _ _ _ l r _ => S (size l + size r)
  end.

(** Fuel that always lets the loop of [fixDoubleBlack] finish: every
    iteration that goes on either leaves a frame with a sibling behind or
    splits a sibling between two frames and drops its root. *)
Definition fix_fuel (stack : list frame) : nat :=
  S (fold_right (fun f acc => (size (fsib f) + acc)%nat) O stack).

(** [RedBlackTreeIterator.prototype.remove], lines 504-606, from the node
    [n] on top of the iterator's stack and the frames of its ancestors. *)
Definition remove_at (n : tree) (stack : list frame) : outcome tree :=
  match move_to_leaf n stack with
  | (Leaf, _) => TypeError
  | (Node nc nk nv nl nr ncnt, cstack) =>
      match nc with
      | RED =>
          (* easy case: removing red leaf *)
          match cstack with
          | [] => TypeError
          | _ :: _ => Ok (zip Leaf (dec_counts cstack))
          end
      | BLACK =>
          if is_node nl || is_node nr then
            (* second easy case: single child black parent *)
            let child := if is_node nl then nl else nr in
            Ok (zip (repaint BLACK child) (dec_counts cstack))
          else
            match cstack with
            | [] => (* third easy case: root *) Ok Leaf
            | _ :: _ =>
                (* hard case *)
                fixDoubleBlack (fix_fuel cstack) true
                               (Node nc nk nv nl nr (ncnt - 1)) (dec_counts cstack)
            end
      end
  end.

Definition iterator_remove (t : tree) (it : iterator) : outcome tree :=
  match it with
  | None => Ok t
  | Some (n, stack) => remove_at n stack
  end.

(** An iterator on the node reached from [n] along [path]: what [begin],
    [end], [find], [ge], [gt], [le], [lt], [at] and the moves [next] and
    [prev] can leave an iterator on.  It is invalid when the path leaves
    the tree. *)
Fixpoint iterator_at (path : list dir) (n : tree) (stack : list frame) : iterator :=
  match n with
  | Leaf => None
  | Node c k v l r cnt =>
      match path with
      | [] => Some (n, stack)
      | Left :: rest => iterator_at rest l (Frame Left c k v r cnt :: stack)
      | Right :: rest => iterator_at rest r (Frame Right c k v l cnt :: stack)
      end
  end.

(** [RedBlackTree.prototype.remove]: [find] then the iterator's [remove]
    (an iterator object is always truthy). *)
Definition remove (key : K) (t : tree) : outcome tree :=
  iterator_remove t (find key t).

(** ** at, index *)

(** [RedBlackTree.prototype.at], the loop of lines 270-292 from node [n]
    with the remaining rank [idx]. *)
Fixpoint at_loop (n : tree) (idx : Z) (stack : list frame) : outcome iterator :=
  match n with
  | Leaf => TypeError
  | Node c k v l r cnt =>
      let go_left := is_node l && (idx <? count l) in
      if go_left then at_loop l idx (Frame Left c k v r cnt :: stack)
      else
        let idx := if is_node l then idx - count l else idx in
        if idx =? 0 then Ok (Some (n, stack))
        else
          let idx := idx - 1 in
          match r with
          | Leaf => Ok None
          | Node _ _ _ _ _ rcnt =>
              if idx >=? rcnt then Ok None
              else at_loop r idx (Frame Right c k v l cnt :: stack)
          end
  end.

Definition at_ (idx : Z) (t : tree) : outcome iterator :=
  if idx <? 0 then Ok None else at_loop t idx [].

(** The body of the loop of [index]: the test
    [stack[s + 1] === stack[s].right] is the direction of the frame. *)
Definition rank_step (idx : Z) (f : frame) : Z :=
  match fdir f with
  | Right => idx + 1 + count (fsib f)
  | Left => idx
  end.

(** [RedBlackTreeIterator.prototype.index] *)
Definition index (t : tree) (it : iterator) : Z :=
  match it with
  | None => count t
  | Some (n, stack) =>
      let idx := match n with
                 | Leaf => 0
                 | Node _ _ _ l _ _ => count l
                 end in
      fold_left rank_step stack idx
  end.

(** [RedBlackTreeIterator.prototype.key] *)
Definition iterator_key (it : iterator) : option K :=
  match it with
  | Some (Node _ k _ _ _ _, _) => Some k
  | _ => None
  end.

(** [RedBlackTreeIterator.prototype.valid] *)
Definition valid (it : iterator) : bool :=
  match it with
  | Some _ => true
  | None => false
  end.

(** ** forEach, keys, values *)

(** [doVisitFull(visit, node)]: the visitor works on a state [S] (what the
    closure captures) and returns the new state together with its result;
    a truthy result stops the traversal. *)
Fixpoint doVisitFull {S : Type} (visit : K -> V -> S -> S * bool) (node : tree) (st : S)
  : S * bool :=
  match node with
  | Leaf => (st, false)
  | Node _ k v l r _ =>
      let '(st1, stop1) := doVisitFull visit l st in
      if stop1 then (st1, true)
      else
        let '(st2, stop2) := visit k v st1 in
        if stop2 then (st2, true)
        else doVisitFull visit r st2
  end.

(** [RedBlackTree.prototype.forEach] with one argument. *)
Definition forEach {S : Type} (visit : K -> V -> S -> S * bool) (t : tree) (st : S) : S * bool :=
  doVisitFull visit t st.

(** [RedBlackTree.prototype.keys]: the visitor pushes the key and returns
    [undefined]. *)
Definition keys (t : tree) : list K :=
  fst (forEach (fun k _ acc => (acc ++ [k], false)) t []).

Definition values (t : tree) : list V :=
  fst (forEach (fun _ v acc => (acc ++ [v], false)) t []).

(** [doVisitHalf(lo, compare, visit, node)], lines 445-462. *)
Fixpoint doVisitHalf {S : Type} (lo : K) (visit : K -> V -> S -> S * bool) (node : tree)
    (st : S) : S * bool :=
  match node with
  | Leaf => (st, false)
  | Node _ k v l r _ =>
      let lc := cmp lo k in
      let '(st1, stop1) :=
        if lc <=? 0 then
          let '(st0, stop0) := doVisitHalf lo visit l st in
          if stop0 then (st0, true) else visit k v st0
        else (st, false) in
      if stop1 then (st1, true) else doVisitHalf lo visit r st1
  end.

(** [doVisit(lo, hi, compare, visit, node)], lines 464-485. *)
Fixpoint doVisit {S : Type} (lo hi : K) (visit : K -> V -> S -> S * bool) (node : tree)
    (st : S) : S * bool :=
  match node with
  | Leaf => (st, false)
  | Node _ k v l r _ =>
      let lc := cmp lo k in
      let hc := cmp hi k in
      let '(st1, stop1) :=
        if lc <=? 0 then
          let '(st0, stop0) := doVisit lo hi visit l st in
          if stop0 then (st0, true)
          else if hc >? 0 then visit k v st0 else (st0, false)
        else (st, false) in
      if stop1 then (st1, true)
      else if hc >? 0 then doVisit lo hi visit r st1 else (st1, false)
  end.

(** [RedBlackTree.prototype.forEach] with two arguments, [forEach(visit, lo)]. *)
Definition forEach_from {S : Type} (visit : K -> V -> S -> S * bool) (lo : K) (t : tree)
    (st : S) : S * bool :=
  doVisitHalf lo visit t st.

(** [RedBlackTree.prototype.forEach] with three arguments,
    [forEach(visit, lo, hi)]: nothing is visited when [compare(lo, hi) >= 0]. *)
Definition forEach_range {S : Type} (visit : K -> V -> S -> S * bool) (lo hi : K) (t : tree)
    (st : S) : S * bool :=
  if cmp lo hi >=? 0 then (st, false) else doVisit lo hi visit t st.

(** ** begin, end *)

(** [while (n) { stack.push(n); n = n.left; }]: the stack ends on the
    leftmost node below [n]; it stays as it is when [n] is [null]. *)
Fixpoint leftmost (n : tree) (stack : list frame) : iterator :=
  match n with
  | Leaf => None
  | Node c k v l r cnt =>
      match l with
      | Leaf => Some (n, stack)
      | Node _ _ _ _ _ _ => leftmost l (Frame Left c k v r cnt :: stack)
      end
  end.

(** [while (n) { stack.push(n); n = n.right; }] *)
Fixpoint rightmost (n : tree) (stack : list frame) : iterator :=
  match n with
  | Leaf => None
  | Node c k v l r cnt =>
      match r with
      | Leaf => Some (n, stack)
      | Node _ _ _ _ _ _ => rightmost r (Frame Right c k v l cnt :: stack)
      end
  end.

(** [RedBlackTree.prototype.begin] *)
Definition begin (t : tree) : iterator := leftmost t [].

(** [RedBlackTree.prototype.end] *)
Definition end_ (t : tree) : iterator := rightmost t [].

(** ** ge, gt, lt, le *)

(** The loop of [ge], [gt], [lt] and [le] (lines 295-378).  The four differ
    in two tests on [d = cmp(key, n.key)]: [mark d] for
    [last_ptr = stack.length] and [left d] for [n = n.left].  [last] is the
    stack cut at [last_ptr], what [stack.length = last_ptr] leaves. *)
Fixpoint bound_loop (mark left : Z -> bool) (key : K) (n : tree) (stack : list frame)
    (last : iterator) : iterator :=
  match n with
  | Leaf => last
  | Node c k v l r cnt =>
      let d := cmp key k in
      let last := if mark d then Some (n, stack) else last in
      if left d then bound_loop mark left key l (Frame Left c k v r cnt :: stack) last
      else bound_loop mark left key r (Frame Right c k v l cnt :: stack) last
  end.

(** [RedBlackTree.prototype.ge]: [if (d <= 0) last_ptr = ...; if (d <= 0) n = n.left] *)
Definition ge (key : K) (t : tree) : iterator :=
  bound_loop (fun d => d <=? 0) (fun d => d <=? 0) key t [] None.

(** [RedBlackTree.prototype.gt]: [if (d < 0) last_ptr = ...; if (d < 0) n = n.left] *)
Definition gt (key : K) (t : tree) : iterator :=
  bound_loop (fun d => d <? 0) (fun d => d <? 0) key t [] None.

(** [RedBlackTree.prototype.lt]: [if (d > 0) last_ptr = ...; if (d <= 0) n = n.left] *)
Definition lt (key : K) (t : tree) : iterator :=
  bound_loop (fun d => d >? 0) (fun d => d <=? 0) key t [] None.

(** [RedBlackTree.prototype.le]: [if (d >= 0) last_ptr = ...; if (d < 0) n = n.left] *)
Definition le (key : K) (t : tree) : iterator :=
  bound_loop (fun d => d >=? 0) (fun d => d <? 0) key t [] None.

(** ** The moves of an iterator *)

(** [RedBlackTreeIterator.prototype.value] *)
Definition iterator_value (it : iterator) : option V :=
  match it with
  | Some (Node _ _ v _ _ _, _) => Some v
  | _ => None
  end.

(** Lines 657-661 of [next]: [stack.pop()] and the pops of
    [while (stack.length > 0 && stack[stack.length - 1].right === n)].  The
    stack ends on the nearest ancestor that has the path in its left
    subtree, and is empty when there is none. *)
Fixpoint pop_right (n : tree) (stack : list frame) : iterator :=
  match stack with
  | [] => None
  | f :: rest =>
      match fdir f with
      | Right => pop_right (plug n f) rest
      | Left => Some (plug n f, rest)
      end
  end.

(** Lines 713-717 of [prev], with the test [stack[stack.length - 1].left === n]. *)
Fixpoint pop_left (n : tree) (stack : list frame) : iterator :=
  match stack with
  | [] => None
  | f :: rest =>
      match fdir f with
      | Left => pop_left (plug n f) rest
      | Right => Some (plug n f, rest)
      end
  end.

(** [RedBlackTreeIterator.prototype.next]: the iterator after the call.
    The entries of a stack are nodes, so [Leaf] is never on top. *)
Definition next (it : iterator) : iterator :=
  match it with
  | Some (Node c k v l r cnt, stack) =>
      if is_node r then leftmost r (Frame Right c k v l cnt :: stack)
      else pop_right (Node c k v l r cnt) stack
  | _ => None
  end.

(** [RedBlackTreeIterator.prototype.prev] *)
Definition prev (it : iterator) : iterator :=
  match it with
  | Some (Node c k v l r cnt, stack) =>
      if is_node l then rightmost l (Frame Left c k v r cnt :: stack)
      else pop_left (Node c k v l r cnt) stack
  | _ => None
  end.

(** The tests [stack[s - 1].left === stack[s]] and
    [stack[s - 1].right === stack[s]] on an entry of the stack and the
    entry before it. *)
Definition goes_left (f : frame) : bool :=
  match fdir f with Left => true | Right => false end.

Definition goes_right (f : frame) : bool :=
  match fdir f with Right => true | Left => false end.

(** [RedBlackTreeIterator.prototype.hasNext]: the loop looks for an entry
    of the stack that is the left child of the entry before it. *)
Definition hasNext (it : iterator) : bool :=
  match it with
  | Some (Node _ _ _ _ r _, stack) => is_node r || existsb goes_left stack
  | _ => false
  end.

(** [RedBlackTreeIterator.prototype.hasPrev] *)
Definition hasPrev (it : iterator) : bool :=
  match it with
  | Some (Node _ _ _ l _ _, stack) => is_node l || existsb goes_right stack
  | _ => false
  end.

(** [RedBlackTreeIterator.prototype.update]: the path is copied with the
    new value in the copy of the node on top; [None] is the [Error] thrown
    for an iterator with an empty stack. *)
Definition iterator_update (value : V) (it : iterator) : option tree :=
  match it with
  | Some (Node c k _ l r cnt, stack) => Some (zip (Node c k value l r cnt) stack)
  | _ => None
  end.

End Tree.

(** ** The invariants of a published tree *)

Section Invariants.

Context {K V : Type}.
Abbreviation tree := (@tree K V).
Abbreviation frame := (@frame K V).

(** What a node of colour [c] adds to the number of BLACK nodes of a path. *)
Definition black (c : color) : nat :=
  match c with
  | BLACK => 1%nat
  | RED => 0%nat
  end.

(** [path_blacks t b]: some path from the root of [t] to an empty child
    passes through exactly [b] BLACK nodes. *)
Inductive path_blacks : tree -> nat -> Prop :=
| pb_leaf : path_blacks Leaf 0
| pb_left c k v l r n b : path_blacks l b -> path_blacks (Node c k v l r n) (black c + b)
| pb_right c k v l r n b : path_blacks r b -> path_blacks (Node c k v l r n) (black c + b).

Definition equal_black_height (t : tree) : Prop :=
  forall a b, path_blacks t a -> path_blacks t b -> a = b.

(** No RED node has a RED child. *)
Fixpoint no_red_red (t : tree) : Prop :=
  match t with
  | Leaf => True
  | Node c _ _ l r _ =>
      (c = RED -> is_red l = false /\ is_red r = false) /\ no_red_red l /\ no_red_red r
  end.

(** Every node's [_count] is 1 plus the counts of its subtrees. *)
Fixpoint counted (t : tree) : Prop :=
  match t with
  | Leaf => True
  | Node _ _ _ l r n => n = 1 + count l + count r /\ counted l /\ counted r
  end.

Definition root_black (t : tree) : Prop := is_red t = false.

(** The structural invariant of the specification. *)
Record rb_invariant (t : tree) : Prop := {
  inv_root : root_black t;
  inv_red : no_red_red t;
  inv_height : equal_black_height t;
  inv_count : counted t
}.

(** Black height read along the leftmost path, and the recursive form of
    "all paths agree" used in the proofs. *)
Fixpoint bheight (t : tree) : nat :=
  match t with
  | Leaf => O
  | Node c _ _ l _ _ => (black c + bheight l)%nat
  end.

Fixpoint balanced (t : tree) : Prop :=
  match t with
  | Leaf => True
  | Node _ _ _ l r _ => bheight l = bheight r /\ balanced l /\ balanced r
  end.

(** The three invariants a subtree carries in the proofs. *)
Definition wf (t : tree) : Prop := no_red_red t /\ balanced t /\ counted t.

(** The invariants of a stack of frames around a subtree of black height
    [h] and count [cnt]. *)
Fixpoint ctx_wf (h : nat) (cnt : Z) (stack : list frame) : Prop :=
  match stack with
  | [] => True
  | f :: rest =>
      wf (fsib f) /\ bheight (fsib f) = h /\ fcount f = 1 + cnt + count (fsib f) /\
      (fcolor f = RED ->
       is_red (fsib f) = false /\
       match rest with [] => True | g :: _ => fcolor g = BLACK end) /\
      ctx_wf (black (fcolor f) + h) (fcount f) rest
  end.

(** The ancestor next to the subtree is BLACK (or there is none). *)
Definition head_black (stack : list frame) : Prop :=
  match stack with
  | [] => True
  | f :: _ => fcolor f = BLACK
  end.

(** The frame of the root, the last of the stack, is BLACK. *)
Definition root_frame_black (stack : list frame) : Prop :=
  match last stack with
  | None => True
  | Some f => fcolor f = BLACK
  end.

(** The invariants of a node in focus below its stack of ancestors. *)
Definition focus_ok (n : tree) (stack : list frame) : Prop :=
  wf n /\ ctx_wf (bheight n) (count n) stack /\
  (is_red n = true -> head_black stack) /\
  root_frame_black stack /\ (stack = [] -> is_red n = false).

(** The quantity that [fix_fuel] bounds. *)
Definition fix_measure (stack : list frame) : nat :=
  fold_right (fun f acc => (size (fsib f) + acc)%nat) O stack.

(** What the loop of [fixDoubleBlack] maintains: the subtree linked in
    place of [n] is one BLACK short of what its ancestors expect. *)
Definition fix_inv (doomed : bool) (n : tree) (stack : list frame) : Prop :=
  wf (place doomed n) /\ is_red (place doomed n) = false /\
  is_red n = false /\
  count n = count (place doomed n) /\
  ctx_wf (S (bheight (place doomed n))) (count n) stack /\
  root_frame_black stack.

(** Counts of a stack of frames around a subtree of count [cnt]. *)
Fixpoint ctx_counted (cnt : Z) (stack : list frame) : Prop :=
  match stack with
  | [] => True
  | f :: rest =>
      counted (fsib f) /\ fcount f = 1 + cnt + count (fsib f) /\ ctx_counted (fcount f) rest
  end.

(** The count of the root above a subtree of count [cnt]. *)
Fixpoint top_count (cnt : Z) (stack : list frame) : Z :=
  match stack with
  | [] => cnt
  | f :: rest => top_count (fcount f) rest
  end.

(** In-order list of the entries of a tree. *)
Fixpoint inorder (t : tree) : list (K * V) :=
  match t with
  | Leaf => []
  | Node _ k v l r _ => inorder l ++ (k, v) :: inorder r
  end.

(** Entries before and after the hole of a stack of frames. *)
Fixpoint ctx_before (stack : list frame) : list (K * V) :=
  match stack with
  | [] => []
  | f :: rest =>
      match fdir f with
      | Left => ctx_before rest
      | Right => ctx_before rest ++ inorder (fsib f) ++ [(fkey f, fval f)]
      end
  end.

Fixpoint ctx_after (stack : list frame) : list (K * V) :=
  match stack with
  | [] => []
  | f :: rest =>
      match fdir f with
      | Left => (fkey f, fval f) :: inorder (fsib f) ++ ctx_after rest
      | Right => ctx_after rest
      end
  end.

(** Entries in ascending order of their keys. *)
Definition key_le (cmp : K -> K -> Z) (a b : K * V) : Prop := cmp (fst a) (fst b) <= 0.

Definition ordered (cmp : K -> K -> Z) (t : tree) : Prop :=
  StronglySorted (key_le cmp) (inorder t).

Definition ascending (cmp : K -> K -> Z) (ks : list K) : Prop :=
  StronglySorted (fun a b => cmp a b <= 0) ks.

(** The contract of a comparator: exchanging the arguments flips the sign
    of the result, and [cmp a b <= 0] is transitive. *)
Definition comparator (cmp : K -> K -> Z) : Prop :=
  (forall x y, Z.sgn (cmp y x) = - Z.sgn (cmp x y)) /\
  (forall x y z, cmp x y <= 0 -> cmp y z <= 0 -> cmp x z <= 0).

(** A sequence of operations on a tree, and its run from a tree. *)
Inductive op : Type :=
| Insert (k : K) (v : V)     (* [tree.insert(k, v)] *)
| Remove (k : K)             (* [tree.remove(k)] *)
| RemoveAt (path : list dir) (* [it.remove()] for an iterator of the tree *).

Definition apply_op (cmp : K -> K -> Z) (o : op) (t : tree) : outcome tree :=
  match o with
  | Insert k v => Ok (insert cmp k v t)
  | Remove k => remove cmp k t
  | RemoveAt path => iterator_remove t (iterator_at path t [])
  end.

Fixpoint run (cmp : K -> K -> Z) (ops : list op) (t : tree) : outcome tree :=
  match ops with
  | [] => Ok t
  | o :: rest =>
      match apply_op cmp o t with
      | Ok t' => run cmp rest t'
      | TypeError => TypeError
      | OutOfFuel => OutOfFuel
      end
  end.

(** An iterator of the tree [t]: its stack is a path of [t] from the root
    to the node on top, or it is empty. *)
Definition iterator_of (t : tree) (it : iterator) : Prop :=
  match it with
  | None => True
  | Some (n, stack) => is_node n = true /\ zip n stack = t
  end.

(** What a traversal does with the entries it visits: it calls the visitor
    on one after the other and stops at the first truthy result. *)
Fixpoint visit_list {S : Type} (visit : K -> V -> S -> S * bool) (entries : list (K * V))
    (st : S) : S * bool :=
  match entries with
  | [] => (st, false)
  | (k, v) :: rest =>
      let '(st1, stop) := visit k v st in
      if stop then (st1, true) else visit_list visit rest st1
  end.

(** Entries in strictly ascending order of their keys: no two entries have
    keys that compare equal. *)
Definition distinct_keys (cmp : K -> K -> Z) (t : tree) : Prop :=
  StronglySorted (fun a b => cmp (fst a) (fst b) < 0) (inorder t).

(** [at_pos t it before]: the iterator [it] of [t] stands right after the
    entries [before]; an iterator with an empty stack stands after all
    entries. *)
Definition at_pos (t : tree) (it : iterator) (before : list (K * V)) : Prop :=
  match it with
  | None => before = inorder t
  | Some (Node c k v l r cnt, stack) =>
      zip (Node c k v l r cnt) stack = t /\ before = ctx_before stack ++ inorder l
  | Some (Leaf, _) => False
  end.

(** A test on [cmp key k] that stays true from one key to every greater
    one: the tests [d <= 0] and [d < 0] of the four bound queries. *)
Definition rising (cmp : K -> K -> Z) (key : K) (P : Z -> bool) : Prop :=
  forall a b, cmp a b <= 0 -> P (cmp key a) = true -> P (cmp key b) = true.

(** The test [P] on [cmp key k] gives [b] at the key of entry [e]. *)
Definition holds (cmp : K -> K -> Z) (key : K) (P : Z -> bool) (b : bool) (e : K * V) : Prop :=
  P (cmp key (fst e)) = b.

End Invariants.

(** [defaultCompare] on integer keys. *)
Definition defaultCompare (a b : Z) : Z :=
  if a <? b then -1 else if a >? b then 1 else 0.

(** [createRBTree()] *)
Definition createRBTree {K V : Type} : @tree K V := Leaf.

End RedBlackTree.

(** * The tree over a store of mutable nodes *)

Module Heap.

Section Store.

Context {K V : Type}.

(** A reference to a node object, or [null]. *)
Definition ptr : Type := option nat.

(** An [RBNode] object. *)
Record cell : Type := Cell {
  c_color : color;
  c_key : K;
  c_value : V;
  c_left : ptr;
  c_right : ptr;
  c_count : Z
}.

(** The store: the node objects allocated so far, by address.  [new RBNode]
    takes the next address. *)
Definition heap : Type := list cell.

(** Computations over the store.  A failed computation keeps the store it
    has reached. *)
Definition M (A : Type) : Type := heap -> outcome A * heap.

Definition ret {A} (a : A) : M A := fun h => (Ok a, h).

Definition bind {A B} (m : M A) (k : A -> M B) : M B :=
  fun h =>
    match m h with
    | (Ok a, h') => k a h'
    | (TypeError, h') => (TypeError, h')
    | (OutOfFuel, h') => (OutOfFuel, h')
    end.

Definition throw {A} : M A := fun h => (TypeError, h).
Definition out_of_fuel {A} : M A := fun h => (OutOfFuel, h).

Notation "'let*' x := m 'in' k" := (bind m (fun x => k))
  (at level 10, x name, m at level 100, k at level 200).
Notation "'do' m ; k" := (bind m (fun _ => k))
  (at level 10, m at level 100, k at level 200).

(** [new RBNode(...)] *)
Definition alloc (c : cell) : M nat := fun h => (Ok (List.length h), h ++ [c]).

(** Reading the object behind a reference. *)
Definition read (l : nat) : M cell :=
  fun h => match h !! l with
           | Some c => (Ok c, h)
           | None => (TypeError, h)
           end.

(** Field access [p.f]: a [TypeError] on [null]. *)
Definition deref (p : ptr) : M cell :=
  match p with
  | Some l => read l
  | None => throw
  end.

(** Field assignment on the object at [l]. *)
Definition modify (l : nat) (f : cell -> cell) : M unit :=
  fun h => match h !! l with
           | Some c => (Ok tt, <[l := f c]> h)
           | None => (TypeError, h)
           end.

Definition with_color (x : color) (c : cell) : cell :=
  Cell x (c_key c) (c_value c) (c_left c) (c_right c) (c_count c).
Definition with_key (x : K) (c : cell) : cell :=
  Cell (c_color c) x (c_value c) (c_left c) (c_right c) (c_count c).
Definition with_value (x : V) (c : cell) : cell :=
  Cell (c_color c) (c_key c) x (c_left c) (c_right c) (c_count c).
Definition with_left (x : ptr) (c : cell) : cell :=
  Cell (c_color c) (c_key c) (c_value c) x (c_right c) (c_count c).
Definition with_right (x : ptr) (c : cell) : cell :=
  Cell (c_color c) (c_key c) (c_value c) (c_left c) x (c_count c).
Definition with_count (x : Z) (c : cell) : cell :=
  Cell (c_color c) (c_key c) (c_value c) (c_left c) (c_right c) x.

Definition set_color (l : nat) (x : color) : M unit := modify l (with_color x).
Definition set_key (l : nat) (x : K) : M unit := modify l (with_key x).
Definition set_value (l : nat) (x : V) : M unit := modify l (with_value x).
Definition set_left (l : nat) (x : ptr) : M unit := modify l (with_left x).
Definition set_right (l : nat) (x : ptr) : M unit := modify l (with_right x).
Definition set_count (l : nat) (x : Z) : M unit := modify l (with_count x).

Definition get_color (l : nat) : M color := let* c := read l in ret (c_color c).
Definition get_left (l : nat) : M ptr := let* c := read l in ret (c_left c).
Definition get_right (l : nat) : M ptr := let* c := read l in ret (c_right c).

(** [a === b] on references. *)
Definition ptr_eqb (a b : ptr) : bool :=
  match a, b with
  | Some x, Some y => Nat.eqb x y
  | None, None => true
  | _, _ => false
  end.

(** [stack[i]] followed by a field access: a [TypeError] when the entry is
    [undefined]. *)
Definition stack_get (stack : list nat) (i : nat) : M nat :=
  match stack !! i with
  | Some l => ret l
  | None => throw
  end.

(** [cloneNode(node)] *)
Definition cloneNode (p : ptr) : M nat :=
  let* c := deref p in alloc c.

(** [repaint(color, node)] *)
Definition repaint (x : color) (p : ptr) : M nat :=
  let* c := deref p in alloc (with_color x c).

(** [node ? node._count : 0] *)
Definition count_of (p : ptr) : M Z :=
  match p with
  | None => ret 0
  | Some l => let* c := read l in ret (c_count c)
  end.

(** [recount(node)] *)
Definition recount (l : nat) : M unit :=
  let* c := read l in
  let* a := count_of (c_left c) in
  let* b := count_of (c_right c) in
  set_count l (1 + a + b).

(** [y && y._color === RED] *)
Definition is_red (p : ptr) : M bool :=
  match p with
  | None => ret false
  | Some l => let* c := read l in ret (color_eqb (c_color c) RED)
  end.

(** [_count--] *)
Definition dec_count (l : nat) : M unit :=
  modify l (fun c => with_count (c_count c - 1) c).

(** [for (i = 0; i < n; ++i) cstack[i]._count--] *)
Fixpoint dec_counts (stack : list nat) (n : nat) : M unit :=
  match n with
  | O => ret tt
  | S n' =>
      match stack with
      | [] => throw
      | l :: rest => do dec_count l ; dec_counts rest n'
      end
  end.

Variable cmp : K -> K -> Z.

(** ** insert *)

(** Lines 56-66: [while (n) { ... n_stack.push(n); d_stack.push(d); ... }] *)
Fixpoint insert_descend (fuel : nat) (key : K) (n : ptr) (n_stack : list nat)
    (d_stack : list Z) : M (list nat * list Z) :=
  match n with
  | None => ret (n_stack, d_stack)
  | Some l =>
      match fuel with
      | O => out_of_fuel
      | S fuel' =>
          let* c := read l in
          let d := cmp key (c_key c) in
          insert_descend fuel' key (if d <=? 0 then c_left c else c_right c)
                         (n_stack ++ [l]) (d_stack ++ [d])
      end
  end.

(** Lines 69-77: [for (s = n_stack.length - 2; s >= 0; --s)], with [k] the
    number of iterations left ([s = k - 1]). *)
Fixpoint insert_rebuild (k : nat) (n_stack : list nat) (d_stack : list Z) : M (list nat) :=
  match k with
  | O => ret n_stack
  | S s =>
      let* n := stack_get n_stack s in
      let* c := read n in
      match d_stack !! s, n_stack !! (S s) with
      | Some d, Some child =>
          let* l := alloc (if d <=? 0
                      then Cell (c_color c) (c_key c) (c_value c) (Some child) (c_right c)
                                (c_count c + 1)
                      else Cell (c_color c) (c_key c) (c_value c) (c_left c) (Some child)
                                (c_count c + 1)) in
          insert_rebuild s (<[s := l]> n_stack) d_stack
      | _, _ => throw
      end
  end.

(** [if (s >= 3) { var ppp = n_stack[s - 3]; if (ppp.left === pp) ppp.left = x;
    else ppp.right = x; }] *)
Definition relink_left_first (n_stack : list nat) (s : nat) (pp x : nat) : M unit :=
  if (3 <=? s)%nat then
    let* ppp := stack_get n_stack (s - 3) in
    let* pppl := get_left ppp in
    if ptr_eqb pppl (Some pp) then set_left ppp (Some x) else set_right ppp (Some x)
  else ret tt.

(** The same with the test [ppp.right === pp]. *)
Definition relink_right_first (n_stack : list nat) (s : nat) (pp x : nat) : M unit :=
  if (3 <=? s)%nat then
    let* ppp := stack_get n_stack (s - 3) in
    let* pppr := get_right ppp in
    if ptr_eqb pppr (Some pp) then set_right ppp (Some x) else set_left ppp (Some x)
  else ret tt.

(** Lines 80-221: [for (s = n_stack.length - 1; s > 1; --s)].  The loop
    goes on only after a recolouring, with [s] two less. *)
Fixpoint insert_rebalance (s : nat) (n_stack : list nat) : M (list nat) :=
  match s with
  | S (S s') =>
      let* p := stack_get n_stack (S s') in
      let* n := stack_get n_stack s in
      let* pc := get_color p in
      let* nc := if color_eqb pc BLACK then ret pc else get_color n in
      if color_eqb pc BLACK || color_eqb nc BLACK then ret n_stack
      else
        let* pp := stack_get n_stack s' in
        let* ppl := get_left pp in
        if ptr_eqb ppl (Some p) then
          let* pl := get_left p in
          if ptr_eqb pl (Some n) then
            let* y := get_right pp in
            let* yr := is_red y in
            if yr then
              (* LLr *)
              do set_color p BLACK ;
              let* y' := repaint BLACK y in
              do set_right pp (Some y') ;
              do set_color pp RED ;
              insert_rebalance s' n_stack
            else
              (* LLb *)
              do set_color pp RED ;
              let* pr := get_right p in
              do set_left pp pr ;
              do set_color p BLACK ;
              do set_right p (Some pp) ;
              let n_stack := <[S s' := n]> (<[s' := p]> n_stack) in
              do recount pp ;
              do recount p ;
              do relink_left_first n_stack s pp p ;
              ret n_stack
          else
            let* y := get_right pp in
            let* yr := is_red y in
            if yr then
              (* LRr *)
              do set_color p BLACK ;
              let* y' := repaint BLACK y in
              do set_right pp (Some y') ;
              do set_color pp RED ;
              insert_rebalance s' n_stack
            else
              (* LRb *)
              let* nl := get_left n in
              do set_right p nl ;
              do set_color pp RED ;
              let* nr := get_right n in
              do set_left pp nr ;
              do set_color n BLACK ;
              do set_left n (Some p) ;
              do set_right n (Some pp) ;
              let n_stack := <[S s' := p]> (<[s' := n]> n_stack) in
              do recount pp ;
              do recount p ;
              do recount n ;
              do relink_left_first n_stack s pp n ;
              ret n_stack
        else
          let* pr := get_right p in
          if ptr_eqb pr (Some n) then
            let* y := get_left pp in
            let* yr := is_red y in
            if yr then
              (* RRr *)
              do set_color p BLACK ;
              let* y' := repaint BLACK y in
              do set_left pp (Some y') ;
              do set_color pp RED ;
              insert_rebalance s' n_stack
            else
              (* RRb *)
              do set_color pp RED ;
              let* pl := get_left p in
              do set_right pp pl ;
              do set_color p BLACK ;
              do set_left p (Some pp) ;
              let n_stack := <[S s' := n]> (<[s' := p]> n_stack) in
              do recount pp ;
              do recount p ;
              do relink_right_first n_stack s pp p ;
              ret n_stack
          else
            let* y := get_left pp in
            let* yr := is_red y in
            if yr then
              (* RLr *)
              do set_color p BLACK ;
              let* y' := repaint BLACK y in
              do set_left pp (Some y') ;
              do set_color pp RED ;
              insert_rebalance s' n_stack
            else
              (* RLb *)
              let* nr := get_right n in
              do set_left p nr ;
              do set_color pp RED ;
              let* nl := get_left n in
              do set_right pp nl ;
              do set_color n BLACK ;
              do set_right n (Some p) ;
              do set_left n (Some pp) ;
              let n_stack := <[S s' := p]> (<[s' := n]> n_stack) in
              do recount pp ;
              do recount p ;
              do recount n ;
              do relink_right_first n_stack s pp n ;
              ret n_stack
  | _ => ret n_stack
  end.

(** [RedBlackTree.prototype.insert]: returns the root of the new tree. *)
Definition insert (fuel : nat) (key : K) (value : V) (root : ptr) : M ptr :=
  let* stacks := insert_descend fuel key root [] [] in
  let '(n_stack, d_stack) := stacks in
  let* leaf := alloc (Cell RED key value None None 1) in
  let n_stack := n_stack ++ [leaf] in
  let* n_stack := insert_rebuild (List.length n_stack - 1) n_stack d_stack in
  let* n_stack := insert_rebalance (List.length n_stack - 1) n_stack in
  let* r := stack_get n_stack 0 in
  do set_color r BLACK ;
  ret (Some r).

(** ** find *)

(** [RedBlackTree.prototype.find]: the stack of the iterator, empty when
    the key is absent. *)
Fixpoint find (fuel : nat) (key : K) (n : ptr) (stack : list nat) : M (list nat) :=
  match n with
  | None => ret []
  | Some l =>
      match fuel with
      | O => out_of_fuel
      | S fuel' =>
          let* c := read l in
          let d := cmp key (c_key c) in
          let stack := stack ++ [l] in
          if d =? 0 then ret stack
          else find fuel' key (if d <=? 0 then c_left c else c_right c) stack
      end
  end.

(** ** remove *)

(** Lines 513-521: [for (i = stack.length - 2; i >= 0; --i)], with [k] the
    number of iterations left and [cstack] the copies made so far, those of
    [stack[k..]]. *)
Fixpoint copy_path (k : nat) (stack cstack : list nat) : M (list nat) :=
  match k with
  | O => ret cstack
  | S i =>
      let* n := stack_get stack i in
      let* c := read n in
      match stack !! (S i), cstack with
      | Some next, child :: _ =>
          let* l := alloc (if ptr_eqb (c_left c) (Some next)
                           then Cell (c_color c) (c_key c) (c_value c) (Some child) (c_right c)
                                     (c_count c)
                           else Cell (c_color c) (c_key c) (c_value c) (c_left c) (Some child)
                                     (c_count c)) in
          copy_path i stack (l :: cstack)
      | _, _ => throw
      end
  end.

(** Lines 531-534: [while (n.right) { cstack.push(n); n = n.right; }] *)
Fixpoint walk_right (fuel : nat) (n : nat) (cstack : list nat) : M (nat * list nat) :=
  match fuel with
  | O => out_of_fuel
  | S fuel' =>
      let* c := read n in
      match c_right c with
      | Some r => walk_right fuel' r (cstack ++ [n])
      | None => ret (n, cstack)
      end
  end.

(** Lines 541-544: [for (i = cstack.length - 2; i >= split; --i)], with [k]
    the number of iterations left ([i = split + k - 1]). *)
Fixpoint copy_right_path (k split : nat) (cstack : list nat) : M (list nat) :=
  match k with
  | O => ret cstack
  | S k' =>
      let i := (split + k')%nat in
      let* n := stack_get cstack i in
      let* c := read n in
      let* child := stack_get cstack (S i) in
      let* l := alloc (Cell (c_color c) (c_key c) (c_value c) (c_left c) (Some child)
                            (c_count c)) in
      copy_right_path k' split (<[i := l]> cstack)
  end.

(** Lines 526-546: if the node has two children, swap it with its in-order
    predecessor and extend the copied path down to it. *)
Definition move_to_leaf (fuel : nat) (cstack : list nat) : M (list nat) :=
  let* n := stack_get cstack (List.length cstack - 1) in
  let* c := read n in
  match c_left c, c_right c with
  | Some l, Some _ =>
      let split := List.length cstack in
      let* walked := walk_right fuel l cstack in
      let '(n, cstack) := walked in
      let* v := stack_get cstack (split - 1) in
      let* vc := read v in
      let* nc := read n in
      let* l := alloc (Cell (c_color nc) (c_key vc) (c_value vc) (c_left nc) (c_right nc)
                            (c_count nc)) in
      let cstack := cstack ++ [l] in
      do set_key v (c_key nc) ;
      do set_value v (c_value nc) ;
      let* cstack := copy_right_path (List.length cstack - 1 - split) split cstack in
      let* top := stack_get cstack split in
      do set_left v (Some top) ;
      ret cstack
  | _, _ => ret cstack
  end.

(** [swapNode(n, v)] *)
Definition swapNode (n : nat) (v : ptr) : M unit :=
  let* c := deref v in
  do set_key n (c_key c) ;
  do set_value n (c_value c) ;
  do set_left n (c_left c) ;
  do set_right n (c_right c) ;
  do set_color n (c_color c) ;
  set_count n (c_count c).

(** [if (i > 1) { var pp = stack[i - 2]; if (pp.left === p) pp.left = x;
    else pp.right = x; }] *)
Definition fix_relink_left_first (stack : list nat) (i : nat) (p x : nat) : M unit :=
  if (1 <? i)%nat then
    let* pp := stack_get stack (i - 2) in
    let* ppl := get_left pp in
    if ptr_eqb ppl (Some p) then set_left pp (Some x) else set_right pp (Some x)
  else ret tt.

(** The same with the test [pp.right === p]. *)
Definition fix_relink_right_first (stack : list nat) (i : nat) (p x : nat) : M unit :=
  if (1 <? i)%nat then
    let* pp := stack_get stack (i - 2) in
    let* ppr := get_right pp in
    if ptr_eqb ppr (Some p) then set_right pp (Some x) else set_left pp (Some x)
  else ret tt.

(** [if (i + 1 < stack.length) stack[i + 1] = n; else stack.push(n);] *)
Definition stack_put_above (stack : list nat) (i : nat) (n : nat) : list nat :=
  if (i + 1 <? List.length stack)%nat then <[(i + 1)%nat := n]> stack else stack ++ [n].

(** [fixDoubleBlack(stack)], lines 748-953: the loop at index [i]; the
    result is the stack as the loop leaves it. *)
Fixpoint fixDoubleBlack (fuel : nat) (i : nat) (stack : list nat) : M (list nat) :=
  match fuel with
  | O => out_of_fuel
  | S fuel' =>
      let* n := stack_get stack i in
      match i with
      | O => do set_color n BLACK ; ret stack
      | S i1 =>
          let* p := stack_get stack i1 in
          let* pl := get_left p in
          if ptr_eqb pl (Some n) then
            let* s := get_right p in
            let* sc := deref s in
            let* srr := is_red (c_right sc) in
            if srr then
              (* case 1: right sibling child red *)
              let* s := cloneNode s in
              do set_right p (Some s) ;
              let* sc := read s in
              let* z := cloneNode (c_right sc) in
              do set_right s (Some z) ;
              let* sl := get_left s in
              do set_right p sl ;
              do set_left s (Some p) ;
              do set_right s (Some z) ;
              let* pc := get_color p in
              do set_color s pc ;
              do set_color n BLACK ;
              do set_color p BLACK ;
              do set_color z BLACK ;
              do recount p ;
              do recount s ;
              do fix_relink_left_first stack i p s ;
              ret (<[i1 := s]> stack)
            else
              let* slr := is_red (c_left sc) in
              if slr then
                (* case 1: left sibling child red *)
                let* s := cloneNode s in
                do set_right p (Some s) ;
                let* sc := read s in
                let* z := cloneNode (c_left sc) in
                do set_left s (Some z) ;
                let* zl := get_left z in
                do set_right p zl ;
                let* zr := get_right z in
                do set_left s zr ;
                do set_left z (Some p) ;
                do set_right z (Some s) ;
                let* pc := get_color p in
                do set_color z pc ;
                do set_color p BLACK ;
                do set_color s BLACK ;
                do set_color n BLACK ;
                do recount p ;
                do recount s ;
                do recount z ;
                do fix_relink_left_first stack i p z ;
                ret (<[i1 := z]> stack)
              else if color_eqb (c_color sc) BLACK then
                let* pc := get_color p in
                if color_eqb pc RED then
                  (* case 2: black sibling, red parent *)
                  do set_color p BLACK ;
                  let* s' := repaint RED s in
                  do set_right p (Some s') ;
                  ret stack
                else
                  (* case 2: black sibling, black parent *)
                  let* s' := repaint RED s in
                  do set_right p (Some s') ;
                  fixDoubleBlack fuel' i1 stack
              else
                (* case 3: red sibling *)
                let* s := cloneNode s in
                let* sl := get_left s in
                do set_right p sl ;
                do set_left s (Some p) ;
                let* pc := get_color p in
                do set_color s pc ;
                do set_color p RED ;
                do recount p ;
                do recount s ;
                do fix_relink_left_first stack i p s ;
                let stack := <[i := p]> (<[i1 := s]> stack) in
                let stack := stack_put_above stack i n in
                fixDoubleBlack fuel' (S i) stack
          else
            let* s := get_left p in
            let* sc := deref s in
            let* slr := is_red (c_left sc) in
            if slr then
              (* case 1: left sibling child red *)
              let* s := cloneNode s in
              do set_left p (Some s) ;
              let* sc := read s in
              let* z := cloneNode (c_left sc) in
              do set_left s (Some z) ;
              let* sr := get_right s in
              do set_left p sr ;
              do set_right s (Some p) ;
              do set_left s (Some z) ;
              let* pc := get_color p in
              do set_color s pc ;
              do set_color n BLACK ;
              do set_color p BLACK ;
              do set_color z BLACK ;
              do recount p ;
              do recount s ;
              do fix_relink_right_first stack i p s ;
              ret (<[i1 := s]> stack)
            else
              let* srr := is_red (c_right sc) in
              if srr then
                (* case 1: right sibling child red *)
                let* s := cloneNode s in
                do set_left p (Some s) ;
                let* sc := read s in
                let* z := cloneNode (c_right sc) in
                do set_right s (Some z) ;
                let* zr := get_right z in
                do set_left p zr ;
                let* zl := get_left z in
                do set_right s zl ;
                do set_right z (Some p) ;
                do set_left z (Some s) ;
                let* pc := get_color p in
                do set_color z pc ;
                do set_color p BLACK ;
                do set_color s BLACK ;
                do set_color n BLACK ;
                do recount p ;
                do recount s ;
                do recount z ;
                do fix_relink_right_first stack i p z ;
                ret (<[i1 := z]> stack)
              else if color_eqb (c_color sc) BLACK then
                let* pc := get_color p in
                if color_eqb pc RED then
                  (* case 2: black sibling, red parent *)
                  do set_color p BLACK ;
                  let* s' := repaint RED s in
                  do set_left p (Some s') ;
                  ret stack
                else
                  (* case 2: black sibling, black parent *)
                  let* s' := repaint RED s in
                  do set_left p (Some s') ;
                  fixDoubleBlack fuel' i1 stack
              else
                (* case 3: red sibling *)
                let* s := cloneNode s in
                let* sr := get_right s in
                do set_left p sr ;
                do set_right s (Some p) ;
                let* pc := get_color p in
                do set_color s pc ;
                do set_color p RED ;
                do recount p ;
                do recount s ;
                do fix_relink_right_first stack i p s ;
                let stack := <[i := p]> (<[i1 := s]> stack) in
                let stack := stack_put_above stack i n in
                fixDoubleBlack fuel' (S i) stack
      end
  end.

(** [RedBlackTreeIterator.prototype.remove], lines 504-606, for the
    iterator with stack [stack] on the tree rooted at [root]: returns the
    root of the new tree. *)
Definition iterator_remove (fuel : nat) (root : ptr) (stack : list nat) : M ptr :=
  match stack with
  | [] => ret root
  | _ :: _ =>
      let len := List.length stack in
      let* n := stack_get stack (len - 1) in
      let* c := read n in
      let* top := alloc c in
      let* cstack := copy_path (len - 1) stack [top] in
      let* cstack := move_to_leaf fuel cstack in
      let len := List.length cstack in
      let* n := stack_get cstack (len - 1) in
      let* c := read n in
      if color_eqb (c_color c) RED then
        (* easy case: removing red leaf *)
        let* p := if (len <? 2)%nat then throw else stack_get cstack (len - 2) in
        let* pl := get_left p in
        let* pr := get_right p in
        do (if ptr_eqb pl (Some n) then set_left p None
            else if ptr_eqb pr (Some n) then set_right p None
            else ret tt) ;
        let cstack := removelast cstack in
        do dec_counts cstack (List.length cstack) ;
        let* r := stack_get cstack 0 in
        ret (Some r)
      else
        match c_left c, c_right c with
        | None, None =>
            if (len =? 1)%nat then
              (* third easy case: root *)
              ret None
            else
              (* hard case *)
              do dec_counts cstack len ;
              let* parent := stack_get cstack (len - 2) in
              let* cstack := fixDoubleBlack fuel (len - 1) cstack in
              let* pl := get_left parent in
              do (if ptr_eqb pl (Some n) then set_left parent None
                  else set_right parent None) ;
              let* r := stack_get cstack 0 in
              ret (Some r)
        | l, r =>
            (* second easy case: single child black parent *)
            do (match l with
                | Some _ => swapNode n l
                | None => swapNode n r
                end) ;
            do set_color n BLACK ;
            do dec_counts cstack (len - 1) ;
            let* r := stack_get cstack 0 in
            ret (Some r)
        end
  end.

(** [RedBlackTree.prototype.remove] *)
Definition remove (fuel : nat) (key : K) (root : ptr) : M ptr :=
  let* stack := find fuel key root [] in
  iterator_remove fuel root stack.

(** ** update *)

(** Lines 687-695 of [RedBlackTreeIterator.prototype.update]. *)
Definition iterator_update (root : ptr) (stack : list nat) (value : V) : M ptr :=
  match stack with
  | [] => throw
  | _ :: _ =>
      let len := List.length stack in
      let* n := stack_get stack (len - 1) in
      let* c := read n in
      let* top := alloc (with_value value c) in
      let* cstack := copy_path (len - 1) stack [top] in
      let* r := stack_get cstack 0 in
      ret (Some r)
  end.

(** ** Queries *)

(** [RedBlackTree.prototype.length] *)
Definition length (root : ptr) : M Z := count_of root.

(** [RedBlackTree.prototype.get] *)
Fixpoint get (fuel : nat) (key : K) (n : ptr) : M (option V) :=
  match n with
  | None => ret None
  | Some l =>
      match fuel with
      | O => out_of_fuel
      | S fuel' =>
          let* c := read l in
          let d := cmp key (c_key c) in
          if d =? 0 then ret (Some (c_value c))
          else get fuel' key (if d <=? 0 then c_left c else c_right c)
      end
  end.

(** The loop of [RedBlackTree.prototype.at], lines 270-292. *)
Fixpoint at_loop (fuel : nat) (n : ptr) (idx : Z) (stack : list nat) : M (list nat) :=
  match fuel with
  | O => out_of_fuel
  | S fuel' =>
      let* c := deref n in
      let stack := stack ++ match n with Some l => [l] | None => [] end in
      let* lc := count_of (c_left c) in
      if (if c_left c is Some _ then true else false) && (idx <? lc)
      then at_loop fuel' (c_left c) idx stack
      else
        let idx := if c_left c is Some _ then idx - lc else idx in
        if idx =? 0 then ret stack
        else
          let idx := idx - 1 in
          match c_right c with
          | None => ret []
          | Some r =>
              let* rc := count_of (c_right c) in
              if idx >=? rc then ret [] else at_loop fuel' (c_right c) idx stack
          end
  end.

(** [RedBlackTree.prototype.at]: the stack of the iterator. *)
Definition at_ (fuel : nat) (idx : Z) (root : ptr) : M (list nat) :=
  if idx <? 0 then ret [] else at_loop fuel root idx [].

(** [doVisitFull] with the visitor of [keys]. *)
Fixpoint visit_keys (fuel : nat) (n : nat) (result : list K) : M (list K) :=
  match fuel with
  | O => out_of_fuel
  | S fuel' =>
      let* c := read n in
      let* result := match c_left c with
                     | Some l => visit_keys fuel' l result
                     | None => ret result
                     end in
      let result := result ++ [c_key c] in
      match c_right c with
      | Some r => visit_keys fuel' r result
      | None => ret result
      end
  end.

(** [RedBlackTree.prototype.keys] *)
Definition keys (fuel : nat) (root : ptr) : M (list K) :=
  match root with
  | None => ret []
  | Some n => visit_keys fuel n []
  end.

(** The queries of a tree. *)
Inductive query : Type -> Type :=
| QLength : query Z
| QGet (key : K) : query (option V)
| QFind (key : K) : query (list nat)
| QAt (idx : Z) : query (list nat)
| QKeys : query (list K).

Definition ask (fuel : nat) {A} (q : query A) (root : ptr) : M A :=
  match q with
  | QLength => length root
  | QGet key => get fuel key root
  | QFind key => find fuel key root []
  | QAt idx => at_ fuel idx root
  | QKeys => keys fuel root
  end.

(** ** The operations that produce a new version *)

Inductive operation : Type :=
| OpInsert (key : K) (value : V)
| OpRemove (key : K)
| OpIteratorRemove (stack : list nat)
| OpIteratorUpdate (stack : list nat) (value : V).

(** Run an operation on the version rooted at [root]; the loops of the
    source get [fuel] iterations each. *)
Definition exec (fuel : nat) (o : operation) (root : ptr) : M ptr :=
  match o with
  | OpInsert key value => insert fuel key value root
  | OpRemove key => remove fuel key root
  | OpIteratorRemove stack => iterator_remove fuel root stack
  | OpIteratorUpdate stack value => iterator_update root stack value
  end.

(** ** The tree a reference denotes *)

(** The tree below [p] in store [h], read down to depth [fuel]. *)
Fixpoint reify (fuel : nat) (h : heap) (p : ptr) : option (@RedBlackTree.tree K V) :=
  match p with
  | None => Some RedBlackTree.Leaf
  | Some l =>
      match fuel with
      | O => None
      | S fuel' =>
          match h !! l with
          | None => None
          | Some c =>
              match reify fuel' h (c_left c), reify fuel' h (c_right c) with
              | Some tl, Some tr =>
                  Some (RedBlackTree.Node (c_color c) (c_key c) (c_value c) tl tr (c_count c))
              | _, _ => None
              end
          end
      end
  end.

End Store.

(** ** What an operation may touch *)

Section FrameDefs.

Context {K V : Type}.

(** [h0] is the store before the operation. A store extends [h0] when
    every cell of [h0] is there, unchanged. *)
Definition ext (h0 h : @heap K V) : Prop := h0 `prefix_of` h.

(** An address allocated after [h0]. *)
Definition fresh (h0 : @heap K V) (l : nat) : Prop := (List.length h0 <= l)%nat.

(** [safe h0 m Q]: from a store that extends [h0], [m] ends in a store that
    extends [h0], whether it succeeds or not, and its result satisfies [Q]. *)
Definition safe (h0 : @heap K V) {A} (m : M A) (Q : A -> Prop) : Prop :=
  forall h, ext h0 h -> ext h0 (m h).2 /\ forall a, (m h).1 = Ok a -> Q a.

(** Entries of a stack at the indices from [k] on are fresh. *)
Definition fresh_from (h0 : @heap K V) (k : nat) (stack : list nat) : Prop :=
  forall i l, (k <= i)%nat -> stack !! i = Some l -> fresh h0 l.

(** Entries of a stack outside the indices from [lo] to [hi - 1] are fresh. *)
Definition fresh_outside (h0 : @heap K V) (lo hi : nat) (stack : list nat) : Prop :=
  forall i l, stack !! i = Some l -> (i < lo)%nat \/ (hi <= i)%nat -> fresh h0 l.

(** A computation that reads the store only, and reads the same from every
    store that extends the one it has read. *)
Definition reader {A} (m : @M K V A) : Prop :=
  (forall h, (m h).2 = h) /\
  (forall h h' a, h `prefix_of` h' -> (m h).1 = Ok a -> (m h').1 = Ok a).

End FrameDefs.

(** ** The tree behind a reference, as a relation *)

Section Denotation.

Context {K V : Type}.

Abbreviation tree := (@RedBlackTree.tree K V).
Abbreviation frame := (@RedBlackTree.frame K V).

(** [rep h avoid p t]: in the store [h] the reference [p] denotes the tree
    [t], through node objects at addresses outside [avoid]. *)
Inductive rep (h : @heap K V) (avoid : list nat) : ptr -> tree -> Prop :=
| rep_null : rep h avoid None RedBlackTree.Leaf
| rep_node l c tl tr :
    h !! l = Some c -> l ∉ avoid ->
    rep h avoid (c_left c) tl -> rep h avoid (c_right c) tr ->
    rep h avoid (Some l)
        (RedBlackTree.Node (c_color c) (c_key c) (c_value c) tl tr (c_count c)).

(** The node object [c] is the ancestor of frame [f], with the object at
    [child] where the path goes and a subtree of the store [h0] on the
    other side. *)
Definition cell_of_frame (h0 : @heap K V) (c : cell) (child : nat) (f : frame) : Prop :=
  c_color c = RedBlackTree.fcolor f /\ c_key c = RedBlackTree.fkey f /\
  c_value c = RedBlackTree.fval f /\ c_count c = RedBlackTree.fcount f /\
  match RedBlackTree.fdir f with
  | Left => c_left c = Some child /\ rep h0 [] (c_right c) (RedBlackTree.fsib f)
  | Right => c_right c = Some child /\ rep h0 [] (c_left c) (RedBlackTree.fsib f)
  end.

(** The objects at [addrs], the nearest ancestor first, are the ancestors
    [stack] of the object at [child]: the entries of [n_stack] below an
    index, read from that index down to 0. *)
Fixpoint spine (h0 h : @heap K V) (child : nat) (addrs : list nat) (stack : list frame)
  : Prop :=
  match addrs, stack with
  | [], [] => True
  | a :: addrs', f :: stack' =>
      (exists c, h !! a = Some c /\ cell_of_frame h0 c child f) /\ spine h0 h a addrs' stack'
  | _, _ => False
  end.

(** The object at [n] is the root of [t], its subtrees outside [avoid]. *)
Definition focus (h : @heap K V) (avoid : list nat) (n : nat) (t : tree) : Prop :=
  exists c tl tr,
    h !! n = Some c /\
    t = RedBlackTree.Node (c_color c) (c_key c) (c_value c) tl tr (c_count c) /\
    rep h avoid (c_left c) tl /\ rep h avoid (c_right c) tr.

(** The stores [h] and [h'] hold the same objects outside [touched]. *)
Definition same_outside (touched : list nat) (h h' : @heap K V) : Prop :=
  forall l c, l ∉ touched -> h !! l = Some c -> h' !! l = Some c.

(** [m], run in [h], succeeds with a result and a store that satisfy [Q]. *)
Definition wp {A} (m : @M K V A) (h : @heap K V) (Q : A -> @heap K V -> Prop) : Prop :=
  match m h with
  | (Ok a, h') => Q a h'
  | _ => False
  end.

(** What the rebalancing loop of [insert] keeps, at the object [n] with
    ancestors [addrs]: these objects are distinct and allocated after [h0],
    the ancestors are those of [stack], and [n] is the root of [t]. *)
Definition path_inv (h0 h : @heap K V) (n : nat) (addrs : list nat) (stack : list frame)
    (t : tree) : Prop :=
  NoDup (n :: addrs) /\ Forall (fresh h0) (n :: addrs) /\ h0 `prefix_of` h /\
  spine h0 h n addrs stack /\ focus h (n :: addrs) n t.

Variable cmp : K -> K -> Z.

(** The descent of [insert] for [key] from [p], which denotes [t] in [h]:
    the objects it goes through and the comparisons it makes. *)
Fixpoint old_path (h : @heap K V) (key : K) (p : ptr) (t : tree) (addrs : list nat)
    (ds : list Z) : Prop :=
  match t with
  | RedBlackTree.Leaf => p = None /\ addrs = [] /\ ds = []
  | RedBlackTree.Node c k v l r cnt =>
      exists a cc addrs' ds',
        p = Some a /\ h !! a = Some cc /\
        c_color cc = c /\ c_key cc = k /\ c_value cc = v /\ c_count cc = cnt /\
        rep h [] (c_left cc) l /\ rep h [] (c_right cc) r /\
        addrs = a :: addrs' /\ ds = cmp key k :: ds' /\
        if cmp key k <=? 0 then old_path h key (c_left cc) l addrs' ds'
        else old_path h key (c_right cc) r addrs' ds'
  end.

End Denotation.

End Heap.

(** * The two models side by side *)

Module CrossCheck.

(** An operation on a tree with integer keys and values. *)
Inductive hop : Type :=
| HI (k v : Z)
| HR (k : Z).

Fixpoint tree_eqb (a b : @RedBlackTree.tree Z Z) : bool :=
  match a, b with
  | RedBlackTree.Leaf, RedBlackTree.Leaf => true
  | RedBlackTree.Node c k v l r n, RedBlackTree.Node c' k' v' l' r' n' =>
      color_eqb c c' && (k =? k') && (v =? v') && (n =? n') && tree_eqb l l' && tree_eqb r r'
  | _, _ => false
  end.

(** The reference [root] denotes the tree [t] in the store [h]. *)
Definition denotes (root : Heap.ptr) (h : @Heap.heap Z Z) (t : @RedBlackTree.tree Z Z) : bool :=
  match Heap.reify 100 h root with
  | Some t' => tree_eqb t t'
  | None => false
  end
  && match Heap.keys 100 root h, Heap.length root h with
     | (Ok ks, _), (Ok n, _) =>
         forallb (fun p => fst p =? snd p) (zip ks (RedBlackTree.keys t))
         && (List.length ks =? List.length (RedBlackTree.keys t))%nat
         && (n =? RedBlackTree.length t)
     | _, _ => false
     end.

(** Run the operations on the store and on the pure tree in lock step:
    after each one the new root denotes the pure result, and every earlier
    root still denotes its tree. *)
Fixpoint agree (ops : list hop) (root : Heap.ptr) (h : @Heap.heap Z Z)
    (t : @RedBlackTree.tree Z Z) (old : list (Heap.ptr * @RedBlackTree.tree Z Z)) : bool :=
  forallb (fun '(r, t0) => denotes r h t0) old &&
  match ops with
  | [] => denotes root h t
  | HI k v :: rest =>
      let t' := RedBlackTree.insert RedBlackTree.defaultCompare k v t in
      match Heap.insert RedBlackTree.defaultCompare 100 k v root h with
      | (Ok root', h') => denotes root' h' t' && agree rest root' h' t' ((root, t) :: old)
      | _ => false
      end
  | HR k :: rest =>
      match Heap.remove RedBlackTree.defaultCompare 100 k root h,
            RedBlackTree.remove RedBlackTree.defaultCompare k t with
      | (Ok root', h'), Ok t' => denotes root' h' t' && agree rest root' h' t' ((root, t) :: old)
      | _, _ => false
      end
  end.

(** [n] keys [a * i mod n] for [i] below [n]: all keys below [n], scattered
    when [a] and [n] have no common factor. *)
Definition scattered (a n : Z) : list Z :=
  map (fun i => (a * Z.of_nat i) mod n) (seq 0 (Z.to_nat n)).

(** Insert the keys in one order, then remove them in another. *)
Definition fill_and_drain (inserted removed : list Z) : list hop :=
  map (fun k => HI k (10 * k)) inserted ++ map HR removed.

(** Sample runs: ascending, descending and scattered insertions, removals
    in several orders, repeated keys, removal of absent keys. *)
Definition samples : list (list hop) :=
  [ fill_and_drain (scattered 1 16) (scattered 1 16);
    fill_and_drain (scattered 15 16) (scattered 15 16);
    fill_and_drain (scattered 1 16) (scattered 15 16);
    fill_and_drain (scattered 7 31) (scattered 11 31);
    fill_and_drain (scattered 11 31) (scattered 7 31);
    fill_and_drain (scattered 5 48) (scattered 13 48);
    fill_and_drain (scattered 3 7 ++ scattered 5 7 ++ scattered 2 7)
                   (scattered 4 7 ++ scattered 6 7 ++ scattered 1 9);
    [HI 1 10; HI 1 20; HI 1 30; HI 2 5; HI 1 40; HR 1; HR 1; HR 3; HR 1; HR 2; HR 1; HR 1];
    [HI 5 1; HI 3 2; HI 8 3; HR 5; HI 4 4; HI 4 5; HR 3; HI 9 6; HI 7 7; HR 8; HR 4; HI 6 8;
     HR 9; HR 7; HR 4; HR 6] ].

End CrossCheck.

(** * The compaction pass *)

Module Compactor.

(** Keys are read from the index files as numbers ([keyType] other than
    ["string"]): integers here.  Values of the merge buffer are strings. *)
Definition key : Type := Z.
Definition value : Type := String.string.

(** [{ i, range: [min, max] }] *)
Record FileRef : Type := {
  f_i : Z;
  f_range : key * key
}.

(** [{ files, comp }] *)
Record Level : Type := {
  files : list FileRef;
  comp : nat
}.

(** [SnapManifest]: [{ v, inc, lvl }] *)
Record SnapManifest : Type := {
  v : Z;
  inc : Z;
  lvl : list Level
}.

(** What [loadFile] reads for a file id: the entries of [index.keys] in the
    order of [Object.keys], each [[offset, length]], and the text of the
    data file. *)
Record TableFile : Type := {
  idx_keys : list (key * (Z * Z));
  dta : String.string
}.

(** Exceptions of a pass. *)
Inductive exn : Type :=
| ENOENT        (* [fs.readFileSync] on a missing file *)
| SyntaxError   (* [JSON.parse] on a malformed text *)
| TreeError.    (* a [TypeError] inside the tree *)

Inductive result (A : Type) : Type :=
| Val (a : A)
| Throws (e : exn).
Arguments Val {A} a.
Arguments Throws {A} e.

(** The merge buffer [compactIndex]: [createRBTree()], a tree under
    [defaultCompare]. *)
Definition buffer : Type := @RedBlackTree.tree key value.

Section Pass.

(** [NULLBYTE], the tombstone marker imported from [./common]: a constant
    whose text the pass never looks at, taken as a parameter. *)
Variable NULLBYTE : value.

(** [BloomFilter.contains(bloom.vData, bloom.nHashFuncs, bloom.nTweak,
    String(key))] on the filter [_getBloom(fileID)] of a file: the membership
    test of [./bloom], taken as a parameter. *)
Variable bloom_contains : Z -> key -> bool.

(** The table files on disk, by file id. *)
Variable disk : Z -> option TableFile.

(** [fileInfo.range[0] <= key && fileInfo.range[1] >= key] *)
Definition covers (f : FileRef) (k : key) : bool :=
  (fst (f_range f) <=? k) && (snd (f_range f) >=? k).

(** The [while (i--)] loop of [nextLevel]: the files of one level from the
    last to the first. *)
Definition level_has (l : Level) (k : key) : bool :=
  existsb (fun f => covers f k && bloom_contains (f_i f) k) (rev (files l)).

(** [nextLevel()], lines 46-62, on the levels from [currentLevel] on. *)
Fixpoint nextLevel (levels : list Level) (k : key) : bool :=
  match levels with
  | [] => false
  | l :: rest => if level_has l k then true else nextLevel rest k
  end.

(** [hasOlderValues(key, level)], lines 44-65. *)
Definition hasOlderValues (m : SnapManifest) (k : key) (level : nat) : bool :=
  nextLevel (drop (level + 1) (lvl m)) k.

(** [data.slice(offset, offset + length)] *)
Definition slice (data : String.string) (offset len : Z) : value :=
  String.substring (Z.to_nat offset) (Z.to_nat len) data.

(** What a tree operation passes on. *)
Definition of_outcome (o : outcome buffer) : result buffer :=
  match o with
  | Ok t => Val t
  | _ => Throws TreeError
  end.

(** Lines 74-83: one key of the index of a file. *)
Definition loadKey (m : SnapManifest) (level : nat) (data : String.string)
    (compactIndex : buffer) (entry : key * (Z * Z)) : result buffer :=
  let '(k, (offset, len)) := entry in
  if offset =? -1 then
    (* tombstone *)
    if hasOlderValues m k level
    then Val (RedBlackTree.insert RedBlackTree.defaultCompare k NULLBYTE compactIndex)
    else of_outcome (RedBlackTree.remove RedBlackTree.defaultCompare k compactIndex)
  else
    Val (RedBlackTree.insert RedBlackTree.defaultCompare k (slice data offset len)
           compactIndex).

Fixpoint loadKeys (m : SnapManifest) (level : nat) (data : String.string)
    (compactIndex : buffer) (entries : list (key * (Z * Z))) : result buffer :=
  match entries with
  | [] => Val compactIndex
  | e :: rest =>
      match loadKey m level data compactIndex e with
      | Val t => loadKeys m level data t rest
      | Throws x => Throws x
      end
  end.

(** [loadFile(fileID, level)], lines 67-85. *)
Definition loadFile (m : SnapManifest) (compactIndex : buffer) (fileID : Z) (level : nat)
  : result buffer :=
  match disk fileID with
  | None => Throws ENOENT
  | Some file => loadKeys m level (dta file) compactIndex (idx_keys file)
  end.

(** The state a level's compaction works on: the merge buffer and the
    [deleteFiles] list of [[level, file id]] pairs. *)
Record pass_state : Type := {
  compactIndex : buffer;
  deleteFiles : list (nat * Z)
}.

(** [deleteFiles.push([level, file.i]); loadFile(file.i, level);] *)
Definition mark_and_load (m : SnapManifest) (level : nat) (st : pass_state) (f : FileRef)
  : result pass_state :=
  match loadFile m (compactIndex st) (f_i f) level with
  | Val t => Val {| compactIndex := t; deleteFiles := deleteFiles st ++ [(level, f_i f)] |}
  | Throws x => Throws x
  end.

(** A [forEach] whose body may throw. *)
Fixpoint forEach {A S : Type} (body : S -> A -> result S) (xs : list A) (st : S) : result S :=
  match xs with
  | [] => Val st
  | x :: rest =>
      match body st x with
      | Val st' => forEach body rest st'
      | Throws e => Throws e
      end
  end.

(** [this._manifestData.lvl[i].files], nothing when the level is absent. *)
Definition level_files (m : SnapManifest) (i : nat) : list FileRef :=
  match lvl m !! i with
  | Some l => files l
  | None => []
  end.

(** Lines 99-118, the branch [i === 0] of an over-budget level, up to the
    call of [tableGenerator]: all files of level 1, then all of level 0. *)
Definition compactLevel0 (m : SnapManifest) (st : pass_state) : result pass_state :=
  match forEach (mark_and_load m 1) (level_files m 1) st with
  | Val st1 => forEach (mark_and_load m 0) (level_files m 0) st1
  | Throws e => Throws e
  end.

(** Lines 123-125: [if (lvl.comp >= lvl.files.length) lvl.comp = 0]. *)
Definition wrap_comp (l : Level) : nat :=
  if (List.length (files l) <=? comp l)%nat then O else comp l.

(** Lines 128-133: the range of the file the marker points at, [[]] when
    there is none. *)
Definition keyRange_of (fs : list FileRef) (cursor : nat) : option (key * key) :=
  f_range <$> fs !! cursor.

(** Lines 141-150, the three tests on a file of the next level. A comparison
    with an element of the empty [keyRange] is false. *)
Definition overlap_test (keyRange : option (key * key)) (f : FileRef) : bool :=
  match keyRange with
  | None => false
  | Some (k0, k1) =>
      let '(r0, r1) := f_range f in
      if (r0 >=? k0) && (r1 <=? k0) then true       (* is starting key in the range? *)
      else if (r0 >=? k1) && (r1 <=? k1) then true  (* is ending key in the range? *)
      else if (r0 >=? k0) && (r1 <=? k1) then true  (* are the keys entirely overlapping? *)
      else false
  end.

(** What the compaction of a level [i >= 1] leaves: the state, the marker
    of the level after [lvl.comp++], and the range it worked with. *)
Record level_outcome : Type := {
  lo_state : pass_state;
  lo_comp : nat;
  lo_keyRange : option (key * key)
}.

(** Lines 120-164, the branch of an over-budget level [i >= 1], up to the
    call of [tableGenerator]. *)
Definition compactLevelN (m : SnapManifest) (i : nat) (l : Level) (st : pass_state)
  : result level_outcome :=
  let cursor := wrap_comp l in
  let keyRange := keyRange_of (files l) cursor in
  (* increment compaction marker for next compaction *)
  let cursor' := S cursor in
  (* find overlapping files in the next level *)
  match forEach (fun st f => if overlap_test keyRange f
                             then mark_and_load m (i + 1) st f
                             else Val st)
                (level_files m (i + 1)) st with
  | Throws e => Throws e
  | Val st1 =>
      (* grab newest changes *)
      match forEach (fun st kf => if (cursor' =? fst kf)%nat
                                  then mark_and_load m i st (snd kf)
                                  else Val st)
                    (imap (fun k f => (k, f)) (files l)) st1 with
      | Throws e => Throws e
      | Val st2 => Val {| lo_state := st2; lo_comp := cursor'; lo_keyRange := keyRange |}
      end
  end.

(** The overlap of the specification: the file's start key falls within the
    range, or its end key does, or the file's range contains the range. *)
Definition overlaps_spec (keyRange : key * key) (f : FileRef) : bool :=
  let '(k0, k1) := keyRange in
  let '(r0, r1) := f_range f in
  ((k0 <=? r0) && (r0 <=? k1)) || ((k0 <=? r1) && (r1 <=? k1)) || ((r0 <=? k0) && (k1 <=? r1)).

End Pass.

(** ** The manifest at the end of a pass *)

(** Lines 172-181, for one entry [[level, file id]] of [deleteFiles]: the
    level, if it exists, keeps the files with another id. *)
Definition clearFile (m : SnapManifest) (fileInfo : nat * Z) : SnapManifest :=
  match lvl m !! fst fileInfo with
  | Some l =>
      {| v := v m; inc := inc m;
         lvl := <[fst fileInfo :=
                    {| files := List.filter (fun file => negb (f_i file =? snd fileInfo)) (files l);
                       comp := comp l |}]> (lvl m) |}
  | None => m
  end.

(** [deleteFiles.forEach(...)], the step "clear old files from manifest". *)
Definition clearOldFiles (m : SnapManifest) (scheduled : list (nat * Z)) : SnapManifest :=
  fold_left clearFile scheduled m.

(** The file is scheduled for deletion from level [j]: some entry of
    [deleteFiles] is [[j, file.i]]. *)
Definition scheduled_for (scheduled : list (nat * Z)) (j : nat) (file : FileRef) : bool :=
  existsb (fun d => Nat.eqb (fst d) j && (f_i file =? snd d)) scheduled.

(** ** The manifest at the start of a pass *)

(** The file [manifest.json]. *)
Inductive manifest_file : Type :=
| Absent
| Present (content : String.string).

(** The literal of line 40: an object with [inc] 0 and an empty [lvl]. *)
Definition quote : String.string := String.String (Ascii.ascii_of_nat 34) String.EmptyString.

Definition default_text : String.string :=
  String.append "{" (String.append quote (String.append "inc" (String.append quote
    (String.append ": 0, " (String.append quote (String.append "lvl" (String.append quote
      ": []}"))))))).

(** The empty manifest the literal denotes; [v] is not set. *)
Definition empty_manifest (version : Z) : SnapManifest :=
  {| v := version; inc := 0; lvl := [] |}.

(** [fs.readFileSync(path)]: the content as a [Buffer], or [ENOENT]. *)
Definition readFileSync (f : manifest_file) : result String.string :=
  match f with
  | Absent => Throws ENOENT
  | Present content => Val content
  end.

(** Line 40.  [parse] is [JSON.parse], [None] for a text that is not JSON.
    A [Buffer] is an object, so [(... || new Buffer([]))] keeps it; the
    empty string is falsy, so [(... || '{...}')] replaces it. *)
Definition loadManifest (parse : String.string -> option SnapManifest) (f : manifest_file)
  : result SnapManifest :=
  match readFileSync f with
  | Throws e => Throws e
  | Val content =>
      let text := if String.eqb content String.EmptyString then default_text else content in
      match parse text with
      | Some m => Val m
      | None => Throws SyntaxError
      end
  end.

End Compactor.

(** * Concrete manifests and disks *)

Module Scenarios.

Import Compactor.
Local Open Scope string_scope.

Definition file (i : Z) (lo hi : key) : FileRef := {| f_i := i; f_range := (lo, hi) |}.

Definition start : pass_state := {| compactIndex := RedBlackTree.createRBTree; deleteFiles := [] |}.

(** Level 0 holds three files written one after the other: key 1 with a
    first value, key 1 with a second value, key 1 deleted.  There is no
    other level. *)
Definition tombstone_manifest : SnapManifest :=
  {| v := 1; inc := 3;
     lvl := [ {| files := [file 1 1 1; file 2 1 1; file 3 1 1]; comp := 0 |} ] |}.

Definition first_value : value := "v1".
Definition second_value : value := "v2".

Definition tombstone_disk (i : Z) : option TableFile :=
  if i =? 1 then Some {| idx_keys := [(1, (0, 2))]; dta := first_value |}
  else if i =? 2 then Some {| idx_keys := [(1, (0, 2))]; dta := second_value |}
  else if i =? 3 then Some {| idx_keys := [(1, (-1, 0))]; dta := String.EmptyString |}
  else None.

(** Level 1 holds one file with keys 0 to 10; level 2 holds a file with
    keys 5 to 15 and a file with keys 2 to 8. *)
Definition overlap_level1 : Level := {| files := [file 10 0 10]; comp := 0 |}.

Definition overlap_manifest : SnapManifest :=
  {| v := 1; inc := 30;
     lvl := [ {| files := []; comp := 0 |};
              overlap_level1;
              {| files := [file 20 5 15; file 21 2 8]; comp := 0 |} ] |}.

Definition overlap_disk (i : Z) : option TableFile :=
  if i =? 10 then Some {| idx_keys := [(0, (0, 1)); (10, (1, 1))]; dta := "ab" |}
  else if i =? 20 then Some {| idx_keys := [(5, (0, 1)); (15, (1, 1))]; dta := "cd" |}
  else if i =? 21 then Some {| idx_keys := [(2, (0, 1)); (8, (1, 1))]; dta := "ef" |}
  else None.

(** Level 1 holds two files and nothing lies below it. *)
Definition cursor_level (cursor : nat) : Level :=
  {| files := [file 10 0 10; file 11 20 30]; comp := cursor |}.

Definition cursor_manifest (cursor : nat) : SnapManifest :=
  {| v := 1; inc := 12; lvl := [ {| files := []; comp := 0 |}; cursor_level cursor ] |}.

Definition cursor_disk (i : Z) : option TableFile :=
  if i =? 10 then Some {| idx_keys := [(0, (0, 1)); (10, (1, 1))]; dta := "ab" |}
  else if i =? 11 then Some {| idx_keys := [(20, (0, 1)); (30, (1, 1))]; dta := "cd" |}
  else None.

End Scenarios.

(** * A concrete tree, iterator and store *)

Module Samples.

Import RedBlackTree.

(** [createRBTree().insert(2, 20).insert(1, 10).insert(3, 30)] *)
Definition three : @tree Z Z :=
  insert defaultCompare 3 30
    (insert defaultCompare 1 10 (insert defaultCompare 2 20 createRBTree)).

(** [three.find(2)] *)
Definition on_two : @iterator Z Z := find defaultCompare 2 three.

(** A visitor that pushes the keys it is called with and returns
    [undefined]. *)
Definition collect (k v : Z) (acc : list Z) : list Z * bool := (acc ++ [k], false).

(** A store with one node, the root of [createRBTree().insert(2, 20)]. *)
Definition store : @Heap.heap Z Z := [Heap.Cell BLACK 2 20 None None 1].

Definition root : Heap.ptr := Some O.



End Samples.

(** * Proofs about the tree *)

Module RBFacts.

Import RedBlackTree.

Section Facts.
Context {K V : Type}.
Abbreviation tree := (@tree K V).
Abbreviation frame := (@frame K V).
Implicit Types (t n m l r : tree) (stack rest cstack sa sb G : list frame) (f p pp : frame).

Arguments zip : simpl never.

Lemma zip_cons t f stack : zip t (f :: stack) = zip (plug t f) stack.
Proof. reflexivity. Qed.

Lemma zip_app t s1 s2 : zip t (s1 ++ s2) = zip (zip t s1) s2.
Proof. unfold zip. apply fold_left_app. Qed.

Lemma balanced_path_blacks t b : balanced t -> path_blacks t b -> b = bheight t.
Proof.
  intros Hb Hp. induction Hp; simpl in *.
  - reflexivity.
  - destruct Hb as (_ & Hl & _). rewrite (IHHp Hl). reflexivity.
  - destruct Hb as (He & _ & Hr). rewrite (IHHp Hr). lia.
Qed.

Lemma balanced_equal_black_height t : balanced t -> equal_black_height t.
Proof.
  intros Hb a b Ha Hb'.
  rewrite (balanced_path_blacks _ _ Hb Ha), (balanced_path_blacks _ _ Hb Hb'). reflexivity.
Qed.

Lemma is_red_repaint_black t : is_red (repaint BLACK t) = false.
Proof. destruct t; reflexivity. Qed.

Lemma count_repaint c t : count (repaint c t) = count t.
Proof. destruct t; reflexivity. Qed.

Lemma is_red_true t : is_red t = true -> exists k v l r c, t = Node RED k v l r c.
Proof. destruct t as [|[] k v l r c]; simpl; intros; try discriminate. eauto 10. Qed.

Lemma wf_plug t f h cnt rest :
  wf t -> bheight t = h -> count t = cnt ->
  (is_red t = true -> fcolor f = BLACK) ->
  ctx_wf h cnt (f :: rest) ->
  wf (plug t f) /\ bheight (plug t f) = (black (fcolor f) + h)%nat /\
  count (plug t f) = fcount f /\ (is_red (plug t f) = true -> head_black rest).
Proof.
  intros (Hr & Hb & Hc) Hh Hcnt Hred (Hs & Hsh & Hsc & Hsr & Hrest).
  destruct Hs as (Hsr' & Hsb & Hsc').
  destruct f as [d c k v s n]; simpl in *.
  assert (Hg : c = RED -> head_black rest).
  { intros Hc0. destruct (Hsr Hc0) as (_ & Hg). destruct rest; simpl; auto. }
  assert (Ht : c = RED -> is_red t = false).
  { intros ->. destruct (is_red t); auto. discriminate Hred; auto. }
  assert (Hs : c = RED -> is_red s = false) by (intros Hc0; apply Hsr; auto).
  destruct d; unfold plug, wf; simpl;
    (repeat split; auto; try lia; try (intros; destruct c; try discriminate; auto)).
Qed.

Lemma wf_zip stack : forall t h cnt,
  wf t -> bheight t = h -> count t = cnt ->
  (is_red t = true -> head_black stack) ->
  ctx_wf h cnt stack ->
  wf (zip t stack).
Proof.
  induction stack as [|f rest IH]; intros t h cnt Ht Hh Hc Hred Hctx.
  - exact Ht.
  - rewrite zip_cons.
    destruct (wf_plug t f h cnt rest Ht Hh Hc Hred Hctx) as (H1 & H2 & H3 & H4).
    eapply IH; eauto. apply Hctx.
Qed.


Lemma list_ind2 {A} (P : list A -> Prop) :
  P [] -> (forall x, P [x]) -> (forall x y xs, P xs -> P (x :: y :: xs)) -> forall xs, P xs.
Proof.
  intros H0 H1 H2 xs. cut (P xs /\ forall x, P (x :: xs)); [tauto|].
  induction xs as [|a xs [IH1 IH2]]; split; auto.
Qed.

Lemma root_frame_black_cons f g rest :
  root_frame_black (f :: g :: rest) -> root_frame_black (g :: rest).
Proof. unfold root_frame_black. simpl. auto. Qed.

Lemma root_frame_black_cons2 f g rest :
  root_frame_black (f :: g :: rest) -> root_frame_black rest.
Proof.
  unfold root_frame_black. destruct rest as [|h rest]; simpl; auto.
Qed.

Lemma wf_repaint_black t : wf t -> wf (repaint BLACK t).
Proof.
  destruct t; simpl; auto. unfold wf; simpl. intuition discriminate.
Qed.

Lemma bheight_repaint_black t :
  is_red t = true -> bheight (repaint BLACK t) = S (bheight t).
Proof. destruct t as [|[] ? ? ? ? ?]; simpl; intros; try discriminate; reflexivity. Qed.

Lemma rebalance_wf stack : forall n,
  wf n -> is_red n = true -> ctx_wf (bheight n) (count n) stack ->
  root_frame_black stack ->
  wf (rebalance n stack).
Proof.
  induction stack as [|p|p pp rest IH] using list_ind2; intros n Hn Hred Hctx Hroot.
  - exact Hn.
  - simpl. eapply wf_zip; eauto.
  - destruct (is_red_true _ Hred) as (nk & nv & nl & nr & nc & ->).
    destruct p as [dp cp kp vp sp np], pp as [dpp cpp kpp vpp spp npp].
    pose proof (root_frame_black_cons2 _ _ _ Hroot) as Hroot'.
    destruct cp.
    2:{ simpl. eapply (wf_zip (_ :: _ :: _)); eauto. simpl; auto. }
    assert (cpp = BLACK) as -> by (simpl in Hctx; intuition).
    simpl in Hctx. unfold wf in Hctx, Hn. simpl in Hn.
    destruct Hctx as ((Hs1 & Hs2 & Hs3) & Hsh & Hsc & Hsr & (Ht1 & Ht2 & Ht3) & Hth & Htc & _ & Hrest).
    destruct Hn as ((Hn1 & Hn2 & Hn3) & (Hn4 & Hn5 & Hn6) & (Hn7 & Hn8 & Hn9)).
    destruct (Hn1 eq_refl) as (Hnl & Hnr). destruct (Hsr eq_refl) as (Hsp & _).
    clear Hsr Hn1.
    destruct (is_red spp) eqn:Hy.
    + assert (rebalance (Node RED nk nv nl nr nc)
                (Frame dp RED kp vp sp np :: Frame dpp BLACK kpp vpp spp npp :: rest)
              = rebalance (recolor (Node RED nk nv nl nr nc) (Frame dp RED kp vp sp np)
                             (Frame dpp BLACK kpp vpp spp npp)) rest) as ->.
      { simpl. rewrite Hy. destruct dpp, dp; reflexivity. }
      pose proof (bheight_repaint_black _ Hy) as Hbh.
      destruct (is_red_true _ Hy) as (yk & yv & yl & yr & yc & ->).
      simpl in *.
      apply IH; auto.
      * unfold wf, recolor, plug; destruct dpp, dp; simpl;
          repeat split; auto; try lia; try discriminate; intuition.
      * unfold recolor, plug; destruct dpp; reflexivity.
      * replace (bheight _) with (S (bheight nl)).
        2:{ unfold recolor, plug; destruct dpp, dp; simpl; lia. }
        replace (count _) with npp.
        2:{ unfold recolor, plug; destruct dpp; reflexivity. }
        exact Hrest.
    + simpl rebalance. rewrite Hy.
      destruct dpp, dp; simpl in *;
      (eapply wf_zip; [ | reflexivity | reflexivity | discriminate | ];
       [ unfold wf, recounted; simpl; repeat split; auto; try lia; try discriminate; intuition
       | simpl; match goal with |- ctx_wf ?a ?b _ => replace a with (S (bheight nl)) by lia;
                                   replace b with npp by lia end; exact Hrest ]).
Qed.


Lemma root_frame_black_push f stack :
  root_frame_black stack -> (stack = [] -> fcolor f = BLACK) ->
  root_frame_black (f :: stack).
Proof.
  unfold root_frame_black. destruct stack; simpl; auto.
Qed.

Lemma color_not_red c : c <> RED -> c = BLACK.
Proof. destruct c; congruence. Qed.

Lemma is_red_node c k v l r cnt : is_red (Node c k v l r cnt) = true <-> c = RED.
Proof. destruct c; simpl; split; congruence. Qed.

Lemma is_red_node_false c k v l r cnt : is_red (Node c k v l r cnt) = false <-> c = BLACK.
Proof. destruct c; simpl; split; congruence. Qed.

Lemma focus_ok_left c k v l r cnt stack k' v' :
  focus_ok (Node c k v l r cnt) stack ->
  focus_ok l (Frame Left c k' v' r cnt :: stack).
Proof.
  intros ((Hr & Hb & Hc) & Hctx & Hred & Hroot & Hnil). simpl in *.
  unfold focus_ok, wf. simpl.
  repeat split; try tauto; try lia; try discriminate.
  - subst c. specialize (Hred eq_refl). destruct stack; auto.
  - intros Hl. destruct c; auto. destruct Hr as (Hr & _). destruct (Hr eq_refl); congruence.
  - apply root_frame_black_push; auto. intros ->. specialize (Hnil eq_refl).
    destruct c; simpl in *; congruence.
Qed.

Lemma focus_ok_right c k v l r cnt stack k' v' :
  focus_ok (Node c k v l r cnt) stack ->
  focus_ok r (Frame Right c k' v' l cnt :: stack).
Proof.
  intros ((Hr & Hb & Hc) & Hctx & Hred & Hroot & Hnil). simpl in *.
  unfold focus_ok, wf. simpl.
  repeat split; try tauto; try lia; try discriminate.
  - subst c. specialize (Hred eq_refl). destruct stack; auto.
  - replace (bheight r) with (bheight l) by tauto. exact Hctx.
  - intros Hl. destruct c; auto. destruct Hr as (Hr & _). destruct (Hr eq_refl); congruence.
  - apply root_frame_black_push; auto. intros ->. specialize (Hnil eq_refl).
    destruct c; simpl in *; congruence.
Qed.

Lemma focus_ok_root t : wf t -> root_black t -> focus_ok t [].
Proof. unfold focus_ok, root_frame_black; simpl; intuition. Qed.

Lemma focus_ok_rekey c k v l r cnt k' v' stack :
  focus_ok (Node c k v l r cnt) stack -> focus_ok (Node c k' v' l r cnt) stack.
Proof. exact id. Qed.


Lemma root_black_zip stack : forall t,
  root_frame_black stack -> (stack = [] -> is_red t = false) ->
  root_black (zip t stack).
Proof.
  induction stack as [|f rest IH]; intros t Hroot Hnil.
  - apply Hnil; reflexivity.
  - rewrite zip_cons. apply IH.
    + destruct rest; [exact I|]. exact (root_frame_black_cons _ _ _ Hroot).
    + intros ->. unfold root_frame_black in Hroot. simpl in Hroot.
      unfold plug. destruct (fdir f); simpl; rewrite Hroot; reflexivity.
Qed.

Lemma repaint_black_not_red t : is_red t = false -> repaint BLACK t = t.
Proof. destruct t as [|[] ? ? ? ? ?]; simpl; intros; congruence. Qed.

Lemma place_repaint doomed n :
  is_red n = false -> place doomed (repaint BLACK n) = place doomed n.
Proof. intros H. destruct doomed; simpl; auto using repaint_black_not_red. Qed.

Lemma root_frame_black_tail f rest :
  root_frame_black (f :: rest) ->
  root_frame_black rest /\ (rest = [] -> fcolor f = BLACK).
Proof.
  intros H. split.
  - destruct rest; [exact I|]. exact (root_frame_black_cons _ _ _ H).
  - intros ->. exact H.
Qed.

Lemma fix_measure_cons f rest :
  fix_measure (f :: rest) = (size (fsib f) + fix_measure rest)%nat.
Proof. reflexivity. Qed.

Ltac wf_node :=
  unfold wf, recounted; simpl;
  repeat split; auto; try lia; try discriminate; try tauto.

Ltac ctx_rest :=
  simpl;
  match goal with
  | H : ctx_wf ?a' ?b' ?r |- ctx_wf ?a ?b ?r =>
      replace a with a' by (simpl; lia); replace b with b' by (simpl; lia); exact H
  end.

Lemma root_frame_black_split f g1 g2 rest :
  root_frame_black (f :: rest) -> fcolor g2 = fcolor f ->
  root_frame_black (g1 :: g2 :: rest).
Proof.
  unfold root_frame_black. destruct rest; simpl; intros H E; auto. rewrite E; auto.
Qed.

Ltac fix_return Hhead Hpb :=
  split;
  [ eapply wf_zip; [ wf_node | reflexivity | reflexivity | | ctx_rest ];
    simpl; intros Hc; first [ discriminate Hc | apply Hhead ]; clear - Hc;
    repeat match goal with c : color |- _ => destruct c end;
    first [ reflexivity | discriminate ]
  | apply root_black_zip; auto; intros Hnil; simpl; rewrite ?(Hpb Hnil); reflexivity ].

Ltac fix_continue2 :=
  split;
  [ unfold fix_inv; simpl; unfold wf; simpl; repeat split; auto;
    try solve [ simpl in *; discriminate | ctx_rest | simpl in *; lia | tauto
              | simpl in *; congruence ]
  | unfold fix_measure; simpl; lia ].

Ltac fix_continue3 Hroot :=
  split;
  [ unfold fix_inv; simpl; unfold wf; repeat split; auto;
    try solve [ simpl in *; discriminate
              | ctx_rest
              | eapply root_frame_black_split; [ exact Hroot | reflexivity ]
              | simpl in *; lia
              | tauto ]
  | unfold fix_measure; simpl; lia ].

Lemma fix_step_wf doomed n stack :
  fix_inv doomed n stack ->
  match fixDoubleBlack_step doomed n stack with
  | Return t => wf t /\ root_black t
  | Continue d' n' stack' =>
      fix_inv d' n' stack' /\ (fix_measure stack' < fix_measure stack)%nat
  | Fail => False
  end.
Proof.
  intros (Hx & Hxr & Hnr & Hcnt & Hctx & Hroot).
  destruct stack as [|p rest].
  { simpl. rewrite place_repaint by auto. split; auto. }
  unfold fixDoubleBlack_step. rewrite !place_repaint by auto.
  destruct p as [d pc pk pv s pcnt]. simpl in Hctx.
  destruct Hctx as (Hs & Hsh & Hpc & Hpr & Hrest).
  destruct s as [|sc sk sv sl sr scnt]; [discriminate|].
  cbn [fdir fsib fcolor fkey fval fcount].
  destruct (root_frame_black_tail _ _ Hroot) as (Hroot' & Hpb). simpl in Hpb.
  destruct Hs as (Hs1 & Hs2 & Hs3). simpl in Hs1, Hs2, Hs3, Hsh, Hpc.
  destruct Hs1 as (Hsc & Hsl1 & Hsr1). destruct Hs2 as (Hslr & Hsl2 & Hsr2).
  destruct Hs3 as (Hscnt & Hsl3 & Hsr3).
  destruct Hx as (Hx1 & Hx2 & Hx3).
  assert (Hhead : pc = RED -> head_black rest).
  { intros Hc. destruct (Hpr Hc) as (_ & Hg). destruct rest; simpl; auto. }
  destruct d.
  - destruct (is_red sr) eqn:Hrr.
    + destruct (is_red_true _ Hrr) as (zk & zv & zl & zr & zc & ->).
      destruct sc; [destruct (Hsc eq_refl); discriminate|].
      simpl in *. fix_return Hhead Hpb.
    + destruct (is_red sl) eqn:Hrl.
      * destruct (is_red_true _ Hrl) as (zk & zv & zl & zr & zc & ->).
        destruct sc; [destruct (Hsc eq_refl); discriminate|].
        simpl in *. fix_return Hhead Hpb.
      * destruct sc; simpl color_eqb; cbv iota.
        -- assert (pc = BLACK) as ->.
           { destruct pc; auto. destruct (Hpr eq_refl); discriminate. }
           simpl in *. fix_continue3 Hroot.
        -- destruct pc; simpl color_eqb; cbv iota; simpl in *.
           ++ fix_return Hhead Hpb.
           ++ fix_continue2.
  - destruct (is_red sl) eqn:Hrl.
    + destruct (is_red_true _ Hrl) as (zk & zv & zl & zr & zc & ->).
      destruct sc; [destruct (Hsc eq_refl); discriminate|].
      simpl in *. fix_return Hhead Hpb.
    + destruct (is_red sr) eqn:Hrr.
      * destruct (is_red_true _ Hrr) as (zk & zv & zl & zr & zc & ->).
        destruct sc; [destruct (Hsc eq_refl); discriminate|].
        simpl in *. fix_return Hhead Hpb.
      * destruct sc; simpl color_eqb; cbv iota.
        -- assert (pc = BLACK) as ->.
           { destruct pc; auto. destruct (Hpr eq_refl); discriminate. }
           simpl in *. fix_continue3 Hroot.
        -- destruct pc; simpl color_eqb; cbv iota; simpl in *.
           ++ fix_return Hhead Hpb.
           ++ fix_continue2.
Qed.


Lemma fixDoubleBlack_wf fuel : forall doomed n stack,
  fix_inv doomed n stack -> (fix_measure stack < fuel)%nat ->
  exists t, fixDoubleBlack fuel doomed n stack = Ok t /\ wf t /\ root_black t.
Proof.
  induction fuel as [|fuel IH]; intros doomed n stack Hinv Hm; [lia|].
  simpl. pose proof (fix_step_wf doomed n stack Hinv) as Hstep.
  destruct (fixDoubleBlack_step doomed n stack) as [t|d' n' stack'|].
  - exists t. tauto.
  - destruct Hstep as (Hinv' & Hlt). apply IH; auto. lia.
  - contradiction.
Qed.

Lemma ctx_wf_dec stack : forall h cnt,
  ctx_wf h cnt stack -> ctx_wf h (cnt - 1) (dec_counts stack).
Proof.
  induction stack as [|f rest IH]; intros h cnt H; simpl in *; auto.
  destruct H as (H1 & H2 & H3 & H4 & H5).
  split; [exact H1|]. split; [exact H2|]. split; [lia|]. split.
  - intros Hc. destruct (H4 Hc) as (Hs & Hg). split; [exact Hs|].
    destruct rest; simpl; auto.
  - apply IH. exact H5.
Qed.

Lemma root_frame_black_dec stack :
  root_frame_black stack -> root_frame_black (dec_counts stack).
Proof.
  unfold root_frame_black, dec_counts.
  induction stack as [|f [|g rest] IH]; simpl in *; auto.
Qed.

Lemma head_black_dec stack : head_black stack -> head_black (dec_counts stack).
Proof. destruct stack; simpl; auto. Qed.

Lemma fix_measure_dec stack : fix_measure (dec_counts stack) = fix_measure stack.
Proof. unfold fix_measure. induction stack; simpl; auto. Qed.

Lemma bheight_zero_leaf t : bheight t = O -> is_red t = false -> t = Leaf.
Proof. destruct t as [|[] ? ? ? ? ?]; simpl; intros; congruence. Qed.

Lemma walk_right_ok m : forall G,
  is_node m = true ->
  exists qc qk qv ql qcnt G',
    walk_right m G = (Node qc qk qv ql Leaf qcnt, G') /\
    forall S, focus_ok m (G ++ S) -> focus_ok (Node qc qk qv ql Leaf qcnt) (G' ++ S).
Proof.
  induction m as [|c k v l IHl r IHr cnt]; intros G Hn; [discriminate|].
  destruct r as [|rc rk rv rl rr rcnt].
  - simpl. eauto 10.
  - change (walk_right (Node c k v l (Node rc rk rv rl rr rcnt) cnt) G)
      with (walk_right (Node rc rk rv rl rr rcnt) (Frame Right c k v l cnt :: G)).
    destruct (IHr (Frame Right c k v l cnt :: G) eq_refl)
      as (qc & qk & qv & ql & qcnt & G' & Hw & Hf).
    exists qc, qk, qv, ql, qcnt, G'. split; [exact Hw|].
    intros S HS. apply Hf. simpl. apply focus_ok_right with (k := k) (v := v). exact HS.
Qed.

Lemma move_to_leaf_ok n stack :
  is_node n = true -> focus_ok n stack ->
  exists mc mk mv ml mr mcnt cstack,
    move_to_leaf n stack = (Node mc mk mv ml mr mcnt, cstack) /\
    focus_ok (Node mc mk mv ml mr mcnt) cstack /\
    (ml = Leaf \/ mr = Leaf).
Proof.
  intros Hn Hf. destruct n as [|c k v l r cnt]; [discriminate|].
  destruct l as [|lc lk lv ll lr lcnt].
  { simpl. eauto 12. }
  destruct r as [|rc rk rv rl rr rcnt].
  { simpl. eauto 12. }
  unfold move_to_leaf.
  destruct (walk_right_ok (Node lc lk lv ll lr lcnt) [] eq_refl) as
    (qc & qk & qv & ql & qcnt & G' & Hw & Hf').
  rewrite Hw.
  do 7 eexists. split; [reflexivity|]. split; [|auto].
  eapply focus_ok_rekey. apply Hf'. simpl. apply focus_ok_left with (k := k) (v := v). exact Hf.
Qed.


Lemma remove_at_wf n stack :
  is_node n = true -> focus_ok n stack ->
  exists t, remove_at n stack = Ok t /\ wf t /\ root_black t.
Proof.
  intros Hn Hf. unfold remove_at.
  destruct (move_to_leaf_ok n stack Hn Hf)
    as (mc & mk & mv & ml & mr & mcnt & cstack & -> & Hm & Hleaf).
  destruct Hm as ((Hm1 & Hm2 & Hm3) & Hctx & Hred & Hroot & Hnil).
  simpl in Hm1, Hm2, Hm3, Hctx, Hred, Hnil.
  destruct Hm1 as (Hmc & Hl1 & Hr1). destruct Hm2 as (Hlr & Hl2 & Hr2).
  destruct Hm3 as (Hcnt & Hl3 & Hr3).
  destruct mc.
  - (* red leaf *)
    destruct (Hmc eq_refl) as (Hlb & Hrb).
    assert (ml = Leaf /\ mr = Leaf) as (-> & ->).
    { destruct Hleaf as [-> | ->]; split; auto; apply bheight_zero_leaf; auto;
        simpl in Hlr; congruence. }
    destruct cstack as [|p rest]; [specialize (Hnil eq_refl); discriminate|].
    eexists. split; [reflexivity|]. split.
    + eapply wf_zip with (h := O) (cnt := 0);
        [ unfold wf; simpl; auto | reflexivity | reflexivity | discriminate | ].
      simpl in Hcnt. replace 0 with (mcnt - 1) by lia.
      apply ctx_wf_dec. exact Hctx.
    + apply root_black_zip; [apply root_frame_black_dec; exact Hroot | discriminate].
  - destruct (is_node ml || is_node mr) eqn:Hchild.
    + (* single child *)
      assert (exists ck cv, (if is_node ml then ml else mr) = Node RED ck cv Leaf Leaf 1
                            /\ mcnt = 2 /\ bheight ml = O) as (ck & cv & -> & -> & Hml).
      { destruct Hleaf as [-> | ->].
        - destruct mr as [|[] rk rv rl rr rcnt]; simpl in *; try discriminate.
          destruct Hr1 as (Hc & _). destruct (Hc eq_refl).
          assert (rl = Leaf) as -> by (apply bheight_zero_leaf; auto; lia).
          assert (rr = Leaf) as -> by (apply bheight_zero_leaf; auto; lia).
          exists rk, rv. simpl in *. split; [f_equal|split]; lia.
        - destruct ml as [|[] lk lv ll lr lcnt]; simpl in *; try discriminate.
          destruct Hl1 as (Hc & _). destruct (Hc eq_refl).
          assert (ll = Leaf) as -> by (apply bheight_zero_leaf; auto; lia).
          assert (lr = Leaf) as -> by (apply bheight_zero_leaf; auto; lia).
          exists lk, lv. simpl in *. split; [f_equal|split]; lia. }
      eexists. split; [reflexivity|]. split.
      * eapply wf_zip with (h := 1%nat) (cnt := 1);
          [ unfold wf; simpl; intuition discriminate | reflexivity | reflexivity
          | discriminate | ].
        replace 1 with (2 - 1) by lia. apply ctx_wf_dec.
        simpl in Hctx. rewrite Hml in Hctx. exact Hctx.
      * apply root_black_zip; [apply root_frame_black_dec; exact Hroot | reflexivity].
    + apply orb_false_iff in Hchild. destruct Hchild as (Hcl & Hcr).
      destruct ml; [|discriminate]. destruct mr; [|discriminate].
      destruct cstack as [|p rest].
      * exists Leaf. unfold wf; simpl. auto.
      * apply fixDoubleBlack_wf.
        -- unfold fix_inv. split; [unfold wf; simpl; auto|].
           split; [reflexivity|]. split; [reflexivity|].
           split; [simpl; simpl in Hcnt; lia|].
           split; [|apply root_frame_black_dec; exact Hroot].
           simpl place. simpl bheight. simpl count.
           apply ctx_wf_dec. exact Hctx.
        -- rewrite fix_measure_dec. unfold fix_fuel, fix_measure. lia.
Qed.

Lemma find_loop_ok cmp key : forall n stack m stack',
  focus_ok n stack -> find_loop cmp key n stack = Some (m, stack') ->
  is_node m = true /\ focus_ok m stack'.
Proof.
  induction n as [|c k v l IHl r IHr cnt]; intros stack m stack' Hf Hfind; [discriminate|].
  simpl in Hfind.
  destruct (cmp key k =? 0).
  - inversion Hfind; subst. auto.
  - destruct (cmp key k <=? 0).
    + eapply IHl; [|exact Hfind]. apply focus_ok_left with (k := k) (v := v). exact Hf.
    + eapply IHr; [|exact Hfind]. apply focus_ok_right with (k := k) (v := v). exact Hf.
Qed.

Theorem remove_wf cmp key t :
  wf t -> root_black t ->
  exists t', remove cmp key t = Ok t' /\ wf t' /\ root_black t'.
Proof.
  intros Hw Hb. unfold remove, iterator_remove.
  destruct (find cmp key t) as [[m stack]|] eqn:Hfind.
  - destruct (find_loop_ok cmp key t [] m stack (focus_ok_root t Hw Hb) Hfind) as (Hm & Hf).
    apply remove_at_wf; auto.
  - exists t. auto.
Qed.

Lemma insert_path_app cmp key : forall n stack,
  insert_path cmp key n stack = insert_path cmp key n [] ++ stack.
Proof.
  induction n as [|c k v l IHl r IHr cnt]; intros stack; simpl; auto.
  destruct (cmp key k <=? 0).
  - rewrite IHl, (IHl [_]), <- app_assoc. reflexivity.
  - rewrite IHr, (IHr [_]), <- app_assoc. reflexivity.
Qed.

Lemma insert_path_wf cmp key : forall n stack,
  wf n -> (is_red n = true -> head_black stack) ->
  root_frame_black stack -> (stack = [] -> is_red n = false) ->
  ctx_wf (bheight n) (count n + 1) stack ->
  ctx_wf 0 1 (insert_path cmp key n stack) /\
  root_frame_black (insert_path cmp key n stack).
Proof.
  induction n as [|c k v l IHl r IHr cnt]; intros stack Hw Hred Hroot Hnil Hctx.
  - simpl in *. auto.
  - destruct Hw as ((Hc & Hl1 & Hr1) & (Hlr & Hl2 & Hr2) & (Hcnt & Hl3 & Hr3)).
    simpl in Hred, Hnil, Hctx. simpl.
    assert (Hroot' : forall d s, root_frame_black (Frame d c k v s (cnt + 1) :: stack)).
    { intros d s. apply root_frame_black_push; auto. intros E. specialize (Hnil E).
      simpl. destruct c; congruence. }
    assert (Hhb : c = RED -> match stack with [] => True | g :: _ => fcolor g = BLACK end).
    { intros ->. specialize (Hred eq_refl). destruct stack; auto. }
    destruct (cmp key k <=? 0).
    + apply IHl; unfold wf; auto; try discriminate.
      * intros Hlred. simpl. destruct c; auto. destruct (Hc eq_refl); congruence.
      * simpl. split; [unfold wf; auto|]. split; [lia|]. split; [lia|].
        split; [|exact Hctx].
        intros E. split; [apply (Hc E)|apply Hhb; exact E].
    + apply IHr; unfold wf; auto; try discriminate.
      * intros Hrred. simpl. destruct c; auto. destruct (Hc eq_refl); congruence.
      * simpl. split; [unfold wf; auto|]. split; [lia|]. split; [lia|].
        split; [|rewrite <- Hlr; exact Hctx].
        intros E. split; [apply (Hc E)|apply Hhb; exact E].
Qed.

Theorem insert_wf cmp key value t :
  wf t -> root_black t ->
  wf (insert cmp key value t) /\ root_black (insert cmp key value t).
Proof.
  intros Hw Hb. unfold insert. split; [|apply is_red_repaint_black].
  apply wf_repaint_black.
  destruct (insert_path_wf cmp key t [] Hw) as (Hctx & Hroot); auto.
  - simpl; auto.
  - exact I.
  - exact I.
  - apply rebalance_wf; auto. unfold wf; simpl. intuition.
Qed.

(** ** In-order contents *)

Lemma inorder_repaint c t : inorder (repaint c t) = inorder t.
Proof. destruct t; reflexivity. Qed.

Lemma inorder_zip stack : forall t,
  inorder (zip t stack) = ctx_before stack ++ inorder t ++ ctx_after stack.
Proof.
  induction stack as [|f rest IH]; intros t.
  - simpl. rewrite app_nil_r. reflexivity.
  - rewrite zip_cons, IH. unfold plug. simpl.
    destruct (fdir f); simpl; rewrite <- ?app_assoc; simpl; rewrite <- ?app_assoc; reflexivity.
Qed.

Lemma ctx_before_app sa sb : ctx_before (sa ++ sb) = ctx_before sb ++ ctx_before sa.
Proof.
  induction sa as [|f sa IH]; simpl.
  - rewrite app_nil_r. reflexivity.
  - destruct (fdir f); rewrite IH, <- ?app_assoc; reflexivity.
Qed.

Lemma ctx_after_app sa sb : ctx_after (sa ++ sb) = ctx_after sa ++ ctx_after sb.
Proof.
  induction sa as [|f sa IH]; simpl; auto.
  destruct (fdir f); rewrite IH; simpl; rewrite <- ?app_assoc; reflexivity.
Qed.

Lemma ctx_before_dec stack : ctx_before (dec_counts stack) = ctx_before stack.
Proof. induction stack as [|f rest IH]; simpl; auto. destruct (fdir f); rewrite IH; reflexivity. Qed.

Lemma ctx_after_dec stack : ctx_after (dec_counts stack) = ctx_after stack.
Proof. induction stack as [|f rest IH]; simpl; auto. destruct (fdir f); rewrite IH; reflexivity. Qed.

Ltac list_eq :=
  repeat (first [rewrite <- app_assoc | rewrite app_nil_r | progress simpl]); try reflexivity.

Lemma inorder_rebalance stack : forall n,
  inorder (rebalance n stack) = ctx_before stack ++ inorder n ++ ctx_after stack.
Proof.
  induction stack as [|p|p pp rest IH] using list_ind2; intros n.
  - apply inorder_zip.
  - apply (inorder_zip [p]).
  - destruct n as [|nc nk nv nl nr ncnt]; [apply (inorder_zip (_ :: _ :: _))|].
    destruct p as [dp cp kp vp sp np], pp as [dpp cpp kpp vpp spp npp].
    simpl rebalance.
    destruct (color_eqb cp BLACK || color_eqb nc BLACK);
      [apply (inorder_zip (_ :: _ :: _))|].
    destruct dpp, dp; destruct (is_red spp);
      rewrite ?IH, ?inorder_zip; unfold recolor, plug, recounted; simpl;
      rewrite ?inorder_repaint; list_eq.
Qed.


Lemma inorder_insert_path cmp key : forall n stack,
  ctx_before (insert_path cmp key n stack) ++ ctx_after (insert_path cmp key n stack)
  = ctx_before stack ++ inorder n ++ ctx_after stack.
Proof.
  induction n as [|c k v l IHl r IHr cnt]; intros stack; simpl; auto.
  destruct (cmp key k <=? 0); [rewrite IHl | rewrite IHr]; list_eq.
Qed.

(** [insert] adds the entry and keeps every other one, in order. *)
Lemma inorder_insert cmp key value t :
  exists before after,
    inorder t = before ++ after /\
    inorder (insert cmp key value t) = before ++ (key, value) :: after.
Proof.
  exists (ctx_before (insert_path cmp key t [])), (ctx_after (insert_path cmp key t [])).
  split.
  - rewrite inorder_insert_path. list_eq.
  - unfold insert. rewrite inorder_repaint, inorder_rebalance. reflexivity.
Qed.

Lemma inorder_place_repaint doomed n :
  inorder (place doomed (repaint BLACK n)) = inorder (place doomed n).
Proof. destruct doomed; simpl; auto using inorder_repaint. Qed.

Lemma fix_step_inorder doomed n stack :
  match fixDoubleBlack_step doomed n stack with
  | Return t => inorder t = ctx_before stack ++ inorder (place doomed n) ++ ctx_after stack
  | Continue d' n' stack' =>
      ctx_before stack' ++ inorder (place d' n') ++ ctx_after stack'
      = ctx_before stack ++ inorder (place doomed n) ++ ctx_after stack
  | Fail => True
  end.
Proof.
  destruct stack as [|p rest].
  { simpl. rewrite inorder_place_repaint. list_eq. }
  destruct p as [d pc pk pv s pcnt]. unfold fixDoubleBlack_step.
  cbn [fdir fsib fcolor fkey fval fcount].
  destruct d; destruct s as [|sc sk sv sl sr scnt]; auto.
  - destruct (is_red sr) eqn:Hrr; [|destruct (is_red sl) eqn:Hrl].
    + rewrite inorder_zip. unfold recounted. simpl.
      rewrite inorder_place_repaint, inorder_repaint. list_eq.
    + destruct sl as [|zc zk zv zl zr zcnt]; auto.
      rewrite inorder_zip. unfold recounted. simpl.
      rewrite inorder_place_repaint. list_eq.
    + destruct (color_eqb sc BLACK); [destruct (color_eqb pc RED)|];
        rewrite ?inorder_zip; simpl; list_eq.
  - destruct (is_red sl) eqn:Hrl; [|destruct (is_red sr) eqn:Hrr].
    + rewrite inorder_zip. unfold recounted. simpl.
      rewrite inorder_place_repaint, inorder_repaint. list_eq.
    + destruct sr as [|zc zk zv zl zr zcnt]; auto.
      rewrite inorder_zip. unfold recounted. simpl.
      rewrite inorder_place_repaint. list_eq.
    + destruct (color_eqb sc BLACK); [destruct (color_eqb pc RED)|];
        rewrite ?inorder_zip; simpl; list_eq.
Qed.

Lemma fixDoubleBlack_inorder fuel : forall doomed n stack t,
  fixDoubleBlack fuel doomed n stack = Ok t ->
  inorder t = ctx_before stack ++ inorder (place doomed n) ++ ctx_after stack.
Proof.
  induction fuel as [|fuel IH]; intros doomed n stack t H; [discriminate|].
  simpl in H. pose proof (fix_step_inorder doomed n stack) as Hs.
  destruct (fixDoubleBlack_step doomed n stack) as [t'|d' n' stack'|]; try discriminate.
  - inversion H; subst. exact Hs.
  - rewrite (IH _ _ _ _ H). exact Hs.
Qed.


Lemma walk_right_inorder m : forall G q G',
  walk_right m G = (q, G') ->
  ctx_before G' ++ inorder q = ctx_before G ++ inorder m /\ ctx_after G' = ctx_after G.
Proof.
  induction m as [|c k v l IHl r IHr cnt]; intros G q G' H.
  - inversion H; subst. auto.
  - destruct r as [|rc rk rv rl rr rcnt].
    + inversion H; subst. auto.
    + change (walk_right (Node c k v l (Node rc rk rv rl rr rcnt) cnt) G)
        with (walk_right (Node rc rk rv rl rr rcnt) (Frame Right c k v l cnt :: G)) in H.
      destruct (IHr _ _ _ H) as (H1 & H2). rewrite H1, H2. split; list_eq.
Qed.

Lemma move_to_leaf_inorder c k v l r cnt stack mc mk mv ml mr mcnt cstack :
  move_to_leaf (Node c k v l r cnt) stack = (Node mc mk mv ml mr mcnt, cstack) ->
  mk = k /\ mv = v /\
  ctx_before cstack ++ inorder ml ++ inorder mr ++ ctx_after cstack
  = ctx_before stack ++ inorder l ++ inorder r ++ ctx_after stack.
Proof.
  intros H. unfold move_to_leaf in H.
  destruct l as [|lc lk lv ll lr lcnt]; [inversion H; subst; auto|].
  destruct r as [|rc rk rv rl rr rcnt]; [inversion H; subst; auto|].
  destruct (walk_right (Node lc lk lv ll lr lcnt) []) as [q G'] eqn:Hw.
  destruct (walk_right_ok (Node lc lk lv ll lr lcnt) [] eq_refl)
    as (qc & qk & qv & ql & qcnt & G'' & Hw' & _).
  rewrite Hw in Hw'. inversion Hw'; subst. inversion H; subst.
  destruct (walk_right_inorder _ _ _ _ Hw) as (H1 & H2).
  split; [reflexivity|]. split; [reflexivity|].
  remember (Node lc lk lv ll lr lcnt) as lt. remember (Node rc rk rv rl rr rcnt) as rt.
  rewrite ctx_before_app, ctx_after_app, H2. simpl in H1. simpl.
  rewrite <- H1. list_eq.
Qed.

Lemma red_leaf c k v l r cnt stack :
  focus_ok (Node c k v l r cnt) stack -> c = RED -> l = Leaf \/ r = Leaf ->
  l = Leaf /\ r = Leaf.
Proof.
  intros ((Hr & Hb & _) & _) -> Hleaf. simpl in Hr, Hb.
  destruct Hr as (Hc & _). destruct (Hc eq_refl) as (Hl & Hr').
  destruct Hb as (Hlr & _).
  destruct Hleaf as [-> | ->]; split; auto; apply bheight_zero_leaf; auto;
    simpl in Hlr; congruence.
Qed.

Lemma remove_at_inorder c k v l r cnt stack t :
  focus_ok (Node c k v l r cnt) stack ->
  remove_at (Node c k v l r cnt) stack = Ok t ->
  inorder t = ctx_before stack ++ inorder l ++ inorder r ++ ctx_after stack.
Proof.
  intros Hf H. unfold remove_at in H.
  destruct (move_to_leaf_ok (Node c k v l r cnt) stack eq_refl Hf)
    as (mc & mk & mv & ml & mr & mcnt & cstack & Hm & Hfm & Hleaf).
  rewrite Hm in H.
  destruct (move_to_leaf_inorder _ _ _ _ _ _ _ _ _ _ _ _ _ _ Hm) as (-> & -> & <-).
  destruct mc.
  - destruct (red_leaf _ _ _ _ _ _ _ Hfm eq_refl Hleaf) as (-> & ->).
    destruct cstack as [|f0 cs]; [discriminate|]. inversion H; subst.
    change (dec_count f0 :: dec_counts cs) with (dec_counts (f0 :: cs)).
    rewrite inorder_zip, ctx_before_dec, ctx_after_dec. reflexivity.
  - destruct (is_node ml || is_node mr) eqn:Hchild.
    + inversion H; subst.
      rewrite inorder_zip, ctx_before_dec, ctx_after_dec, inorder_repaint.
      destruct Hleaf as [-> | ->]; simpl.
      * reflexivity.
      * destruct ml; simpl; rewrite ?app_nil_r; reflexivity.
    + apply orb_false_iff in Hchild. destruct Hchild as (Hcl & Hcr).
      destruct ml; [|discriminate]. destruct mr; [|discriminate].
      destruct cstack as [|p rest].
      * inversion H; subst. reflexivity.
      * apply fixDoubleBlack_inorder in H.
        rewrite H, ctx_before_dec, ctx_after_dec. reflexivity.
Qed.

Lemma find_loop_inorder cmp key : forall n stack c k v l r cnt stack',
  find_loop cmp key n stack = Some (Node c k v l r cnt, stack') ->
  cmp key k = 0 /\
  ctx_before stack' ++ inorder l ++ (k, v) :: inorder r ++ ctx_after stack'
  = ctx_before stack ++ inorder n ++ ctx_after stack.
Proof.
  induction n as [|c0 k0 v0 l0 IHl r0 IHr cnt0]; intros stack c k v l r cnt stack' H;
    [discriminate|].
  simpl in H. destruct (cmp key k0 =? 0) eqn:E.
  - inversion H; subst. split; [lia|]. list_eq.
  - destruct (cmp key k0 <=? 0).
    + destruct (IHl _ _ _ _ _ _ _ _ H) as (H1 & H2). split; auto. rewrite H2. list_eq.
    + destruct (IHr _ _ _ _ _ _ _ _ H) as (H1 & H2). split; auto. rewrite H2. list_eq.
Qed.

(** [remove] takes out one entry whose key compares equal to [key], the
    one [find] reaches, and keeps every other entry in order; without such
    an entry it returns the tree itself. *)
Lemma remove_inorder cmp key t t' :
  wf t -> root_black t -> remove cmp key t = Ok t' ->
  (find cmp key t = None /\ t' = t) \/
  exists before k v after,
    cmp key k = 0 /\ inorder t = before ++ (k, v) :: after /\
    inorder t' = before ++ after.
Proof.
  intros Hw Hb H. unfold remove, iterator_remove in H.
  destruct (find cmp key t) as [[m stack]|] eqn:Hfind.
  - right. destruct (find_loop_ok cmp key t [] m stack (focus_ok_root t Hw Hb) Hfind)
      as (Hm & Hf).
    destruct m as [|c k v l r cnt]; [discriminate|].
    destruct (find_loop_inorder _ _ _ _ _ _ _ _ _ _ _ Hfind) as (Hk & Hin).
    apply remove_at_inorder in H; auto.
    exists (ctx_before stack ++ inorder l), k, v, (inorder r ++ ctx_after stack).
    split; [exact Hk|]. split.
    + simpl in Hin. rewrite app_nil_r in Hin. rewrite <- Hin. list_eq.
    + rewrite H. list_eq.
  - left. inversion H; auto.
Qed.

Lemma iterator_at_ok path : forall n stack m stack',
  focus_ok n stack -> iterator_at path n stack = Some (m, stack') ->
  is_node m = true /\ focus_ok m stack' /\
  ctx_before stack' ++ inorder m ++ ctx_after stack'
  = ctx_before stack ++ inorder n ++ ctx_after stack.
Proof.
  induction path as [|d path IH]; intros n stack m stack' Hf H;
    destruct n as [|c k v l r cnt]; try discriminate.
  - inversion H; subst. auto.
  - simpl in H. destruct d.
    + destruct (IH _ _ _ _ (focus_ok_left c k v l r cnt stack k v Hf) H) as (H1 & H2 & H3).
      split; [exact H1|]. split; [exact H2|]. rewrite H3. list_eq.
    + destruct (IH _ _ _ _ (focus_ok_right c k v l r cnt stack k v Hf) H) as (H1 & H2 & H3).
      split; [exact H1|]. split; [exact H2|]. rewrite H3. list_eq.
Qed.

(** Removal through an iterator: the result exists, keeps the invariants
    and has the entries of the tree but the one under the iterator. *)
Lemma iterator_remove_at_spec path t :
  wf t -> root_black t ->
  exists t', iterator_remove t (iterator_at path t []) = Ok t' /\ wf t' /\ root_black t' /\
    (t' = t \/
     exists before e after, inorder t = before ++ e :: after /\ inorder t' = before ++ after).
Proof.
  intros Hw Hb. unfold iterator_remove.
  destruct (iterator_at path t []) as [[m stack]|] eqn:Hit.
  - destruct (iterator_at_ok path t [] m stack (focus_ok_root t Hw Hb) Hit) as (Hm & Hf & Hin).
    destruct (remove_at_wf m stack Hm Hf) as (t' & Hr & Hw' & Hb').
    exists t'. split; [exact Hr|]. split; [exact Hw'|]. split; [exact Hb'|]. right.
    destruct m as [|c k v l r cnt]; [discriminate|].
    exists (ctx_before stack ++ inorder l), (k, v), (inorder r ++ ctx_after stack).
    split.
    + simpl in Hin. rewrite app_nil_r in Hin. rewrite <- Hin. list_eq.
    + rewrite (remove_at_inorder _ _ _ _ _ _ _ _ Hf Hr). list_eq.
  - exists t. auto.
Qed.

(** ** Counts *)

Lemma counted_zip stack : forall t,
  counted t -> ctx_counted (count t) stack ->
  counted (zip t stack) /\ count (zip t stack) = top_count (count t) stack.
Proof.
  induction stack as [|f rest IH]; intros t Ht Hctx.
  - auto.
  - rewrite zip_cons. destruct Hctx as (H1 & H2 & H3).
    assert (Hp : counted (plug t f) /\ count (plug t f) = fcount f).
    { unfold plug. destruct (fdir f); simpl; repeat split; auto; lia. }
    destruct Hp as (Hp1 & Hp2).
    destruct (IH (plug t f) Hp1) as (Ha & Hb).
    + rewrite Hp2. exact H3.
    + split; auto. rewrite Hb, Hp2. reflexivity.
Qed.

Lemma rebalance_counted stack : forall n,
  counted n -> ctx_counted (count n) stack ->
  counted (rebalance n stack) /\ count (rebalance n stack) = top_count (count n) stack.
Proof.
  induction stack as [|p|p pp rest IH] using list_ind2; intros n Hn Hctx.
  - auto.
  - apply (counted_zip [p]); auto.
  - destruct n as [|nc nk nv nl nr ncnt]; [apply (counted_zip (_ :: _ :: _)); auto|].
    destruct p as [dp cp kp vp sp np], pp as [dpp cpp kpp vpp spp npp].
    simpl rebalance.
    destruct (color_eqb cp BLACK || color_eqb nc BLACK);
      [apply (counted_zip (_ :: _ :: _)); auto|].
    simpl in Hctx, Hn.
    destruct Hctx as (Hs1 & Hs2 & Ht1 & Ht2 & Hrest).
    destruct Hn as (Hn1 & Hn2 & Hn3).
    assert (Hrec : counted (recolor (Node nc nk nv nl nr ncnt) (Frame dp cp kp vp sp np)
                              (Frame dpp cpp kpp vpp spp npp)) /\
                   count (recolor (Node nc nk nv nl nr ncnt) (Frame dp cp kp vp sp np)
                            (Frame dpp cpp kpp vpp spp npp)) = npp).
    { unfold recolor, plug. destruct dpp, dp; simpl; rewrite ?count_repaint;
        destruct spp; simpl in *; repeat split; auto; try lia; tauto. }
    destruct Hrec as (Hrec1 & Hrec2).
    destruct dpp, dp; destruct (is_red spp);
      try (destruct (IH _ Hrec1) as (Ha & Hb); [rewrite Hrec2; exact Hrest|];
           split; [exact Ha|rewrite Hb, Hrec2; reflexivity]);
      (match goal with
       | |- counted (zip ?x rest) /\ _ =>
           assert (Hx : counted x /\ count x = npp)
             by (unfold recounted; simpl; repeat split; auto; lia);
           destruct Hx as (Hx1 & Hx2);
           destruct (counted_zip rest x Hx1) as (Ha & Hb);
           [rewrite Hx2; exact Hrest|];
           split; [exact Ha|rewrite Hb, Hx2; reflexivity]
       end).
Qed.

Lemma insert_path_counted cmp key : forall n stack,
  counted n -> ctx_counted (count n + 1) stack ->
  ctx_counted 1 (insert_path cmp key n stack) /\
  top_count 1 (insert_path cmp key n stack) = top_count (count n + 1) stack.
Proof.
  induction n as [|c k v l IHl r IHr cnt]; intros stack Hn Hctx.
  - simpl in *. auto.
  - destruct Hn as (Hcnt & Hl & Hr). simpl in Hctx. simpl.
    destruct (cmp key k <=? 0).
    + destruct (IHl (Frame Left c k v r (cnt + 1) :: stack) Hl) as (Ha & Hb).
      * simpl. repeat split; auto; lia.
      * split; auto.
    + destruct (IHr (Frame Right c k v l (cnt + 1) :: stack) Hr) as (Ha & Hb).
      * simpl. repeat split; auto; lia.
      * split; auto.
Qed.

(** [insert] keeps the counts consistent and adds one to the count of the
    root, whatever the colours of the tree. *)
Lemma insert_counted cmp key value t :
  counted t ->
  counted (insert cmp key value t) /\ count (insert cmp key value t) = count t + 1.
Proof.
  intros Ht. unfold insert.
  destruct (insert_path_counted cmp key t [] Ht I) as (Ha & Hb).
  destruct (rebalance_counted (insert_path cmp key t []) (Node RED key value Leaf Leaf 1))
    as (Hc & Hd); simpl; auto.
  rewrite count_repaint. simpl in Hd. rewrite Hd, Hb. simpl. split; auto.
  destruct (rebalance _ _); simpl in *; auto.
Qed.

(** ** Rank and index *)

Lemma counted_size t : counted t -> count t = Z.of_nat (List.length (inorder t)).
Proof.
  induction t as [|c k v l IHl r IHr cnt]; simpl; auto.
  intros (Hc & Hl & Hr). rewrite length_app. simpl. rewrite Hc, IHl, IHr by auto. lia.
Qed.

Lemma doVisitFull_keys t : forall acc,
  doVisitFull (fun (k : K) (_ : V) (acc : list K) => (acc ++ [k], false)) t acc
  = (acc ++ map fst (inorder t), false).
Proof.
  induction t as [|c k v l IHl r IHr cnt]; intros acc; simpl.
  - rewrite app_nil_r. reflexivity.
  - rewrite IHl, IHr, map_app. simpl. rewrite <- !app_assoc. reflexivity.
Qed.

Lemma keys_inorder t : keys t = map fst (inorder t).
Proof. unfold keys, forEach. rewrite doVisitFull_keys. reflexivity. Qed.

Lemma fold_rank stack : forall a,
  fold_left rank_step stack a = a + fold_left rank_step stack 0.
Proof.
  induction stack as [|f rest IH]; intros a; simpl; [lia|].
  rewrite IH, (IH (rank_step 0 f)). unfold rank_step. destruct (fdir f); lia.
Qed.

Lemma at_loop_ok n : forall idx stack,
  counted n -> 0 <= idx < count n ->
  exists c k v l r cnt stack',
    at_loop n idx stack = Ok (Some (Node c k v l r cnt, stack')) /\
    fold_left rank_step stack' (count l) = idx + fold_left rank_step stack 0 /\
    inorder n !! Z.to_nat idx = Some (k, v).
Proof.
  induction n as [|c k v l IHl r IHr cnt]; intros idx stack Hc Hidx; [simpl in Hidx; lia|].
  destruct Hc as (Hcnt & Hl & Hr). simpl in Hidx.
  pose proof (counted_size l Hl) as Hsl. pose proof (counted_size r Hr) as Hsr.
  simpl at_loop.
  destruct (is_node l && (idx <? count l)) eqn:Hgo.
  - apply andb_true_iff in Hgo. destruct Hgo as (_ & Hlt). apply Z.ltb_lt in Hlt.
    destruct (IHl idx (Frame Left c k v r cnt :: stack) Hl) as
      (c' & k' & v' & l' & r' & cnt' & stack' & Ha & Hb & Hd); [lia|].
    exists c', k', v', l', r', cnt', stack'. split; [exact Ha|]. split.
    + rewrite Hb. reflexivity.
    + simpl. rewrite lookup_app_l by lia. exact Hd.
  - assert (Hge : count l <= idx).
    { destruct l; simpl in *; [lia|]. apply Z.ltb_ge in Hgo. exact Hgo. }
    assert (Hidx' : (if is_node l then idx - count l else idx) = idx - count l).
    { destruct l; simpl; lia. }
    rewrite Hidx'.
    destruct (idx - count l =? 0) eqn:Hz.
    + apply Z.eqb_eq in Hz.
      exists c, k, v, l, r, cnt, stack. split; [reflexivity|]. split.
      * rewrite fold_rank. lia.
      * simpl. rewrite lookup_app_r by lia.
        replace (Z.to_nat idx - List.length (inorder l))%nat with O by lia. reflexivity.
    + apply Z.eqb_neq in Hz.
      destruct r as [|rc rk rv rl rr rcnt]; [simpl in *; lia|].
      destruct (idx - count l - 1 >=? rcnt) eqn:Hov.
      { simpl in Hcnt. apply Z.geb_le in Hov. lia. }
      destruct (IHr (idx - count l - 1) (Frame Right c k v l cnt :: stack) Hr) as
        (c' & k' & v' & l' & r' & cnt' & stack' & Ha & Hb & Hd); [simpl in *; lia|].
      exists c', k', v', l', r', cnt', stack'. split; [exact Ha|]. split.
      * rewrite Hb. simpl. rewrite (fold_rank _ (rank_step 0 _)). unfold rank_step. simpl. lia.
      * simpl inorder. rewrite lookup_app_r by lia.
        replace (Z.to_nat idx - List.length (inorder l))%nat
          with (S (Z.to_nat (idx - count l - 1))) by lia.
        exact Hd.
Qed.

Lemma at_loop_overflow n : forall idx stack,
  counted n -> is_node n = true -> count n <= idx ->
  at_loop n idx stack = Ok None.
Proof.
  induction n as [|c k v l IHl r IHr cnt]; intros idx stack Hc Hn Hidx; [discriminate|].
  destruct Hc as (Hcnt & Hl & Hr). simpl in Hidx.
  pose proof (counted_size l Hl) as Hsl. pose proof (counted_size r Hr) as Hsr.
  simpl at_loop.
  destruct (is_node l && (idx <? count l)) eqn:Hgo.
  { apply andb_true_iff in Hgo. destruct Hgo as (_ & Hlt). apply Z.ltb_lt in Hlt. lia. }
  assert (Hidx' : (if is_node l then idx - count l else idx) = idx - count l).
  { destruct l; simpl; lia. }
  rewrite Hidx'.
  destruct (idx - count l =? 0) eqn:Hz; [apply Z.eqb_eq in Hz; lia|].
  destruct r as [|rc rk rv rl rr rcnt]; [reflexivity|].
  destruct (idx - count l - 1 >=? rcnt) eqn:Hov; [reflexivity|].
  rewrite Z.geb_leb in Hov. apply Z.leb_gt in Hov. simpl in Hcnt. lia.
Qed.

End Facts.

(** ** Ascending order *)

Section Ordered.
Context {K V : Type}.
Abbreviation tree := (@tree K V).
Abbreviation frame := (@frame K V).
Implicit Types (t n m l r : tree) (stack rest cstack sa sb G : list frame) (f p pp : frame).
Variable cmp : K -> K -> Z.
Hypothesis Hcmp : comparator cmp.

Lemma cmp_flip x y : cmp x y > 0 -> cmp y x <= 0.
Proof. destruct Hcmp as (Hs & _). specialize (Hs x y). lia. Qed.

Lemma cmp_eq_flip x y : cmp x y = 0 -> cmp y x <= 0.
Proof. destruct Hcmp as (Hs & _). specialize (Hs x y). lia. Qed.

Lemma cmp_lt_flip x y : cmp x y < 0 -> cmp y x > 0.
Proof. destruct Hcmp as (Hs & _). specialize (Hs x y). lia. Qed.

Lemma key_le_trans (a b c : K * V) : key_le cmp a b -> key_le cmp b c -> key_le cmp a c.
Proof. unfold key_le. destruct Hcmp as (_ & Ht). apply Ht. Qed.

Lemma inorder_insert_ctx key value t :
  inorder t = ctx_before (insert_path cmp key t []) ++ ctx_after (insert_path cmp key t [])
  /\ inorder (insert cmp key value t)
     = ctx_before (insert_path cmp key t []) ++ (key, value) :: ctx_after (insert_path cmp key t []).
Proof.
  split.
  - rewrite inorder_insert_path. simpl. rewrite app_nil_r. reflexivity.
  - unfold insert. rewrite inorder_repaint, inorder_rebalance. reflexivity.
Qed.

Lemma insert_path_bounds key : forall n stack,
  StronglySorted (key_le cmp) (inorder n) ->
  Forall (fun e => cmp (fst e) key <= 0) (ctx_before stack) ->
  Forall (fun e => cmp key (fst e) <= 0) (ctx_after stack) ->
  Forall (fun e => cmp (fst e) key <= 0) (ctx_before (insert_path cmp key n stack)) /\
  Forall (fun e => cmp key (fst e) <= 0) (ctx_after (insert_path cmp key n stack)).
Proof.
  destruct Hcmp as (_ & Htrans).
  induction n as [|c k v l IHl r IHr cnt]; intros stack Hs Hb Ha; simpl; auto.
  simpl in Hs. apply StronglySorted_app in Hs. destruct Hs as (Hlr & Hl & Hr).
  apply StronglySorted_cons in Hr. destruct Hr as (Hkr & Hr).
  destruct (cmp key k <=? 0) eqn:E.
  - apply Z.leb_le in E. apply IHl; auto. simpl.
    constructor; [exact E|]. apply Forall_app. split; auto.
    eapply Forall_impl; [exact Hkr|]. intros e He. simpl.
    eapply Htrans; [exact E|exact He].
  - apply Z.leb_gt in E. apply IHr; auto. simpl.
    apply Forall_app. split; auto. apply Forall_app. split.
    + apply Forall_forall. intros e He. apply (Htrans _ k); [|apply cmp_flip; lia].
      apply (Hlr e (k, v)); auto. left.
    + constructor; [|constructor]. simpl. apply cmp_flip. lia.
Qed.

Lemma insert_ordered key value t : ordered cmp t -> ordered cmp (insert cmp key value t).
Proof.
  unfold ordered. intros Ho.
  destruct (inorder_insert_ctx key value t) as (H1 & H2). rewrite H2.
  destruct (insert_path_bounds key t []) as (Hb & Ha); auto.
  rewrite H1 in Ho. apply StronglySorted_app in Ho. destruct Ho as (Hba & Hsb & Hsa).
  apply StronglySorted_app. split; [|split; auto].
  - intros x1 x2 Hx1 Hx2. apply elem_of_cons in Hx2. destruct Hx2 as [-> | Hx2].
    + rewrite Forall_forall in Hb. apply Hb; auto.
    + apply Hba; auto.
  - apply StronglySorted_cons. split; auto.
Qed.

Lemma remove_ordered key t t' :
  wf t -> root_black t -> ordered cmp t -> remove cmp key t = Ok t' -> ordered cmp t'.
Proof.
  unfold ordered. intros Hw Hb Ho H.
  destruct (remove_inorder cmp key t t' Hw Hb H) as [(_ & ->) | (B & k & v & A & _ & H1 & H2)];
    auto.
  rewrite H2. rewrite H1 in Ho.
  apply StronglySorted_app in Ho. destruct Ho as (Hba & Hsb & Hsa).
  apply StronglySorted_cons in Hsa. destruct Hsa as (_ & Hsa).
  apply StronglySorted_app. repeat split; auto.
  intros x1 x2 Hx1 Hx2. apply Hba; auto. right. exact Hx2.
Qed.

(** [get] finds an entry whenever one with an equal key is stored. *)
Lemma get_complete key : forall t e,
  ordered cmp t -> e ∈ inorder t -> cmp key (fst e) = 0 ->
  exists v, get cmp key t = Some v.
Proof.
  destruct Hcmp as (_ & Htrans).
  induction t as [|c k v l IHl r IHr cnt]; intros e Ho He Hk.
  - inversion He.
  - unfold ordered in Ho. simpl in Ho, He. simpl.
    apply StronglySorted_app in Ho. destruct Ho as (Hlr & Hl & Hr).
    apply StronglySorted_cons in Hr. destruct Hr as (Hkr & Hr).
    destruct (cmp key k =? 0) eqn:E0; [eauto|].
    apply Z.eqb_neq in E0.
    apply elem_of_app in He.
    destruct (cmp key k <=? 0) eqn:E.
    + apply Z.leb_le in E. destruct He as [He | He]; [eapply IHl; eauto|].
      exfalso. apply elem_of_cons in He. destruct He as [-> | He]; [simpl in Hk; lia|].
      assert (Hke : cmp k (fst e) <= 0).
      { rewrite Forall_forall in Hkr. apply (Hkr e He). }
      assert (cmp k key <= 0).
      { eapply Htrans; [exact Hke|]. apply cmp_eq_flip. exact Hk. }
      assert (Hlt : cmp key k < 0) by lia. apply cmp_lt_flip in Hlt. lia.
    + apply Z.leb_gt in E. destruct He as [He | He].
      * exfalso. assert (cmp key k <= 0); [|lia].
        eapply Htrans; [rewrite Hk; lia|]. apply (Hlr e (k, v)); auto. left.
      * apply elem_of_cons in He. destruct He as [-> | He]; [simpl in Hk; lia|].
        eapply IHr; eauto.
Qed.

(** What [get] returns is the value of a stored entry with an equal key. *)
Lemma get_sound key : forall t v,
  get cmp key t = Some v -> exists k, (k, v) ∈ inorder t /\ cmp key k = 0.
Proof.
  induction t as [|c k v0 l IHl r IHr cnt]; intros v H; [discriminate|].
  simpl in H. destruct (cmp key k =? 0) eqn:E0.
  - inversion H; subst. exists k. split; [|lia]. simpl.
    apply elem_of_app. right. left.
  - destruct (cmp key k <=? 0).
    + destruct (IHl _ H) as (k' & Hin & Hk). exists k'. split; auto.
      simpl. apply elem_of_app. auto.
    + destruct (IHr _ H) as (k' & Hin & Hk). exists k'. split; auto.
      simpl. apply elem_of_app. right. right. exact Hin.
Qed.

End Ordered.

(** ** Sequences of operations *)

Section Runs.
Context {K V : Type}.
Abbreviation tree := (@tree K V).
Implicit Types (t : tree).
Variable cmp : K -> K -> Z.

Lemma run_wf (ops : list op) : forall t,
  wf t -> root_black t ->
  exists t', run cmp ops t = Ok t' /\ wf t' /\ root_black t'.
Proof.
  induction ops as [|o ops IH]; intros t Hw Hb.
  - exists t. auto.
  - simpl. destruct o as [k v|k|path]; simpl.
    + destruct (insert_wf cmp k v t Hw Hb) as (Hw' & Hb'). apply IH; auto.
    + destruct (remove_wf cmp k t Hw Hb) as (t' & -> & Hw' & Hb'). apply IH; auto.
    + destruct (iterator_remove_at_spec path t Hw Hb) as (t' & -> & Hw' & Hb' & _).
      apply IH; auto.
Qed.

Lemma run_ordered (Hcmp : comparator cmp) (ops : list op) : forall t t',
  wf t -> root_black t -> ordered cmp t -> run cmp ops t = Ok t' -> ordered cmp t'.
Proof.
  induction ops as [|o ops IH]; intros t t' Hw Hb Ho H.
  - inversion H; subst. exact Ho.
  - simpl in H. destruct o as [k v|k|path]; simpl in H.
    + destruct (insert_wf cmp k v t Hw Hb) as (Hw' & Hb').
      eapply IH; [exact Hw'|exact Hb'| |exact H]. apply insert_ordered; assumption.
    + destruct (remove_wf cmp k t Hw Hb) as (t1 & Hr & Hw' & Hb'). rewrite Hr in H.
      eapply IH; [exact Hw'|exact Hb'| |exact H].
      exact (remove_ordered cmp k t t1 Hw Hb Ho Hr).
    + destruct (iterator_remove_at_spec path t Hw Hb) as (t1 & Hr & Hw' & Hb' & Hin).
      rewrite Hr in H.
      eapply IH; [exact Hw'|exact Hb'| |exact H].
      destruct Hin as [-> | (B & e & A & H1 & H2)]; [exact Ho|].
      unfold ordered in *. rewrite H2. rewrite H1 in Ho.
      apply StronglySorted_app in Ho. destruct Ho as (Hba & Hsb & Hsa).
      apply StronglySorted_cons in Hsa. destruct Hsa as (_ & Hsa).
      apply StronglySorted_app. repeat split; auto.
      intros x1 x2 Hx1 Hx2. apply Hba; auto. right. exact Hx2.
Qed.

Lemma wf_rb_invariant t : wf t -> root_black t -> rb_invariant t.
Proof.
  intros (Hr & Hb & Hc) Hroot. constructor; auto using balanced_equal_black_height.
Qed.

Lemma ordered_keys t : ordered cmp t -> ascending cmp (keys t).
Proof.
  unfold ordered, ascending. rewrite keys_inorder. intros H.
  eapply (StronglySorted_fmap fst (key_le cmp)); eauto.
Qed.

End Runs.

Lemma defaultCompare_comparator : comparator defaultCompare.
Proof.
  unfold comparator, defaultCompare. split.
  - intros x y. destruct (Z.ltb_spec y x), (Z.ltb_spec x y), (Z.gtb_spec y x), (Z.gtb_spec x y);
      simpl; lia.
  - intros x y z.
    destruct (Z.ltb_spec x y), (Z.ltb_spec y z), (Z.ltb_spec x z),
      (Z.gtb_spec x y), (Z.gtb_spec y z), (Z.gtb_spec x z); simpl; lia.
Qed.

End RBFacts.

(** * Proofs about the store: what an operation leaves untouched *)

Module HeapFacts.

Import Heap.

Section Frame.
Context {K V : Type}.
Abbreviation heap := (@heap K V).
Abbreviation cell := (@cell K V).
Abbreviation M := (@M K V).

(** The store before the operation. *)
Variable h0 : heap.

Abbreviation ext := (Heap.ext h0).
Abbreviation fresh := (Heap.fresh h0).
Abbreviation safe := (Heap.safe h0).
Abbreviation fresh_from := (Heap.fresh_from h0).
Abbreviation fresh_outside := (Heap.fresh_outside h0).

Lemma safe_ret {A} (a : A) (Q : A -> Prop) : Q a -> safe (ret a) Q.
Proof. intros HQ h Hh. simpl. split; auto. intros b Hb. inversion Hb; subst; auto. Qed.

Lemma safe_throw {A} (Q : A -> Prop) : safe throw Q.
Proof. intros h Hh. simpl. split; auto. discriminate. Qed.

Lemma safe_out_of_fuel {A} (Q : A -> Prop) : safe out_of_fuel Q.
Proof. intros h Hh. simpl. split; auto. discriminate. Qed.

Lemma safe_bind {A B} (m : M A) (k : A -> M B) (Q : B -> Prop) :
  safe m (fun a => safe (k a) Q) -> safe (bind m k) Q.
Proof.
  intros Hm h Hh. unfold bind. destruct (Hm h Hh) as (He & Hq).
  destruct (m h) as [[a| |] h']; simpl in *.
  - apply (Hq a eq_refl). exact He.
  - split; auto. discriminate.
  - split; auto. discriminate.
Qed.

Lemma safe_weaken {A} (m : M A) (P Q : A -> Prop) :
  safe m P -> (forall a, P a -> Q a) -> safe m Q.
Proof. intros Hm HPQ h Hh. destruct (Hm h Hh) as (He & Hp). split; auto. Qed.

Lemma safe_alloc (c : cell) (Q : nat -> Prop) :
  (forall l, fresh l -> Q l) -> safe (alloc c) Q.
Proof.
  intros HQ h Hh. unfold alloc. simpl. split.
  - unfold ext in *. etrans; [exact Hh|]. apply prefix_app_r. reflexivity.
  - intros a Ha. inversion Ha; subst. apply HQ. unfold fresh.
    apply prefix_length in Hh. exact Hh.
Qed.

Lemma safe_read (l : nat) (Q : cell -> Prop) :
  (forall c, Q c) -> safe (read l) Q.
Proof.
  intros HQ h Hh. unfold read. destruct (h !! l); simpl; split; auto; discriminate.
Qed.

Lemma safe_deref (p : ptr) (Q : cell -> Prop) :
  (forall c, Q c) -> safe (deref p) Q.
Proof. intros HQ. destruct p; simpl; auto using safe_read, safe_throw. Qed.

Lemma safe_modify (l : nat) (f : cell -> cell) (Q : unit -> Prop) :
  fresh l -> Q tt -> safe (modify l f) Q.
Proof.
  intros Hl HQ h Hh. unfold modify. destruct (h !! l) as [c|] eqn:E; simpl.
  - split; [|intros [] _; exact HQ].
    destruct Hh as (k & ->). unfold ext, Heap.heap in *.
    rewrite insert_app_r_alt by exact Hl. apply prefix_app_r. reflexivity.
  - split; auto. discriminate.
Qed.

Lemma safe_stack_get (stack : list nat) (i : nat) (Q : nat -> Prop) :
  (forall l, stack !! i = Some l -> Q l) -> safe (stack_get stack i) Q.
Proof.
  intros HQ. unfold stack_get. destruct (stack !! i); auto using safe_ret, safe_throw.
Qed.


Lemma fresh_lookup (stack : list nat) (i l : nat) :
  Forall fresh stack -> stack !! i = Some l -> fresh l.
Proof. intros HF Hl. exact (Forall_lookup_1 _ _ _ _ HF Hl). Qed.

Ltac solve_stack :=
  first
    [ assumption
    | repeat (apply Forall_insert); assumption
    | apply Forall_app; split; [assumption|]; repeat constructor; assumption ].

Lemma safe_is_red (p : ptr) (Q : bool -> Prop) :
  (forall b, Q b) -> safe (is_red p) Q.
Proof.
  intros HQ. destruct p; simpl; [|apply safe_ret; auto].
  apply safe_bind, safe_read. intros c. apply safe_ret. auto.
Qed.

Lemma safe_count_of (p : ptr) (Q : Z -> Prop) :
  (forall z, Q z) -> safe (count_of p) Q.
Proof.
  intros HQ. destruct p; simpl; [|apply safe_ret; auto].
  apply safe_bind, safe_read. intros c. apply safe_ret. auto.
Qed.

Lemma safe_recount (l : nat) (Q : unit -> Prop) :
  fresh l -> Q tt -> safe (recount l) Q.
Proof.
  intros Hl HQ. unfold recount. apply safe_bind, safe_read. intros c.
  apply safe_bind, safe_count_of. intros a. apply safe_bind, safe_count_of. intros b.
  apply safe_modify; auto.
Qed.

Ltac safe_unfold :=
  unfold set_color, set_key, set_value, set_left, set_right, set_count,
    get_color, get_left, get_right, cloneNode, repaint,
    dec_count, swapNode, relink_left_first, relink_right_first,
    fix_relink_left_first, fix_relink_right_first.

Ltac safe_step :=
  lazymatch goal with
  | |- safe (bind _ _) _ => apply safe_bind
  | |- safe (ret _) _ => apply safe_ret
  | |- safe throw _ => apply safe_throw
  | |- safe out_of_fuel _ => apply safe_out_of_fuel
  | |- safe (alloc _) _ => apply safe_alloc; intros ? ?
  | |- safe (read _) _ => apply safe_read; intros ?
  | |- safe (deref _) _ => apply safe_deref; intros ?
  | |- safe (is_red _) _ => apply safe_is_red; intros ?
  | |- safe (count_of _) _ => apply safe_count_of; intros ?
  | |- safe (recount _) _ => apply safe_recount; [assumption|]
  | |- safe (modify _ _) _ => apply safe_modify; [assumption|]
  | |- safe (stack_get ?st ?i) _ =>
      apply safe_stack_get;
      let l := fresh "l" in
      let H := fresh "H" in
      intros l H;
      try (assert (fresh l) by (apply (fresh_lookup st i l); [solve_stack|exact H]))
  | |- safe (if ?b then _ else _) _ => destruct b eqn:?
  | |- safe (match ?x with _ => _ end) _ => destruct x eqn:?
  | |- safe (let _ := _ in _) _ => cbv zeta
  end.

Ltac safe_go := repeat (first [progress safe_unfold | safe_step]).

Lemma safe_dec_counts (stack : list nat) : forall n,
  Forall fresh stack -> safe (dec_counts stack n) (fun _ => True).
Proof.
  induction stack as [|l rest IH]; intros [|n] HF; simpl; try (safe_go; exact I).
  inversion HF; subst. safe_go. apply IH. assumption.
Qed.

Variable cmp : K -> K -> Z.

Lemma safe_insert_descend fuel key : forall n n_stack d_stack,
  safe (insert_descend cmp fuel key n n_stack d_stack) (fun _ => True).
Proof.
  induction fuel as [|fuel IH]; intros [l|] n_stack d_stack; simpl;
    try (safe_go; exact I).
  safe_go. apply IH.
Qed.

Lemma fresh_from_zero stack : fresh_from 0 stack -> Forall fresh stack.
Proof.
  intros H. apply Forall_lookup. intros i l Hl. apply (H i l); [lia|exact Hl].
Qed.

Lemma fresh_from_insert k stack l :
  fresh_from (S k) stack -> fresh l -> fresh_from k (<[k := l]> stack).
Proof.
  intros H Hl i x Hi Hx.
  destruct (decide (i = k)) as [->|Hne].
  - pose proof (lookup_lt_Some _ _ _ Hx) as Hlt. rewrite length_insert in Hlt.
    rewrite list_lookup_insert_eq in Hx by exact Hlt. inversion Hx; subst; exact Hl.
  - rewrite list_lookup_insert_ne in Hx by auto. apply (H i x); [lia|exact Hx].
Qed.

Lemma safe_insert_rebuild k : forall n_stack d_stack,
  fresh_from k n_stack ->
  safe (insert_rebuild k n_stack d_stack) (Forall fresh).
Proof.
  induction k as [|s IH]; intros n_stack d_stack HF; simpl.
  - safe_go. apply fresh_from_zero. exact HF.
  - safe_go. apply IH. apply fresh_from_insert; assumption.
Qed.


Lemma nat_ind2 (P : nat -> Prop) :
  P O -> P 1%nat -> (forall n, P n -> P (S (S n))) -> forall n, P n.
Proof.
  intros H0 H1 H2 n. cut (P n /\ P (S n)); [tauto|].
  induction n as [|n [IHa IHb]]; split; auto.
Qed.

Lemma safe_insert_rebalance s : forall n_stack,
  Forall fresh n_stack ->
  safe (insert_rebalance s n_stack) (Forall fresh).
Proof.
  induction s as [| |s IH] using nat_ind2; intros n_stack HF.
  - simpl. safe_go. exact HF.
  - simpl. safe_go. exact HF.
  - cbn [insert_rebalance]. safe_go; try solve_stack; try (apply IH; solve_stack).
Qed.

Theorem safe_insert fuel key value root :
  safe (insert cmp fuel key value root) (fun _ => True).
Proof.
  unfold insert. apply safe_bind.
  eapply safe_weaken; [apply safe_insert_descend|]. intros [n_stack d_stack] _.
  safe_go. eapply safe_weaken.
  { apply safe_insert_rebuild. intros i x Hi Hx.
    rewrite length_app in Hi. simpl in Hi.
    rewrite lookup_app_r in Hx by lia.
    replace (i - List.length n_stack)%nat with O in Hx.
    - inversion Hx; subst. assumption.
    - apply lookup_lt_Some in Hx. simpl in Hx. lia. }
  intros st1 HF1. cbv beta. safe_go. eapply safe_weaken.
  { apply safe_insert_rebalance. exact HF1. }
  intros st2 HF2. cbv beta. safe_go. exact I.
Qed.


Lemma safe_find fuel key : forall n stack,
  safe (find cmp fuel key n stack) (fun _ => True).
Proof.
  induction fuel as [|fuel IH]; intros [l|] stack; simpl; try (safe_go; exact I).
  safe_go; [exact I|apply IH].
Qed.

Lemma safe_copy_path k : forall stack cstack,
  Forall fresh cstack -> safe (copy_path k stack cstack) (Forall fresh).
Proof.
  induction k as [|i IH]; intros stack cstack HF; simpl.
  - safe_go. exact HF.
  - safe_go; apply IH; constructor; assumption.
Qed.

Lemma safe_walk_right fuel : forall n cstack,
  safe (walk_right fuel n cstack)
       (fun r => exists extra, r.2 = cstack ++ extra).
Proof.
  induction fuel as [|fuel IH]; intros n cstack; simpl; safe_go.
  - eapply safe_weaken; [apply IH|]. intros r (extra & ->).
    exists (n :: extra). rewrite <- app_assoc. reflexivity.
  - exists []. simpl. rewrite app_nil_r. reflexivity.
Qed.

Lemma fresh_outside_all lo stack : fresh_outside lo lo stack -> Forall fresh stack.
Proof.
  intros H. apply Forall_lookup. intros i l Hl. apply (H i l Hl). lia.
Qed.

Lemma fresh_outside_insert lo k stack l :
  fresh_outside lo (lo + S k) stack -> fresh l ->
  fresh_outside lo (lo + k) (<[(lo + k)%nat := l]> stack).
Proof.
  intros H Hl i x Hx Hi.
  destruct (decide (i = lo + k)%nat) as [->|Hne].
  - pose proof (lookup_lt_Some _ _ _ Hx) as Hlt. rewrite length_insert in Hlt.
    rewrite list_lookup_insert_eq in Hx by exact Hlt. inversion Hx; subst; exact Hl.
  - rewrite list_lookup_insert_ne in Hx by auto. apply (H i x Hx). lia.
Qed.

Lemma safe_copy_right_path k split : forall cstack,
  fresh_outside split (split + k) cstack ->
  safe (copy_right_path k split cstack) (Forall fresh).
Proof.
  induction k as [|k IH]; intros cstack HF; simpl.
  - safe_go. apply fresh_outside_all with (lo := split).
    replace (split + 0)%nat with split in HF by lia. exact HF.
  - safe_go. apply IH. apply fresh_outside_insert; assumption.
Qed.

Lemma safe_move_to_leaf fuel cstack :
  Forall fresh cstack -> safe (move_to_leaf fuel cstack) (Forall fresh).
Proof.
  intros HF. unfold move_to_leaf. safe_go; try exact HF.
  eapply safe_weaken; [apply safe_walk_right|].
  intros [n' cstack'] (extra & Hext). simpl in Hext. subst cstack'. cbv beta iota.
  apply safe_bind, safe_stack_get. intros v Hv.
  assert (Hvf : fresh v).
  { assert (Hlt : (List.length cstack - 1 < List.length cstack)%nat).
    { apply lookup_lt_Some in H. lia. }
    rewrite lookup_app_l in Hv by exact Hlt. exact (fresh_lookup _ _ _ HF Hv). }
  safe_go.
  assert (Hk : forall x : nat,
             (List.length ((cstack ++ extra) ++ [x]) - 1 - List.length cstack)%nat
             = List.length extra).
  { intros x. rewrite !length_app. simpl. lia. }
  rewrite Hk.
  eapply safe_weaken.
  { apply safe_copy_right_path.
    intros i x Hx [Hi | Hi].
    - rewrite <- app_assoc, lookup_app_l in Hx by exact Hi.
      exact (fresh_lookup _ _ _ HF Hx).
    - pose proof (lookup_lt_Some _ _ _ Hx) as Hlt. rewrite !length_app in Hlt.
      simpl in Hlt. rewrite lookup_app_r in Hx by (rewrite length_app; lia).
      rewrite length_app in Hx.
      replace (i - (List.length cstack + List.length extra))%nat with O in Hx by lia.
      inversion Hx; subst. assumption. }
  intros cs HFcs. cbv beta. safe_go. exact HFcs.
Qed.


Lemma fresh_stack_put_above stack i n :
  Forall fresh stack -> fresh n -> Forall fresh (stack_put_above stack i n).
Proof.
  intros HF Hn. unfold stack_put_above.
  destruct (i + 1 <? List.length stack)%nat.
  - apply Forall_insert; assumption.
  - apply Forall_app. split; [assumption|]. repeat constructor. exact Hn.
Qed.

Lemma safe_fixDoubleBlack fuel : forall i stack,
  Forall fresh stack -> safe (fixDoubleBlack fuel i stack) (Forall fresh).
Proof.
  induction fuel as [|fuel IH]; intros i stack HF; simpl; [apply safe_out_of_fuel|].
  safe_go; try solve_stack;
    try (apply IH; first [ solve_stack | apply fresh_stack_put_above; solve_stack ]).
Qed.

Lemma fresh_removelast stack : Forall fresh stack -> Forall fresh (removelast stack).
Proof.
  intros HF. induction HF as [|x rest Hx HF IH]; simpl; auto.
  destruct rest; [constructor|]. constructor; auto.
Qed.

Theorem safe_iterator_remove fuel root stack :
  safe (iterator_remove fuel root stack) (fun _ => True).
Proof.
  unfold iterator_remove. destruct stack as [|x stack']; [apply safe_ret; exact I|].
  remember (x :: stack') as stack.
  apply safe_bind, safe_stack_get. intros n Hn.
  apply safe_bind, safe_read. intros c.
  apply safe_bind, safe_alloc. intros top Htop.
  apply safe_bind. eapply safe_weaken;
    [apply safe_copy_path; repeat constructor; exact Htop|].
  intros cs1 HF1. cbv beta.
  apply safe_bind. eapply safe_weaken; [apply safe_move_to_leaf; exact HF1|].
  intros cs HF. cbv beta zeta.
  pose proof (fresh_removelast cs HF) as HFr.
  safe_go; try exact I;
    try (eapply safe_weaken; [apply safe_dec_counts; assumption|]; intros [] _; cbv beta;
         safe_go; try exact I).
  eapply safe_weaken; [apply safe_fixDoubleBlack; assumption|].
  intros cs2 HF2. cbv beta. safe_go; exact I.
Qed.

Theorem safe_remove fuel key root :
  safe (remove cmp fuel key root) (fun _ => True).
Proof.
  unfold remove. apply safe_bind. eapply safe_weaken; [apply safe_find|].
  intros stack _. apply safe_iterator_remove.
Qed.

Theorem safe_iterator_update root stack value :
  safe (iterator_update root stack value) (fun _ => True).
Proof.
  unfold iterator_update. destruct stack as [|x stack']; [apply safe_throw|].
  remember (x :: stack') as stack.
  apply safe_bind, safe_stack_get. intros n Hn.
  apply safe_bind, safe_read. intros c.
  apply safe_bind, safe_alloc. intros top Htop.
  apply safe_bind. eapply safe_weaken;
    [apply safe_copy_path; repeat constructor; exact Htop|].
  intros cs1 HF1. cbv beta. safe_go. exact I.
Qed.

End Frame.

Section Persistence.
Context {K V : Type}.

Lemma safe_prefix {A} (m : @Heap.M K V A) (h : @Heap.heap K V) :
  Heap.safe h m (fun _ => True) -> h `prefix_of` (m h).2.
Proof. intros Hs. apply (Hs h). unfold Heap.ext. reflexivity. Qed.

(** A tree read from a store is read the same from every extension of it. *)
Lemma reify_prefix fuel : forall (h h' : @Heap.heap K V) p t,
  h `prefix_of` h' -> reify fuel h p = Some t -> reify fuel h' p = Some t.
Proof.
  induction fuel as [|fuel IH]; intros h h' [l|] t Hpre Hr; simpl in *; auto;
    try discriminate.
  destruct (h !! l) as [c|] eqn:Hl; [|discriminate].
  pose proof (prefix_lookup_Some _ _ _ _ Hl Hpre) as Hl'.
  unfold Heap.heap in *. rewrite Hl'.
  destruct (reify fuel h (c_left c)) as [tl|] eqn:Hrl; [|discriminate].
  destruct (reify fuel h (c_right c)) as [tr|] eqn:Hrr; [|discriminate].
  rewrite (IH _ _ _ _ Hpre Hrl), (IH _ _ _ _ Hpre Hrr). exact Hr.
Qed.

End Persistence.

(** ** Queries read and do not write *)

Section Readers.
Context {K V : Type}.
Variable cmp : K -> K -> Z.

Lemma reader_ret {A} (a : A) : reader (@ret K V A a).
Proof. split; simpl; auto. Qed.

Lemma reader_throw {A} : reader (@throw K V A).
Proof. split; simpl; [auto|intros; discriminate]. Qed.

Lemma reader_out_of_fuel {A} : reader (@out_of_fuel K V A).
Proof. split; simpl; [auto|intros; discriminate]. Qed.

Lemma reader_read (l : nat) : reader (@read K V l).
Proof.
  split.
  - intros h. unfold read. destruct (h !! l); reflexivity.
  - intros h h' a Hpre. unfold read, heap in *.
    destruct (h !! l) as [c|] eqn:E; [|simpl; discriminate].
    rewrite (prefix_lookup_Some _ _ _ _ E Hpre). auto.
Qed.

Lemma reader_bind {A B} (m : @M K V A) (k : A -> @M K V B) :
  reader m -> (forall a, reader (k a)) -> reader (bind m k).
Proof.
  intros (Hm1 & Hm2) Hk. split.
  - intros h. unfold bind. specialize (Hm1 h).
    destruct (m h) as [[a| |] h1]; simpl in *; subst; auto. apply (Hk a).
  - intros h h' b Hpre. unfold bind. pose proof (Hm1 h) as E1. pose proof (Hm1 h') as E2.
    specialize (Hm2 h h').
    destruct (m h) as [[a| |] h1]; simpl in *; subst; try discriminate.
    intros Hb. rewrite (surjective_pairing (m h')). rewrite (Hm2 a Hpre eq_refl).
    simpl in *. rewrite E2. destruct (Hk a) as (_ & Hk2). apply (Hk2 h h' b Hpre Hb).
Qed.

Lemma reader_deref (p : ptr) : reader (@deref K V p).
Proof. destruct p; simpl; auto using reader_read, reader_throw. Qed.

Lemma reader_count_of (p : ptr) : reader (@count_of K V p).
Proof.
  destruct p; simpl; auto using reader_ret.
  apply reader_bind; auto using reader_read, reader_ret.
Qed.

Ltac reader_go :=
  repeat first
    [ apply reader_ret | apply reader_throw | apply reader_out_of_fuel
    | apply reader_read | apply reader_deref | apply reader_count_of
    | apply reader_bind; [|intros ?]
    | match goal with
      | |- reader (if ?b then _ else _) => destruct b
      | |- reader (match ?x with _ => _ end) => destruct x
      | |- reader (let _ := _ in _) => cbv zeta
      end ].

Lemma reader_get fuel key : forall n, reader (@get K V cmp fuel key n).
Proof.
  induction fuel as [|fuel IH]; intros [l|]; simpl; reader_go; apply IH.
Qed.

Lemma reader_find fuel key : forall n stack, reader (@find K V cmp fuel key n stack).
Proof.
  induction fuel as [|fuel IH]; intros [l|] stack; simpl; reader_go; apply IH.
Qed.

Lemma reader_at_loop fuel : forall n idx stack, reader (@at_loop K V fuel n idx stack).
Proof.
  induction fuel as [|fuel IH]; intros n idx stack; simpl; reader_go; apply IH.
Qed.

Lemma reader_visit_keys fuel : forall n result, reader (@visit_keys K V fuel n result).
Proof.
  induction fuel as [|fuel IH]; intros n result; simpl; reader_go; apply IH.
Qed.

Theorem reader_ask fuel {A} (q : @query K V A) (root : ptr) : reader (ask cmp fuel q root).
Proof.
  destruct q; simpl.
  - apply reader_count_of.
  - apply reader_get.
  - apply reader_find.
  - unfold at_. destruct (idx <? 0); [apply reader_ret|apply reader_at_loop].
  - unfold keys. destruct root; [apply reader_visit_keys|apply reader_ret].
Qed.

End Readers.

(** On the sample runs the store model and the pure model agree, and no
    earlier version changes. *)
Lemma models_agree :
  forallb (fun ops => CrossCheck.agree ops None [] RedBlackTree.Leaf []) CrossCheck.samples
  = true.
Proof. vm_compute. reflexivity. Qed.

End HeapFacts.

(** * Proofs about the compaction pass *)

Module CompactorFacts.

Import Compactor.

(** On well-formed ranges the three tests of a level [i >= 1] amount to
    one: the file's range lies inside the range worked with. *)
Lemma overlap_test_contained (k0 k1 : key) (f : FileRef) :
  fst (f_range f) <= snd (f_range f) -> k0 <= k1 ->
  overlap_test (Some (k0, k1)) f = true <->
  k0 <= fst (f_range f) /\ snd (f_range f) <= k1.
Proof.
  unfold overlap_test. destruct (f_range f) as [r0 r1]. simpl. intros Hr Hk.
  destruct (Z.geb_spec r0 k0), (Z.leb_spec r1 k0), (Z.geb_spec r0 k1), (Z.leb_spec r1 k1);
    simpl; split; intros Hx; try discriminate; try reflexivity; try lia.
Qed.

(** A tombstone is inserted when [hasOlderValues] answers [true] and one
    entry of its key is removed otherwise. *)
Lemma loadKey_tombstone NULLBYTE bloom (m : SnapManifest) (level : nat)
    (data : String.string) (t : buffer) (k : key) (len : Z) :
  loadKey NULLBYTE bloom m level data t (k, (-1, len)) =
  if hasOlderValues bloom m k level
  then Val (RedBlackTree.insert RedBlackTree.defaultCompare k NULLBYTE t)
  else of_outcome (RedBlackTree.remove RedBlackTree.defaultCompare k t).
Proof. reflexivity. Qed.

(** An empty manifest file is read as the default text. *)
Lemma loadManifest_empty_file (parse : String.string -> option SnapManifest) (m : SnapManifest) :
  parse default_text = Some m ->
  loadManifest parse (Present String.EmptyString) = Val m.
Proof. intros H. unfold loadManifest. simpl. rewrite H. reflexivity. Qed.

(** A manifest file that is not JSON makes [JSON.parse] throw. *)
Lemma loadManifest_corrupt (parse : String.string -> option SnapManifest)
    (content : String.string) :
  content <> String.EmptyString -> parse content = None ->
  loadManifest parse (Present content) = Throws SyntaxError.
Proof.
  intros Hne H. unfold loadManifest. simpl.
  destruct (String.eqb_spec content String.EmptyString) as [->|_]; [contradiction|].
  rewrite H. reflexivity.
Qed.

End CompactorFacts.

(** * The claims of the specification *)

Module Claims.

Import RedBlackTree RBFacts.

(** C5. Every tree reached from the empty tree by a sequence of [insert]
    and [remove], by key or through an iterator, exists (no operation
    fails) and satisfies the structural invariant: the root is BLACK, no RED node has a RED child, every path
    from the root to an empty child passes through the same number of BLACK
    nodes, and every node's count is 1 plus the counts of its subtrees. *)
Theorem C5_structural_invariant {K V : Type} (cmp : K -> K -> Z) (ops : list (@op K V)) :
  exists t, run cmp ops Leaf = Ok t /\ rb_invariant t.
Proof.
  destruct (run_wf cmp ops Leaf) as (t & Hrun & Hw & Hb).
  - unfold wf; simpl; auto.
  - reflexivity.
  - exists t. split; [exact Hrun|]. apply wf_rb_invariant; auto.
Qed.

(** C10. On a tree with consistent counts, [insert] adds exactly one entry:
    the length grows by one and the entries of the result are those of the
    tree, all of them, with the new one put in between; an entry already
    stored under the key stays next to the new one. *)
Theorem C10_insert_adds_one_entry {K V : Type} (cmp : K -> K -> Z) (k : K) (v : V)
    (t : @tree K V) :
  counted t ->
  length (insert cmp k v t) = length t + 1 /\
  exists before after,
    inorder t = before ++ after /\
    inorder (insert cmp k v t) = before ++ (k, v) :: after.
Proof.
  intros Hc. split.
  - apply (insert_counted cmp k v t Hc).
  - apply inorder_insert.
Qed.

Lemma C10_witness :
  counted (insert defaultCompare 1 10 (@Leaf Z Z)) /\
  (length (insert defaultCompare 1 20 (insert defaultCompare 1 10 (@Leaf Z Z)))
   = length (insert defaultCompare 1 10 (@Leaf Z Z)) + 1 /\
   exists before after,
     inorder (insert defaultCompare 1 10 (@Leaf Z Z)) = before ++ after /\
     inorder (insert defaultCompare 1 20 (insert defaultCompare 1 10 (@Leaf Z Z)))
     = before ++ (1, 20) :: after).
Proof.
  split; [vm_compute; auto|].
  apply (C10_insert_adds_one_entry defaultCompare 1 20). vm_compute; auto.
Defined.

(** C7. In a tree built from the empty tree by [insert] and [remove], by
    key or through an iterator, under a comparator that respects its
    contract, for every valid index [i]:
    [at(i)] is a valid iterator, [at(i).index()] is [i], the key under the
    iterator is [keys()[i]], and [keys()] is in ascending order. *)
Theorem C7_order_statistics {K V : Type} (cmp : K -> K -> Z) (ops : list (@op K V))
    (t : @tree K V) (i : Z) :
  comparator cmp ->
  run cmp ops Leaf = Ok t ->
  0 <= i < length t ->
  exists it k,
    at_ i t = Ok it /\ valid it = true /\
    index t it = i /\
    iterator_key it = Some k /\
    keys t !! Z.to_nat i = Some k /\
    ascending cmp (keys t).
Proof.
  intros Hcmp Hrun Hi.
  assert (Hleaf : wf (@Leaf K V)) by (unfold wf; simpl; auto).
  destruct (run_wf cmp ops Leaf Hleaf eq_refl) as (t' & Hrun' & Hw & Hb).
  rewrite Hrun in Hrun'. inversion Hrun'; subst t'.
  assert (Ho : ordered cmp t).
  { apply (run_ordered cmp Hcmp ops Leaf t Hleaf eq_refl); [constructor|exact Hrun]. }
  destruct Hw as (_ & _ & Hc).
  destruct (at_loop_ok t i [] Hc) as (c & k & v & l & r & cnt & stack & Ha & Hb' & Hd).
  { destruct t; simpl in *; lia. }
  exists (Some (Node c k v l r cnt, stack)), k.
  unfold at_. destruct (i <? 0) eqn:E; [apply Z.ltb_lt in E; lia|].
  split; [exact Ha|]. split; [reflexivity|]. split; [|split; [reflexivity|split]].
  - simpl. rewrite Hb'. simpl. lia.
  - rewrite keys_inorder. rewrite list_lookup_fmap, Hd. reflexivity.
  - apply ordered_keys. exact Ho.
Qed.

Lemma C7_witness :
  comparator defaultCompare /\
  run defaultCompare [Insert 2 20; Insert 1 10; Insert 3 30; Remove 2] Leaf
  = Ok (Node BLACK 1 10 Leaf (Node RED 3 30 Leaf Leaf 1) 2) /\
  0 <= 1 < length (Node BLACK 1 10 Leaf (Node RED 3 30 Leaf Leaf 1) 2) /\
  exists it k,
    at_ 1 (Node BLACK 1 10 Leaf (Node RED 3 30 Leaf Leaf 1) 2) = Ok it /\ valid it = true /\
    index (Node BLACK 1 10 Leaf (Node RED 3 30 Leaf Leaf 1) 2) it = 1 /\
    iterator_key it = Some k /\
    keys (Node BLACK 1 10 Leaf (Node RED 3 30 Leaf Leaf 1) 2) !! Z.to_nat 1 = Some k /\
    ascending defaultCompare (keys (Node BLACK 1 10 Leaf (Node RED 3 30 Leaf Leaf 1) 2)).
Proof.
  split; [exact defaultCompare_comparator|].
  split; [reflexivity|]. split; [simpl; lia|].
  apply (C7_order_statistics defaultCompare
           [Insert 2 20; Insert 1 10; Insert 3 30; Remove 2]).
  - exact defaultCompare_comparator.
  - reflexivity.
  - simpl; lia.
Defined.

(** C8. [at] on the empty tree with a non-negative index reads [n.left] of
    a [null] root: a [TypeError], not an invalid iterator. *)
Theorem C8_at_empty_tree_throws :
  at_ 0 (@createRBTree Z Z) = TypeError.
Proof. reflexivity. Qed.


(** C4, as the code has it. In [t.insert(k, v1).insert(k, v2)] on a tree in
    ascending order, [get(k)] returns the value of an entry stored under a
    key equal to [k]: [v2], [v1] or a value [t] already held for such a key.
    It need not be [v2]: on the empty tree it is [v1]. *)
Theorem C4_get_after_two_inserts {K V : Type} (cmp : K -> K -> Z) (t : @tree K V)
    (k : K) (v1 v2 : V) :
  comparator cmp -> ordered cmp t ->
  (exists v, get cmp k (insert cmp k v2 (insert cmp k v1 t)) = Some v /\
             (v = v2 \/ v = v1 \/ exists k', (k', v) ∈ inorder t /\ cmp k k' = 0)) /\
  get cmp k (insert cmp k v2 (insert cmp k v1 Leaf)) = Some v1.
Proof.
  intros Hcmp Ho.
  assert (Hkk : cmp k k = 0).
  { destruct Hcmp as (Hs & _). specialize (Hs k k). lia. }
  split.
  - pose proof (insert_ordered cmp Hcmp k v1 t Ho) as Ho1.
    pose proof (insert_ordered cmp Hcmp k v2 _ Ho1) as Ho2.
    destruct (inorder_insert cmp k v1 t) as (B1 & A1 & Ht & Ht1).
    destruct (inorder_insert cmp k v2 (insert cmp k v1 t)) as (B2 & A2 & Ht1' & Ht2).
    destruct (get_complete cmp Hcmp k (insert cmp k v2 (insert cmp k v1 t)) (k, v2) Ho2)
      as (v & Hget).
    { rewrite Ht2. apply elem_of_app. right. left. }
    { exact Hkk. }
    exists v. split; [exact Hget|].
    destruct (get_sound cmp k _ _ Hget) as (k' & Hin & Hk').
    rewrite Ht2 in Hin. apply elem_of_app in Hin.
    assert (Hin1 : (k', v) = (k, v2) \/ (k', v) ∈ inorder (insert cmp k v1 t)).
    { rewrite Ht1'. destruct Hin as [Hin | Hin].
      - right. apply elem_of_app. auto.
      - apply elem_of_cons in Hin. destruct Hin as [Hin | Hin]; auto.
        right. apply elem_of_app. auto. }
    destruct Hin1 as [Heq | Hin1]; [inversion Heq; auto|].
    rewrite Ht1 in Hin1. apply elem_of_app in Hin1.
    assert (Hin0 : (k', v) = (k, v1) \/ (k', v) ∈ inorder t).
    { rewrite Ht. destruct Hin1 as [Hin1 | Hin1].
      - right. apply elem_of_app. auto.
      - apply elem_of_cons in Hin1. destruct Hin1 as [Hin1 | Hin1]; auto.
        right. apply elem_of_app. auto. }
    destruct Hin0 as [Heq | Hin0]; [inversion Heq; auto|].
    right. right. exists k'. auto.
  - unfold insert. simpl. rewrite Hkk. simpl. rewrite Hkk. reflexivity.
Qed.

Lemma C4_witness :
  comparator defaultCompare /\ ordered defaultCompare (@Leaf Z Z) /\
  ((exists v, get defaultCompare 1 (insert defaultCompare 1 20 (insert defaultCompare 1 10 Leaf))
              = Some v /\
              (v = 20 \/ v = 10 \/
               exists k', (k', v) ∈ inorder (@Leaf Z Z) /\ defaultCompare 1 k' = 0)) /\
   get defaultCompare 1 (insert defaultCompare 1 20 (insert defaultCompare 1 10 Leaf))
   = Some 10).
Proof.
  split; [exact defaultCompare_comparator|]. split; [constructor|].
  apply (C4_get_after_two_inserts defaultCompare Leaf 1 10 20).
  - exact defaultCompare_comparator.
  - constructor.
Defined.

(** C4 as stated fails: after [insert(1, 10)] and [insert(1, 20)] on the
    empty tree, [get(1)] is [10], the first value. *)
Lemma C4_counterexample :
  get defaultCompare 1 (insert defaultCompare 1 20 (insert defaultCompare 1 10 (@Leaf Z Z)))
  = Some 10 /\
  get defaultCompare 1 (insert defaultCompare 1 20 (insert defaultCompare 1 10 (@Leaf Z Z)))
  <> Some 20.
Proof. split; [reflexivity|discriminate]. Qed.

(** C6. Whatever [insert], [remove] or [update] does on a store, succeed or
    fail, the store before it is a prefix of the store after it: no node
    object that existed is changed, the operation writes only to nodes it
    has allocated.  So every reference denotes the tree it denoted, and
    every query ([length], [get], [find], [at], [keys]) on the version
    operated on, or on any other, returns what it returned before and
    leaves the store as it is. *)
Theorem C6_persistence {K V : Type} (cmp : K -> K -> Z) (fuel : nat)
    (o : @Heap.operation K V) (root : Heap.ptr) (h : @Heap.heap K V) :
  let h' := (Heap.exec cmp fuel o root h).2 in
  h `prefix_of` h' /\
  (forall l c, h !! l = Some c -> h' !! l = Some c) /\
  (forall depth p t, Heap.reify depth h p = Some t -> Heap.reify depth h' p = Some t) /\
  (forall (A : Type) (q : Heap.query A) steps p a,
      (Heap.ask cmp steps q p h).1 = Ok a ->
      (Heap.ask cmp steps q p h').1 = Ok a /\ (Heap.ask cmp steps q p h').2 = h').
Proof.
  intros h'.
  assert (Hpre : h `prefix_of` h').
  { apply HeapFacts.safe_prefix. destruct o; simpl.
    - apply HeapFacts.safe_insert.
    - apply HeapFacts.safe_remove.
    - apply HeapFacts.safe_iterator_remove.
    - apply HeapFacts.safe_iterator_update. }
  split; [exact Hpre|]. split; [|split].
  - intros l c Hl. exact (prefix_lookup_Some _ _ _ _ Hl Hpre).
  - intros depth p t. apply HeapFacts.reify_prefix. exact Hpre.
  - intros A q steps p a Ha.
    destruct (HeapFacts.reader_ask cmp steps q p) as (Hsame & Hmono).
    split; [exact (Hmono h h' a Hpre Ha)|apply Hsame].
Qed.

(** C1. Level 0 holds, oldest first, a file with key 1, a second file with
    key 1 and a third one where key 1 is a tombstone, and no level lies
    below: [hasOlderValues] answers [false], yet after the three files are
    loaded the merge buffer still holds key 1, with the value of the second
    file.  [remove] takes out one entry and [insert] had stored two. *)
Theorem C1_tombstone_leaves_older_value (NULLBYTE : Compactor.value)
    (bloom : Z -> Compactor.key -> bool) :
  Compactor.hasOlderValues bloom Scenarios.tombstone_manifest 1 0 = false /\
  exists st,
    Compactor.compactLevel0 NULLBYTE bloom Scenarios.tombstone_disk
      Scenarios.tombstone_manifest Scenarios.start = Compactor.Val st /\
    keys (Compactor.compactIndex st) = [1] /\
    get defaultCompare 1 (Compactor.compactIndex st) = Some Scenarios.second_value.
Proof.
  split; [reflexivity|].
  eexists. split; [vm_compute; reflexivity|]. split; reflexivity.
Qed.

(** C2. With the level-1 file of keys 0 to 10 selected, the level-2 file of
    keys 5 to 15 overlaps it in the sense of the specification (its start
    key falls within the range); the tests of the code reject it, and the
    pass loads and schedules for deletion the level-2 file of keys 2 to 8
    only. *)
Theorem C2_overlapping_file_not_loaded (NULLBYTE : Compactor.value)
    (bloom : Z -> Compactor.key -> bool) :
  Compactor.overlaps_spec (0, 10) (Scenarios.file 20 5 15) = true /\
  Compactor.overlap_test (Some (0, 10)) (Scenarios.file 20 5 15) = false /\
  exists out,
    Compactor.compactLevelN NULLBYTE bloom Scenarios.overlap_disk Scenarios.overlap_manifest
      1 Scenarios.overlap_level1 Scenarios.start = Compactor.Val out /\
    Compactor.lo_keyRange out = Some (0, 10) /\
    filter (fun d => Nat.eqb (fst d) 2) (Compactor.deleteFiles (Compactor.lo_state out))
    = [(2%nat, 21)].
Proof.
  split; [reflexivity|]. split; [reflexivity|].
  eexists. split; [vm_compute; reflexivity|]. split; reflexivity.
Qed.

(** C3. Level 1 holds the files 10 (keys 0 to 10) and 11 (keys 20 to 30).
    With the marker at 0 the range worked with is that of file 10, and the
    level-1 file loaded and scheduled for deletion is file 11; with the
    marker at 1, the last file, the range is that of file 11 and no level-1
    file is loaded at all. *)
Theorem C3_selected_file_is_not_the_loaded_one (NULLBYTE : Compactor.value)
    (bloom : Z -> Compactor.key -> bool) :
  (exists out,
     Compactor.compactLevelN NULLBYTE bloom Scenarios.cursor_disk (Scenarios.cursor_manifest 0)
       1 (Scenarios.cursor_level 0) Scenarios.start = Compactor.Val out /\
     Compactor.lo_keyRange out = Some (0, 10) /\
     Compactor.deleteFiles (Compactor.lo_state out) = [(1%nat, 11)] /\
     keys (Compactor.compactIndex (Compactor.lo_state out)) = [20; 30]) /\
  (exists out,
     Compactor.compactLevelN NULLBYTE bloom Scenarios.cursor_disk (Scenarios.cursor_manifest 1)
       1 (Scenarios.cursor_level 1) Scenarios.start = Compactor.Val out /\
     Compactor.lo_keyRange out = Some (20, 30) /\
     Compactor.deleteFiles (Compactor.lo_state out) = [] /\
     keys (Compactor.compactIndex (Compactor.lo_state out)) = []).
Proof.
  split; eexists; (split; [vm_compute; reflexivity|]); repeat split; reflexivity.
Qed.

(** C9. When [manifest.json] is absent, [fs.readFileSync] throws and the
    pass ends there, whatever [JSON.parse] would do with the default text. *)
Theorem C9_missing_manifest_throws (parse : String.string -> option Compactor.SnapManifest) :
  Compactor.loadManifest parse Compactor.Absent = Compactor.Throws Compactor.ENOENT.
Proof. reflexivity. Qed.

End Claims.

(** * Proofs about iterators, bounds and traversals *)

Module IteratorFacts.

Import RedBlackTree RBFacts.

Ltac reassoc :=
  repeat (first [rewrite <- app_assoc | rewrite app_nil_r | progress simpl]); try reflexivity.

Section Positions.
Context {K V : Type}.
Abbreviation tree := (@tree K V).
Abbreviation frame := (@frame K V).
Abbreviation iterator := (@iterator K V).
Implicit Types (t n m l r : tree) (stack rest : list frame) (f : frame) (it : iterator)
  (B A : list (K * V)).

Arguments zip : simpl never.

Lemma inorder_focus c k v l r cnt stack :
  inorder (zip (Node c k v l r cnt) stack)
  = (ctx_before stack ++ inorder l) ++ (k, v) :: inorder r ++ ctx_after stack.
Proof. rewrite inorder_zip. simpl. reassoc. Qed.

Lemma counted_unzip stack : forall n,
  counted (zip n stack) -> counted n /\ ctx_counted (count n) stack.
Proof.
  induction stack as [|f rest IH]; intros n H.
  - split; [exact H|exact I].
  - rewrite zip_cons in H. destruct (IH _ H) as (Hp & Hrest).
    destruct f as [[] c k v s cnt]; unfold plug in *; simpl in *;
      destruct Hp as (Hcnt & H1 & H2); repeat split; auto; lia.
Qed.

Lemma rank_before stack : forall cnt a,
  ctx_counted cnt stack ->
  fold_left rank_step stack a = a + Z.of_nat (List.length (ctx_before stack)).
Proof.
  induction stack as [|f rest IH]; intros cnt a H; simpl.
  - lia.
  - destruct H as (Hs & Hc & Hrest). rewrite (IH _ _ Hrest).
    unfold rank_step. destruct (fdir f); [lia|].
    rewrite !length_app. simpl. rewrite (counted_size _ Hs). lia.
Qed.

Lemma at_pos_index t it B : counted t -> at_pos t it B -> index t it = Z.of_nat (List.length B).
Proof.
  intros Hc H. destruct it as [[[|c k v l r cnt] stack]|]; simpl in H; [tauto| |].
  - destruct H as (Hz & ->). subst t. apply counted_unzip in Hc. destruct Hc as (Hn & Hctx).
    simpl. rewrite (rank_before _ _ _ Hctx). rewrite length_app.
    destruct Hn as (_ & Hl & _). rewrite (counted_size _ Hl). lia.
  - subst B. simpl. apply counted_size. exact Hc.
Qed.

Lemma at_pos_entry t it B :
  at_pos t it B ->
  iterator_key it = fst <$> (inorder t !! List.length B) /\
  iterator_value it = snd <$> (inorder t !! List.length B).
Proof.
  intros H. destruct it as [[[|c k v l r cnt] stack]|]; simpl in H; [tauto| |].
  - destruct H as (Hz & ->). subst t. rewrite inorder_focus.
    rewrite list_lookup_middle by reflexivity. split; reflexivity.
  - subst B. rewrite lookup_ge_None_2 by lia. split; reflexivity.
Qed.

Lemma at_pos_valid t it B :
  at_pos t it B -> (valid it = true <-> (List.length B < List.length (inorder t))%nat).
Proof.
  intros H. destruct it as [[[|c k v l r cnt] stack]|]; simpl in H; [tauto| |].
  - destruct H as (Hz & ->). subst t. rewrite inorder_focus. rewrite (length_app (_ ++ _)).
    simpl. split; [lia|reflexivity].
  - subst B. simpl. split; [discriminate|lia].
Qed.

Lemma at_pos_prefix t it B : at_pos t it B -> exists A, inorder t = B ++ A.
Proof.
  intros H. destruct it as [[[|c k v l r cnt] stack]|]; simpl in H; [tauto| |].
  - destruct H as (Hz & ->). subst t. rewrite inorder_focus. eauto.
  - subst B. exists []. rewrite app_nil_r. reflexivity.
Qed.

Lemma at_pos_iterator_of t it B : at_pos t it B -> iterator_of t it.
Proof.
  intros H. destruct it as [[[|c k v l r cnt] stack]|]; simpl in *; tauto.
Qed.

Lemma iterator_of_at_pos t it : iterator_of t it -> exists B, at_pos t it B.
Proof.
  destruct it as [[[|c k v l r cnt] stack]|]; simpl.
  - intros (H & _). discriminate.
  - intros (_ & H). eauto.
  - eauto.
Qed.

(** ** begin, end *)

Lemma leftmost_ok n : forall stack,
  is_node n = true ->
  exists c k v r cnt stack',
    leftmost n stack = Some (Node c k v Leaf r cnt, stack') /\
    zip (Node c k v Leaf r cnt) stack' = zip n stack /\
    ctx_before stack' = ctx_before stack.
Proof.
  induction n as [|c k v l IHl r _ cnt]; intros stack H; [discriminate|].
  destruct l as [|lc lk lv ll lr lcnt].
  - simpl. eauto 10.
  - destruct (IHl (Frame Left c k v r cnt :: stack) eq_refl)
      as (c' & k' & v' & r' & cnt' & stack' & H1 & H2 & H3).
    exists c', k', v', r', cnt', stack'. split; [exact H1|]. split; [exact H2|exact H3].
Qed.

Lemma rightmost_ok n : forall stack,
  is_node n = true ->
  exists c k v l cnt stack',
    rightmost n stack = Some (Node c k v l Leaf cnt, stack') /\
    zip (Node c k v l Leaf cnt) stack' = zip n stack /\
    (ctx_before stack' ++ inorder l) ++ [(k, v)] = ctx_before stack ++ inorder n.
Proof.
  induction n as [|c k v l _ r IHr cnt]; intros stack H; [discriminate|].
  destruct r as [|rc rk rv rl rr rcnt].
  - simpl. exists c, k, v, l, cnt, stack. repeat split. reassoc.
  - destruct (IHr (Frame Right c k v l cnt :: stack) eq_refl)
      as (c' & k' & v' & l' & cnt' & stack' & H1 & H2 & H3).
    exists c', k', v', l', cnt', stack'. split; [exact H1|]. split; [exact H2|].
    rewrite H3. simpl. reassoc.
Qed.

Lemma begin_pos t : at_pos t (begin t) [].
Proof.
  unfold begin. destruct t as [|c k v l r cnt]; [reflexivity|].
  destruct (leftmost_ok (Node c k v l r cnt) [] eq_refl)
    as (c' & k' & v' & r' & cnt' & stack' & H1 & H2 & H3).
  rewrite H1. simpl. split; [exact H2|]. rewrite H3. reflexivity.
Qed.

Lemma end_pos t : at_pos t (end_ t) (removelast (inorder t)).
Proof.
  unfold end_. destruct t as [|c k v l r cnt]; [reflexivity|].
  destruct (rightmost_ok (Node c k v l r cnt) [] eq_refl)
    as (c' & k' & v' & l' & cnt' & stack' & H1 & H2 & H3).
  rewrite H1. simpl. split; [exact H2|].
  simpl in H3. rewrite <- H3. rewrite removelast_last. reflexivity.
Qed.

(** ** next, prev *)

Lemma pop_right_ok stack : forall n,
  at_pos (zip n stack) (pop_right n stack) (ctx_before stack ++ inorder n) /\
  valid (pop_right n stack) = existsb goes_left stack.
Proof.
  induction stack as [|f rest IH]; intros n; simpl.
  - split; reflexivity.
  - destruct f as [[] c k v s cnt]; unfold goes_left; simpl.
    + split; [|reflexivity]. unfold plug; simpl. split; reflexivity.
    + destruct (IH (plug n (Frame Right c k v s cnt))) as (H1 & H2).
      split; [|exact H2]. rewrite zip_cons.
      replace ((ctx_before rest ++ inorder s ++ [(k, v)]) ++ inorder n)
        with (ctx_before rest ++ inorder (plug n (Frame Right c k v s cnt))); [exact H1|].
      unfold plug; simpl. reassoc.
Qed.

Lemma pop_left_ok stack : forall n,
  match pop_left n stack with
  | None => ctx_before stack = []
  | Some (Node c k v l r cnt, stack') =>
      zip (Node c k v l r cnt) stack' = zip n stack /\
      (ctx_before stack' ++ inorder l) ++ [(k, v)] = ctx_before stack
  | Some (Leaf, _) => False
  end /\
  valid (pop_left n stack) = existsb goes_right stack.
Proof.
  induction stack as [|f rest IH]; intros n; simpl; [auto|].
  destruct f as [[] c k v s cnt]; unfold goes_right; simpl.
  - destruct (IH (plug n (Frame Left c k v s cnt))) as (H1 & H2).
    split; [|exact H2]. rewrite zip_cons. exact H1.
  - split; [|reflexivity]. unfold plug; simpl. split; [reflexivity|]. reassoc.
Qed.

Lemma leftmost_pos n stack :
  is_node n = true -> at_pos (zip n stack) (leftmost n stack) (ctx_before stack).
Proof.
  intros H. destruct (leftmost_ok n stack H) as (c & k & v & r & cnt & stack' & H1 & H2 & H3).
  rewrite H1. simpl. split; [exact H2|]. rewrite H3, app_nil_r. reflexivity.
Qed.

Lemma next_pos c k v l r cnt stack :
  at_pos (zip (Node c k v l r cnt) stack) (next (Some (Node c k v l r cnt, stack)))
         ((ctx_before stack ++ inorder l) ++ [(k, v)]) /\
  valid (next (Some (Node c k v l r cnt, stack))) = hasNext (Some (Node c k v l r cnt, stack)).
Proof.
  simpl. destruct r as [|rc rk rv rl rr rcnt]; simpl.
  - destruct (pop_right_ok stack (Node c k v l Leaf cnt)) as (H1 & H2).
    split; [|exact H2]. simpl in H1. rewrite app_assoc in H1. exact H1.
  - pose proof (leftmost_pos (Node rc rk rv rl rr rcnt) (Frame Right c k v l cnt :: stack) eq_refl)
      as H.
    rewrite zip_cons in H. unfold plug in H; simpl in H.
    split.
    + replace ((ctx_before stack ++ inorder l) ++ [(k, v)])
        with (ctx_before stack ++ inorder l ++ [(k, v)]) by reassoc. exact H.
    + destruct (leftmost_ok (Node rc rk rv rl rr rcnt) (Frame Right c k v l cnt :: stack) eq_refl)
        as (c' & k' & v' & r' & cnt' & stack' & H1 & _).
      simpl in H1. rewrite H1. reflexivity.
Qed.

(** [prev] moves to the entry before, and leaves an empty stack when
    there is none. *)
Lemma prev_pos c k v l r cnt stack :
  match prev (Some (Node c k v l r cnt, stack)) with
  | None => ctx_before stack ++ inorder l = []
  | Some (Node c' k' v' l' r' cnt', stack') =>
      zip (Node c' k' v' l' r' cnt') stack' = zip (Node c k v l r cnt) stack /\
      (ctx_before stack' ++ inorder l') ++ [(k', v')] = ctx_before stack ++ inorder l
  | Some (Leaf, _) => False
  end /\
  valid (prev (Some (Node c k v l r cnt, stack))) = hasPrev (Some (Node c k v l r cnt, stack)).
Proof.
  simpl. destruct l as [|lc lk lv ll lr lcnt]; simpl.
  - destruct (pop_left_ok stack (Node c k v Leaf r cnt)) as (H1 & H2).
    split; [|exact H2].
    destruct (pop_left _ stack) as [[[|c' k' v' l' r' cnt'] stack']|]; auto.
    + rewrite app_nil_r. exact H1.
    + rewrite app_nil_r. exact H1.
  - destruct (rightmost_ok (Node lc lk lv ll lr lcnt) (Frame Left c k v r cnt :: stack) eq_refl)
      as (c' & k' & v' & l' & cnt' & stack' & H1 & H2 & H3).
    simpl in H1. rewrite H1. split; [|reflexivity]. split; [exact H2|]. exact H3.
Qed.

End Positions.

(** ** Stacks of a well-formed tree *)

Section Paths.
Context {K V : Type}.
Abbreviation tree := (@tree K V).
Abbreviation frame := (@frame K V).
Abbreviation iterator := (@iterator K V).
Implicit Types (t n m l r : tree) (stack rest : list frame) (f : frame) (it : iterator)
  (B A : list (K * V)).

Arguments zip : simpl never.

Lemma focus_ok_unzip stack : forall n,
  wf (zip n stack) -> root_black (zip n stack) -> focus_ok n stack.
Proof.
  induction stack as [|f rest IH]; intros n Hw Hb.
  - apply focus_ok_root; assumption.
  - rewrite zip_cons in Hw, Hb. specialize (IH _ Hw Hb).
    destruct f as [[] c k v s cnt]; unfold plug in IH; simpl in IH.
    + exact (focus_ok_left c k v n s cnt rest k v IH).
    + exact (focus_ok_right c k v s n cnt rest k v IH).
Qed.


Lemma get_find_loop cmp key : forall n stack,
  get cmp key n = iterator_value (find_loop cmp key n stack).
Proof.
  induction n as [|c k v l IHl r IHr cnt]; intros stack; [reflexivity|].
  simpl. destruct (cmp key k =? 0); [reflexivity|].
  destruct (cmp key k <=? 0); [apply IHl|apply IHr].
Qed.


Lemma at_loop_zip n : forall idx stack m stack',
  at_loop n idx stack = Ok (Some (m, stack')) ->
  is_node m = true /\ zip m stack' = zip n stack.
Proof.
  induction n as [|c k v l IHl r IHr cnt]; intros idx stack m stack' H; [discriminate|].
  simpl in H.
  destruct (is_node l && (idx <? count l)).
  - destruct (IHl _ _ _ _ H) as (H1 & H2). split; [exact H1|]. rewrite H2. reflexivity.
  - destruct ((if is_node l then idx - count l else idx) =? 0).
    + inversion H; subst. split; reflexivity.
    + destruct r as [|rc rk rv rl rr rcnt]; [discriminate|].
      destruct (_ >=? rcnt); [discriminate|].
      destruct (IHr _ _ _ _ H) as (H1 & H2). split; [exact H1|]. rewrite H2. reflexivity.
Qed.

Lemma path_blacks_bheight t : path_blacks t (bheight t).
Proof.
  induction t as [|c k v l IHl r _ cnt]; simpl; [constructor|].
  apply pb_left. exact IHl.
Qed.

Lemma equal_black_height_balanced t : equal_black_height t -> balanced t.
Proof.
  induction t as [|c k v l IHl r IHr cnt]; intros H; simpl; [exact I|].
  split; [|split].
  - assert (Heq : (black c + bheight l = black c + bheight r)%nat).
    { apply H; [apply pb_left|apply pb_right]; apply path_blacks_bheight. }
    lia.
  - apply IHl. intros a b Ha Hb.
    assert (Heq : (black c + a = black c + b)%nat) by (apply H; apply pb_left; assumption).
    lia.
  - apply IHr. intros a b Ha Hb.
    assert (Heq : (black c + a = black c + b)%nat) by (apply H; apply pb_right; assumption).
    lia.
Qed.

Lemma rb_invariant_wf t : rb_invariant t -> wf t /\ root_black t.
Proof.
  intros [Hroot Hred Hh Hc]. split; [|exact Hroot].
  split; [exact Hred|]. split; [apply equal_black_height_balanced; exact Hh|exact Hc].
Qed.

Lemma length_count t : length t = count t.
Proof. destruct t; reflexivity. Qed.

Lemma counted_length t : counted t -> length t = Z.of_nat (List.length (inorder t)).
Proof. intros H. rewrite length_count. apply counted_size. exact H. Qed.

Lemma insert_middle {X : Type} (xs ys : list X) (x y : X) :
  <[List.length xs := y]> (xs ++ x :: ys) = xs ++ y :: ys.
Proof. induction xs as [|a xs IH]; simpl; [reflexivity|]. rewrite IH. reflexivity. Qed.

Lemma wf_counted t : wf t -> counted t.
Proof. intros (_ & _ & H). exact H. Qed.

Lemma remove_at_spec c k v l r cnt stack t :
  wf t -> root_black t -> zip (Node c k v l r cnt) stack = t ->
  exists t', remove_at (Node c k v l r cnt) stack = Ok t' /\ wf t' /\ root_black t' /\
    inorder t' = (ctx_before stack ++ inorder l) ++ inorder r ++ ctx_after stack.
Proof.
  intros Hw Hb Hz. subst t.
  pose proof (focus_ok_unzip stack _ Hw Hb) as Hf.
  destruct (remove_at_wf (Node c k v l r cnt) stack eq_refl Hf) as (t' & Hr & Hw' & Hb').
  exists t'. split; [exact Hr|]. split; [exact Hw'|]. split; [exact Hb'|].
  rewrite (remove_at_inorder _ _ _ _ _ _ _ _ Hf Hr). reassoc.
Qed.

Lemma update_spec c k v l r cnt stack value t :
  wf t -> root_black t -> zip (Node c k v l r cnt) stack = t ->
  wf (zip (Node c k value l r cnt) stack) /\ root_black (zip (Node c k value l r cnt) stack) /\
  inorder (zip (Node c k value l r cnt) stack)
  = (ctx_before stack ++ inorder l) ++ (k, value) :: inorder r ++ ctx_after stack.
Proof.
  intros Hw Hb Hz. subst t.
  pose proof (focus_ok_unzip stack _ Hw Hb) as Hf.
  apply (focus_ok_rekey c k v l r cnt k value) in Hf.
  destruct Hf as (Hn & Hctx & Hred & Hroot & Hnil).
  split; [exact (wf_zip stack _ _ _ Hn eq_refl eq_refl Hred Hctx)|].
  split; [exact (root_black_zip stack _ Hroot Hnil)|].
  apply inorder_focus.
Qed.

(** ** Traversals *)

Lemma visit_list_app {S : Type} (visit : K -> V -> S -> S * bool) B : forall A st,
  visit_list visit (B ++ A) st
  = let '(st1, stop) := visit_list visit B st in
    if stop then (st1, true) else visit_list visit A st1.
Proof.
  induction B as [|[k v] B IH]; intros A st; simpl; [reflexivity|].
  destruct (visit k v st) as [st1 [|]]; [reflexivity|]. apply IH.
Qed.

Lemma visit_list_stop {S : Type} (visit : K -> V -> S -> S * bool) B st :
  (let '(st1, stop) := visit_list visit B st in if stop then (st1, true) else (st1, false))
  = visit_list visit B st.
Proof. destruct (visit_list visit B st) as [st1 [|]]; reflexivity. Qed.

Lemma doVisitFull_list {S : Type} (visit : K -> V -> S -> S * bool) t : forall st,
  doVisitFull visit t st = visit_list visit (inorder t) st.
Proof.
  induction t as [|c k v l IHl r IHr cnt]; intros st; simpl; [reflexivity|].
  rewrite visit_list_app, IHl. destruct (visit_list visit (inorder l) st) as [st1 [|]];
    [reflexivity|].
  simpl. destruct (visit k v st1) as [st2 [|]]; [reflexivity|]. apply IHr.
Qed.

Lemma values_inorder t : values t = map snd (inorder t).
Proof.
  unfold values, forEach. rewrite doVisitFull_list.
  cut (forall B acc, visit_list (fun (_ : K) (v : V) acc => (acc ++ [v], false)) B acc
                     = (acc ++ map snd B, false)).
  { intros H. rewrite H. reflexivity. }
  induction B as [|[k v] B IH]; intros acc; simpl; [rewrite app_nil_r; reflexivity|].
  rewrite IH, <- app_assoc. reflexivity.
Qed.

End Paths.

(** ** Bounds and ranges under a comparator *)

Section Bounds.
Context {K V : Type}.
Abbreviation tree := (@tree K V).
Abbreviation frame := (@frame K V).
Abbreviation iterator := (@iterator K V).
Implicit Types (t n m l r : tree) (stack rest : list frame) (f : frame) (it : iterator)
  (B A : list (K * V)).
Variable cmp : K -> K -> Z.
Hypothesis Hcmp : comparator cmp.

Arguments zip : simpl never.

Lemma cmp_refl x : cmp x x = 0.
Proof. destruct Hcmp as (Hs & _). specialize (Hs x x). lia. Qed.

Lemma cmp_eq_sym x y : cmp x y = 0 -> cmp y x = 0.
Proof. destruct Hcmp as (Hs & _). specialize (Hs x y). lia. Qed.

Lemma cmp_le_total x y : cmp x y <= 0 \/ cmp y x <= 0.
Proof. destruct Hcmp as (Hs & _). specialize (Hs x y). lia. Qed.

Lemma cmp_eq_trans x y z : cmp x y = 0 -> cmp y z = 0 -> cmp x z = 0.
Proof.
  intros H1 H2. destruct Hcmp as (Hs & Ht).
  assert (cmp x z <= 0) by (apply (Ht x y z); lia).
  assert (cmp z x <= 0).
  { apply (Ht z y x); [specialize (Hs y z)|specialize (Hs x y)]; lia. }
  specialize (Hs x z). lia.
Qed.

Lemma cmp_lt_le_trans x y z : cmp x y < 0 -> cmp y z <= 0 -> cmp x z < 0.
Proof.
  intros H1 H2. destruct Hcmp as (Hs & Ht).
  destruct (Z_lt_le_dec (cmp x z) 0) as [|Hge]; [assumption|exfalso].
  assert (cmp z x <= 0) by (specialize (Hs x z); lia).
  assert (cmp y x <= 0) by (apply (Ht y z x); assumption).
  specialize (Hs x y). lia.
Qed.

Lemma cmp_le_lt_trans x y z : cmp x y <= 0 -> cmp y z < 0 -> cmp x z < 0.
Proof.
  intros H1 H2. destruct Hcmp as (Hs & Ht).
  destruct (Z_lt_le_dec (cmp x z) 0) as [|Hge]; [assumption|exfalso].
  assert (cmp z x <= 0) by (specialize (Hs x z); lia).
  assert (cmp z y <= 0) by (apply (Ht z x y); assumption).
  specialize (Hs y z). lia.
Qed.

Lemma rising_le key : rising cmp key (fun d => d <=? 0).
Proof.
  intros a b Hab Ha. apply Z.leb_le in Ha. apply Z.leb_le.
  destruct Hcmp as (_ & Ht). exact (Ht _ _ _ Ha Hab).
Qed.

Lemma rising_lt key : rising cmp key (fun d => d <? 0).
Proof.
  intros a b Hab Ha. apply Z.ltb_lt in Ha. apply Z.ltb_lt.
  exact (cmp_lt_le_trans _ _ _ Ha Hab).
Qed.

Lemma rising_false key P a b :
  rising cmp key P -> cmp a b <= 0 -> P (cmp key b) = false -> P (cmp key a) = false.
Proof.
  intros HP Hab Hb. destruct (P (cmp key a)) eqn:E; [|reflexivity].
  rewrite (HP a b Hab E) in Hb. discriminate.
Qed.

(** The loop of [ge] and [gt]: the stack ends on the first entry that
    passes the test. *)
Lemma bound_loop_first key P (HP : rising cmp key P) n : forall stack last,
  StronglySorted (key_le cmp) (inorder n) ->
  exists B A, inorder n = B ++ A /\ Forall (holds cmp key P false) B /\ Forall (holds cmp key P true) A /\
    match A with
    | [] => bound_loop cmp P P key n stack last = last
    | _ :: _ => at_pos (zip n stack) (bound_loop cmp P P key n stack last) (ctx_before stack ++ B)
    end.
Proof.
  induction n as [|c k v l IHl r IHr cnt]; intros stack last Hs.
  - exists [], []. repeat split; auto.
  - simpl in Hs. apply StronglySorted_app in Hs. destruct Hs as (Hlr & Hl & Hr).
    apply StronglySorted_cons in Hr. destruct Hr as (Hkr & Hr).
    simpl. destruct (P (cmp key k)) eqn:E.
    + destruct (IHl (Frame Left c k v r cnt :: stack) (Some (Node c k v l r cnt, stack)) Hl)
        as (B & A & H1 & H2 & H3 & H4).
      exists B, (A ++ (k, v) :: inorder r). split; [rewrite H1; reassoc|].
      split; [exact H2|]. split.
      * apply Forall_app. split; [exact H3|]. constructor; [exact E|].
        eapply Forall_impl; [exact Hkr|]. intros e He. exact (HP _ _ He E).
      * destruct A as [|a A]; simpl.
        -- rewrite H4. simpl. split; [reflexivity|]. rewrite H1, app_nil_r. reflexivity.
        -- exact H4.
    + destruct (IHr (Frame Right c k v l cnt :: stack) last Hr) as (B & A & H1 & H2 & H3 & H4).
      exists (inorder l ++ (k, v) :: B), A. split; [rewrite H1; reassoc|].
      split; [|split; [exact H3|]].
      * apply Forall_app. split; [|constructor; [exact E|exact H2]].
        apply Forall_forall. intros e He.
        apply (rising_false key P (fst e) k HP); [|exact E].
        apply (Hlr e (k, v)); [exact He|left].
      * destruct A as [|a A]; [exact H4|].
        rewrite zip_cons in H4. unfold plug in H4; simpl in H4.
        replace (ctx_before stack ++ inorder l ++ (k, v) :: B)
          with ((ctx_before stack ++ inorder l ++ [(k, v)]) ++ B) by reassoc.
        exact H4.
Qed.

(** The loop of [lt] and [le]: the stack ends on the last entry that
    fails the test. *)
Lemma bound_loop_last key P mark (HP : rising cmp key P) (Hmark : forall d, mark d = negb (P d)) n :
  forall stack last,
  StronglySorted (key_le cmp) (inorder n) ->
  exists B A, inorder n = B ++ A /\ Forall (holds cmp key P false) B /\ Forall (holds cmp key P true) A /\
    (B = [] /\ bound_loop cmp mark P key n stack last = last \/
     exists B' e, B = B' ++ [e] /\
       at_pos (zip n stack) (bound_loop cmp mark P key n stack last) (ctx_before stack ++ B') /\
       valid (bound_loop cmp mark P key n stack last) = true).
Proof.
  induction n as [|c k v l IHl r IHr cnt]; intros stack last Hs.
  - exists [], []. repeat split; auto.
  - simpl in Hs. apply StronglySorted_app in Hs. destruct Hs as (Hlr & Hl & Hr).
    apply StronglySorted_cons in Hr. destruct Hr as (Hkr & Hr).
    simpl. rewrite Hmark. destruct (P (cmp key k)) eqn:E; simpl.
    + destruct (IHl (Frame Left c k v r cnt :: stack) last Hl) as (B & A & H1 & H2 & H3 & H4).
      exists B, (A ++ (k, v) :: inorder r). split; [rewrite H1; reassoc|].
      split; [exact H2|]. split.
      * apply Forall_app. split; [exact H3|]. constructor; [exact E|].
        eapply Forall_impl; [exact Hkr|]. intros e He. exact (HP _ _ He E).
      * exact H4.
    + destruct (IHr (Frame Right c k v l cnt :: stack) (Some (Node c k v l r cnt, stack)) Hr)
        as (B & A & H1 & H2 & H3 & H4).
      exists (inorder l ++ (k, v) :: B), A. split; [rewrite H1; reassoc|].
      split; [|split; [exact H3|]].
      * apply Forall_app. split; [|constructor; [exact E|exact H2]].
        apply Forall_forall. intros e He.
        apply (rising_false key P (fst e) k HP); [|exact E].
        apply (Hlr e (k, v)); [exact He|left].
      * right. destruct H4 as [(-> & H4) | (B' & e & -> & H4 & H5)].
        -- exists (inorder l), (k, v). split; [reflexivity|]. rewrite H4. simpl.
           repeat split.
        -- exists (inorder l ++ (k, v) :: B'), e. split; [reassoc|]. split; [|exact H5].
           rewrite zip_cons in H4. unfold plug in H4; simpl in H4.
           replace (ctx_before stack ++ inorder l ++ (k, v) :: B')
             with ((ctx_before stack ++ inorder l ++ [(k, v)]) ++ B') by reassoc.
           exact H4.
Qed.

Lemma first_pos key P (HP : rising cmp key P) t :
  ordered cmp t ->
  exists B A, inorder t = B ++ A /\ Forall (holds cmp key P false) B /\ Forall (holds cmp key P true) A /\
    at_pos t (bound_loop cmp P P key t [] None) B.
Proof.
  intros Ho. destruct (bound_loop_first key P HP t [] None Ho) as (B & A & H1 & H2 & H3 & H4).
  exists B, A. repeat split; auto.
  destruct A as [|a A]; [|exact H4].
  rewrite H4. simpl. rewrite H1, app_nil_r. reflexivity.
Qed.

Lemma at_pos_head t it B A :
  at_pos t it B -> inorder t = B ++ A ->
  iterator_key it = head (map fst A) /\ iterator_value it = head (map snd A).
Proof.
  intros H HA. destruct (at_pos_entry t it B H) as (Hk & Hv).
  rewrite Hk, Hv, HA. destruct A as [|a A].
  - rewrite lookup_ge_None_2 by (rewrite app_nil_r; lia). split; reflexivity.
  - rewrite list_lookup_middle by reflexivity. split; reflexivity.
Qed.

Lemma gtb_negb_leb d : (d >? 0) = negb (d <=? 0).
Proof. rewrite Z.gtb_ltb. apply Z.ltb_antisym. Qed.

Lemma geb_negb_ltb d : (d >=? 0) = negb (d <? 0).
Proof. rewrite Z.geb_leb. apply Z.leb_antisym. Qed.

Lemma last_pos key P mark (HP : rising cmp key P) (Hmark : forall d, mark d = negb (P d)) t :
  ordered cmp t -> counted t ->
  exists B A, inorder t = B ++ A /\ Forall (holds cmp key P false) B /\ Forall (holds cmp key P true) A /\
    iterator_of t (bound_loop cmp mark P key t [] None) /\
    iterator_key (bound_loop cmp mark P key t [] None) = last (map fst B) /\
    index t (bound_loop cmp mark P key t [] None)
    = match B with [] => length t | _ :: _ => Z.of_nat (List.length B) - 1 end.
Proof.
  intros Ho Hc.
  destruct (bound_loop_last key P mark HP Hmark t [] None Ho) as (B & A & H1 & H2 & H3 & H4).
  exists B, A. split; [exact H1|]. split; [exact H2|]. split; [exact H3|].
  destruct H4 as [(-> & H4) | (B' & e & -> & H4 & H5)].
  - rewrite H4. simpl. repeat split.
  - change (zip t []) with t in H4. simpl in H4.
    split; [exact (at_pos_iterator_of _ _ _ H4)|]. split.
    + destruct (at_pos_entry _ _ _ H4) as (Hk & _). rewrite Hk, H1, <- app_assoc. simpl.
      rewrite list_lookup_middle by reflexivity. rewrite map_app. simpl.
      rewrite last_snoc. reflexivity.
    + rewrite (at_pos_index _ _ _ Hc H4).
      destruct (B' ++ [e]) as [|b B''] eqn:E; [destruct B'; discriminate|].
      rewrite <- E, length_app. simpl. lia.
Qed.

(** ** Range traversals *)

Lemma filter_none {X : Type} (P : X -> bool) (xs : list X) :
  Forall (fun x => P x = false) xs -> List.filter P xs = [].
Proof.
  induction 1 as [|x xs Hx _ IH]; simpl; [reflexivity|]. rewrite Hx. exact IH.
Qed.

Lemma below_lo lo k B :
  (forall e, e ∈ B -> cmp (fst e) k <= 0) -> (cmp lo k <=? 0) = false ->
  Forall (fun e => (cmp lo (fst e) <=? 0) = false) B.
Proof.
  intros HB E. apply Forall_forall. intros e He.
  exact (rising_false lo (fun d => d <=? 0) (fst e) k (rising_le lo) (HB e He) E).
Qed.

Lemma above_hi hi k A :
  Forall (fun e => cmp k (fst e) <= 0) A -> (cmp hi k >? 0) = false ->
  Forall (fun e => (cmp hi (fst e) >? 0) = false) A.
Proof.
  intros HA E. eapply Forall_impl; [exact HA|]. intros e He. simpl in He.
  rewrite Z.gtb_ltb in *. apply Z.ltb_ge in E. apply Z.ltb_ge.
  destruct Hcmp as (_ & Ht). exact (Ht _ _ _ E He).
Qed.

Lemma doVisitHalf_list {S : Type} (visit : K -> V -> S -> S * bool) lo t : forall st,
  StronglySorted (key_le cmp) (inorder t) ->
  doVisitHalf cmp lo visit t st
  = visit_list visit (List.filter (fun e => cmp lo (fst e) <=? 0) (inorder t)) st.
Proof.
  induction t as [|c k v l IHl r IHr cnt]; intros st Hs; simpl; [reflexivity|].
  simpl in Hs. apply StronglySorted_app in Hs. destruct Hs as (Hlr & Hl & Hr).
  apply StronglySorted_cons in Hr. destruct Hr as (Hkr & Hr).
  rewrite List.filter_app. simpl. destruct (cmp lo k <=? 0) eqn:E.
  - rewrite visit_list_app, (IHl _ Hl).
    destruct (visit_list visit _ st) as [st0 [|]]; [reflexivity|].
    simpl. destruct (visit k v st0) as [st1 [|]]; [reflexivity|]. apply IHr. exact Hr.
  - rewrite (filter_none _ (inorder l)); [apply IHr; exact Hr|].
    apply (below_lo lo k); [|exact E]. intros e He. apply (Hlr e (k, v)); [exact He|left].
Qed.

Lemma doVisit_list {S : Type} (visit : K -> V -> S -> S * bool) lo hi t : forall st,
  StronglySorted (key_le cmp) (inorder t) ->
  doVisit cmp lo hi visit t st
  = visit_list visit
      (List.filter (fun e => (cmp lo (fst e) <=? 0) && (cmp hi (fst e) >? 0)) (inorder t)) st.
Proof.
  induction t as [|c k v l IHl r IHr cnt]; intros st Hs; simpl; [reflexivity|].
  simpl in Hs. apply StronglySorted_app in Hs. destruct Hs as (Hlr & Hl & Hr).
  apply StronglySorted_cons in Hr. destruct Hr as (Hkr & Hr).
  rewrite List.filter_app. simpl.
  assert (Hbelow : (cmp lo k <=? 0) = false ->
                   List.filter (fun e => (cmp lo (fst e) <=? 0) && (cmp hi (fst e) >? 0))
                               (inorder l) = []).
  { intros E. apply filter_none.
    eapply Forall_impl; [apply (below_lo lo k); [|exact E]|].
    - intros e He. apply (Hlr e (k, v)); [exact He|left].
    - intros e He. simpl in He. rewrite He. reflexivity. }
  assert (Habove : (cmp hi k >? 0) = false ->
                   List.filter (fun e => (cmp lo (fst e) <=? 0) && (cmp hi (fst e) >? 0))
                               (inorder r) = []).
  { intros E. apply filter_none.
    eapply Forall_impl; [apply (above_hi hi k); [exact Hkr|exact E]|].
    intros e He. simpl in He. rewrite He. apply andb_false_r. }
  destruct (cmp lo k <=? 0) eqn:E1; destruct (cmp hi k >? 0) eqn:E2; simpl.
  - rewrite visit_list_app, (IHl _ Hl).
    destruct (visit_list visit _ st) as [st0 [|]]; [reflexivity|].
    simpl. destruct (visit k v st0) as [st1 [|]]; [reflexivity|]. apply IHr. exact Hr.
  - rewrite (Habove eq_refl), app_nil_r, (IHl _ Hl).
    destruct (visit_list visit _ st) as [st0 [|]]; reflexivity.
  - rewrite (Hbelow eq_refl). simpl. apply IHr. exact Hr.
  - rewrite (Hbelow eq_refl), (Habove eq_refl). reflexivity.
Qed.

Lemma empty_range lo hi B :
  cmp lo hi >= 0 ->
  List.filter (fun e : K * V => (cmp lo (fst e) <=? 0) && (cmp hi (fst e) >? 0)) B = [].
Proof.
  intros H. apply filter_none. apply Forall_forall. intros e _.
  destruct (cmp lo (fst e) <=? 0) eqn:E1; [|reflexivity].
  destruct (cmp hi (fst e) >? 0) eqn:E2; [exfalso|reflexivity].
  apply Z.leb_le in E1. rewrite Z.gtb_ltb in E2. apply Z.ltb_lt in E2.
  destruct Hcmp as (Hs & Ht).
  assert (cmp hi lo <= 0) by (specialize (Hs lo hi); lia).
  assert (cmp hi (fst e) <= 0) by (apply (Ht hi lo (fst e)); assumption). lia.
Qed.

(** ** Where [insert] puts the new entry *)

Lemma insert_path_before key : forall n stack,
  StronglySorted (key_le cmp) (inorder n) ->
  Forall (fun e => cmp key (fst e) > 0) (ctx_before stack) ->
  Forall (fun e => cmp key (fst e) > 0) (ctx_before (insert_path cmp key n stack)).
Proof.
  induction n as [|c k v l IHl r IHr cnt]; intros stack Hs Hb; simpl; auto.
  simpl in Hs. apply StronglySorted_app in Hs. destruct Hs as (Hlr & Hl & Hr).
  apply StronglySorted_cons in Hr. destruct Hr as (Hkr & Hr).
  destruct (cmp key k <=? 0) eqn:E.
  - apply IHl; auto.
  - apply IHr; auto. simpl. apply Forall_app. split; auto. apply Forall_app. split.
    + apply Forall_forall. intros e He.
      pose proof (rising_false key (fun d => d <=? 0) (fst e) k (rising_le key)
                    (Hlr e (k, v) He ltac:(left)) E) as H.
      simpl in H. apply Z.leb_gt in H. lia.
    + constructor; [|constructor]. simpl. apply Z.leb_gt in E. lia.
Qed.

Lemma split_unique {X : Type} (P : X -> bool) (xs : list X) : forall xs' ys ys',
  xs ++ ys = xs' ++ ys' ->
  Forall (fun x => P x = false) xs -> Forall (fun x => P x = true) ys ->
  Forall (fun x => P x = false) xs' -> Forall (fun x => P x = true) ys' ->
  xs = xs' /\ ys = ys'.
Proof.
  induction xs as [|x xs IH]; intros [|x' xs'] ys ys' H Hxs Hys Hxs' Hys'; simpl in H.
  - auto.
  - subst ys. inversion Hys; subst. inversion Hxs'; subst. congruence.
  - subst ys'. inversion Hys'; subst. inversion Hxs; subst. congruence.
  - inversion H; subst. inversion Hxs; subst. inversion Hxs'; subst.
    destruct (IH xs' ys ys') as (-> & ->); auto.
Qed.

(** ** Trees without equal keys *)

Lemma distinct_ordered t : distinct_keys cmp t -> ordered cmp t.
Proof.
  unfold distinct_keys, ordered. generalize (inorder t). intros es H.
  induction H as [|e es _ IH Hall]; constructor; [exact IH|].
  eapply Forall_impl; [exact Hall|]. intros x Hx. unfold key_le. simpl in Hx. lia.
Qed.

Lemma strict_unique (es : list (K * V)) e1 e2 :
  StronglySorted (fun a b => cmp (fst a) (fst b) < 0) es ->
  e1 ∈ es -> e2 ∈ es -> cmp (fst e1) (fst e2) = 0 -> e1 = e2.
Proof.
  intros Hs. induction Hs as [|e es _ IH Hall]; intros H1 H2 Heq.
  - inversion H1.
  - rewrite Forall_forall in Hall.
    apply elem_of_cons in H1. apply elem_of_cons in H2.
    destruct H1 as [-> | H1], H2 as [-> | H2]; auto.
    + specialize (Hall _ H2). lia.
    + specialize (Hall _ H1). apply cmp_eq_sym in Heq. lia.
Qed.

Lemma get_iff key t v :
  distinct_keys cmp t ->
  (get cmp key t = Some v <-> exists k, (k, v) ∈ inorder t /\ cmp key k = 0).
Proof.
  intros Hd. split; [apply get_sound|].
  intros (k & Hin & Hk).
  destruct (get_complete cmp Hcmp key t (k, v) (distinct_ordered t Hd) Hin Hk) as (v' & Hget).
  destruct (get_sound cmp key t v' Hget) as (k' & Hin' & Hk').
  assert (Heq : (k', v') = (k, v)).
  { apply (strict_unique (inorder t)); auto. simpl.
    apply (cmp_eq_trans k' key k); [apply cmp_eq_sym; exact Hk'|exact Hk]. }
  inversion Heq; subst. exact Hget.
Qed.

Lemma option_ext {X : Type} (a b : option X) :
  (forall x, a = Some x <-> b = Some x) -> a = b.
Proof.
  intros H. destruct a as [x|], b as [y|]; auto.
  - apply H. reflexivity.
  - symmetry. apply H. reflexivity.
  - apply (H y). reflexivity.
Qed.

Lemma get_none key t :
  ordered cmp t -> (get cmp key t = None <-> forall e, e ∈ inorder t -> cmp key (fst e) <> 0).
Proof.
  intros Ho. split.
  - intros H e He Hk. destruct (get_complete cmp Hcmp key t e Ho He Hk) as (v & Hv). congruence.
  - intros H. destruct (get cmp key t) as [v|] eqn:E; [|reflexivity].
    destruct (get_sound cmp key t v E) as (k & Hin & Hk). exfalso. exact (H _ Hin Hk).
Qed.

End Bounds.

End IteratorFacts.

(** * Proofs about the queries of the store *)

Module StoreFacts.

Section Queries.
Context {K V : Type}.
Variable cmp : K -> K -> Z.

Lemma length_reify depth (h : @Heap.heap K V) p t :
  Heap.reify depth h p = Some t -> Heap.length p h = (Ok (RedBlackTree.length t), h).
Proof.
  destruct p as [l|]; [|destruct depth; simpl; intros H; inversion H; reflexivity].
  destruct depth as [|d]; simpl; [discriminate|].
  unfold Heap.length, Heap.count_of, Heap.bind, Heap.read.
  destruct (h !! l) as [c|]; [|discriminate].
  destruct (Heap.reify d h (Heap.c_left c)), (Heap.reify d h (Heap.c_right c)); try discriminate.
  intros H. inversion H. reflexivity.
Qed.

Lemma get_reify key depth : forall fuel (h : @Heap.heap K V) p t,
  Heap.reify depth h p = Some t -> (depth <= fuel)%nat ->
  Heap.get cmp fuel key p h = (Ok (RedBlackTree.get cmp key t), h).
Proof.
  induction depth as [|d IH]; intros fuel h p t H Hf.
  - destruct p as [l|]; simpl in H; [discriminate|]. inversion H. destruct fuel; reflexivity.
  - destruct p as [l|]; simpl in H; [|inversion H; destruct fuel; reflexivity].
    destruct fuel as [|f]; [lia|]. simpl.
    unfold Heap.bind, Heap.read.
    destruct (h !! l) as [c|]; [|discriminate].
    destruct (Heap.reify d h (Heap.c_left c)) as [tl|] eqn:El; [|discriminate].
    destruct (Heap.reify d h (Heap.c_right c)) as [tr|] eqn:Er; [|discriminate].
    inversion H; subst. simpl.
    destruct (cmp key (Heap.c_key c) =? 0); [reflexivity|].
    destruct (cmp key (Heap.c_key c) <=? 0); apply IH; auto; lia.
Qed.

Lemma visit_keys_reify depth : forall fuel (h : @Heap.heap K V) n t acc,
  Heap.reify depth h (Some n) = Some t -> (depth <= fuel)%nat ->
  Heap.visit_keys fuel n acc h = (Ok (acc ++ map fst (RedBlackTree.inorder t)), h).
Proof.
  induction depth as [|d IH]; intros fuel h n t acc H Hf; simpl in H; [discriminate|].
  destruct fuel as [|f]; [lia|]. simpl.
  unfold Heap.bind, Heap.read.
  destruct (h !! n) as [c|]; [|discriminate].
  destruct (Heap.reify d h (Heap.c_left c)) as [tl|] eqn:El; [|discriminate].
  destruct (Heap.reify d h (Heap.c_right c)) as [tr|] eqn:Er; [|discriminate].
  inversion H; subst. simpl.
  assert (Hl : match Heap.c_left c with
               | Some l => Heap.visit_keys f l acc
               | None => Heap.ret acc
               end h = (Ok (acc ++ map fst (RedBlackTree.inorder tl)), h)).
  { destruct (Heap.c_left c) as [l|].
    - apply (IH f h l tl acc El). lia.
    - destruct d; simpl in El; inversion El; simpl; rewrite app_nil_r; reflexivity. }
  rewrite Hl.
  destruct (Heap.c_right c) as [r|].
  - rewrite (IH f h r tr _ Er) by lia. rewrite map_app, <- !app_assoc. reflexivity.
  - destruct d; simpl in Er; inversion Er; simpl.
    + rewrite map_app, <- !app_assoc. reflexivity.
    + rewrite map_app, <- !app_assoc. reflexivity.
Qed.

End Queries.

End StoreFacts.

(** * Proofs about [insert] on the store *)

Module InsertFacts.

Import RedBlackTree.

Abbreviation rep := Heap.rep.
Abbreviation cell_of_frame := Heap.cell_of_frame.
Abbreviation spine := Heap.spine.
Abbreviation focus := Heap.focus.
Abbreviation same_outside := Heap.same_outside.
Abbreviation wp := Heap.wp.
Abbreviation path_inv := Heap.path_inv.
Abbreviation old_path := Heap.old_path.

Section Rep.
Context {K V : Type}.
Abbreviation heap := (@Heap.heap K V).
Abbreviation cell := (@Heap.cell K V).
Abbreviation ptr := Heap.ptr.
Abbreviation tree := (@tree K V).
Abbreviation frame := (@frame K V).
Implicit Types (h : heap) (p : ptr) (t : tree).

Lemma reify_rep depth : forall h p t, Heap.reify depth h p = Some t -> rep h [] p t.
Proof.
  induction depth as [|d IH]; intros h [l|] t H; simpl in H; try discriminate;
    try (inversion H; constructor).
  destruct (h !! l) as [c|] eqn:E; [|discriminate].
  destruct (Heap.reify d h (Heap.c_left c)) as [tl|] eqn:El; [|discriminate].
  destruct (Heap.reify d h (Heap.c_right c)) as [tr|] eqn:Er; [|discriminate].
  inversion H; subst. apply Heap.rep_node; auto. apply not_elem_of_nil.
Qed.

Lemma reify_more depth : forall depth' h p t,
  Heap.reify depth h p = Some t -> (depth <= depth')%nat -> Heap.reify depth' h p = Some t.
Proof.
  induction depth as [|d IH]; intros d' h [l|] t H Hd; simpl in H; try discriminate.
  - inversion H. destruct d'; reflexivity.
  - destruct d' as [|d']; [lia|]. simpl.
    destruct (h !! l) as [c|] eqn:E; [|discriminate].
    destruct (Heap.reify d h (Heap.c_left c)) as [tl|] eqn:El; [|discriminate].
    destruct (Heap.reify d h (Heap.c_right c)) as [tr|] eqn:Er; [|discriminate].
    rewrite (IH d' _ _ _ El), (IH d' _ _ _ Er) by lia. exact H.
  - inversion H. destruct d'; reflexivity.
Qed.

Lemma rep_reify h avoid p t : rep h avoid p t -> exists depth, Heap.reify depth h p = Some t.
Proof.
  induction 1 as [|l c tl tr Hl Hn _ (d1 & H1) _ (d2 & H2)].
  - exists O. reflexivity.
  - exists (S (Nat.max d1 d2)). simpl. rewrite Hl.
    rewrite (reify_more d1 (Nat.max d1 d2) _ _ _ H1) by lia.
    rewrite (reify_more d2 (Nat.max d1 d2) _ _ _ H2) by lia. reflexivity.
Qed.

Lemma rep_mono h h' avoid p t :
  same_outside avoid h h' -> rep h avoid p t -> rep h' avoid p t.
Proof.
  intros Hs. induction 1; constructor; auto.
Qed.

Lemma rep_weaken h avoid avoid' p t :
  (forall l, l ∈ avoid' -> l ∈ avoid) -> rep h avoid p t -> rep h avoid' p t.
Proof.
  intros Hs. induction 1; constructor; auto.
Qed.

(** A tree of the store [h0] is there in every extension of it, away from
    the addresses allocated since. *)
Lemma rep_old h0 h avoid p t :
  h0 `prefix_of` h -> Forall (Heap.fresh h0) avoid -> rep h0 [] p t -> rep h avoid p t.
Proof.
  intros Hp Hf. induction 1 as [|l c tl tr Hl Hn _ IH1 _ IH2]; constructor; auto.
  - exact (prefix_lookup_Some _ _ _ _ Hl Hp).
  - intros Hin. rewrite Forall_forall in Hf. specialize (Hf l Hin).
    apply lookup_lt_Some in Hl. unfold Heap.fresh in Hf. lia.
Qed.

Lemma rep_count h avoid p t :
  rep h avoid p t -> Heap.count_of p h = (Ok (count t), h).
Proof.
  destruct 1 as [|l c tl tr Hl _ _ _]; simpl; [reflexivity|].
  unfold Heap.bind, Heap.read. rewrite Hl. reflexivity.
Qed.

Lemma rep_is_red h avoid p t :
  rep h avoid p t -> Heap.is_red p h = (Ok (is_red t), h).
Proof.
  destruct 1 as [|l c tl tr Hl _ _ _]; simpl; [reflexivity|].
  unfold Heap.bind, Heap.read. rewrite Hl. simpl. destruct (Heap.c_color c); reflexivity.
Qed.

Lemma same_outside_refl touched h : same_outside touched h h.
Proof. intros l c _ H. exact H. Qed.

Lemma same_outside_insert touched h h' l c :
  same_outside touched h h' -> l ∈ touched -> same_outside touched h (<[l := c]> h').
Proof.
  intros Hs Hin a x Ha Hx. unfold Heap.heap in *.
  rewrite list_lookup_insert_ne; [apply Hs; auto|].
  intros ->. contradiction.
Qed.

Lemma same_outside_app touched h h' more :
  same_outside touched h h' -> same_outside touched h (h' ++ more).
Proof. intros Hs a x Ha Hx. apply lookup_app_l_Some. apply Hs; auto. Qed.

Lemma same_outside_more touched touched' h h' :
  (forall l, l ∈ touched -> l ∈ touched') -> same_outside touched h h' ->
  same_outside touched' h h'.
Proof. intros Hs H l c Hl. apply H. intros Hin. apply Hl, Hs, Hin. Qed.

End Rep.

Section Paths.
Context {K V : Type}.
Variable cmp : K -> K -> Z.
Abbreviation heap := (@Heap.heap K V).
Abbreviation cell := (@Heap.cell K V).
Abbreviation ptr := Heap.ptr.
Abbreviation tree := (@tree K V).
Abbreviation frame := (@frame K V).
Implicit Types (h : heap) (p : ptr) (t : tree).

Lemma descend_path key depth : forall fuel h p t n_stack d_stack,
  Heap.reify depth h p = Some t -> (depth <= fuel)%nat ->
  exists addrs ds,
    Heap.insert_descend cmp fuel key p n_stack d_stack h
    = (Ok (n_stack ++ addrs, d_stack ++ ds), h) /\
    old_path cmp h key p t addrs ds.
Proof.
  induction depth as [|d IH]; intros fuel h [l|] t ns ds H Hf; simpl in H;
    try discriminate.
  - inversion H; subst. exists [], []. rewrite !app_nil_r. destruct fuel; simpl; auto.
  - destruct fuel as [|fuel]; [lia|]. simpl. unfold Heap.bind, Heap.read.
    destruct (h !! l) as [c|] eqn:E; [|discriminate].
    destruct (Heap.reify d h (Heap.c_left c)) as [tl|] eqn:El; [|discriminate].
    destruct (Heap.reify d h (Heap.c_right c)) as [tr|] eqn:Er; [|discriminate].
    inversion H; subst. simpl.
    pose proof (reify_rep _ _ _ _ El) as Rl. pose proof (reify_rep _ _ _ _ Er) as Rr.
    destruct (cmp key (Heap.c_key c) <=? 0) eqn:Ed.
    + destruct (IH fuel h _ _ (ns ++ [l]) (ds ++ [cmp key (Heap.c_key c)]) El)
        as (addrs & dvs & H1 & H2); [lia|].
      exists (l :: addrs), (cmp key (Heap.c_key c) :: dvs).
      rewrite H1, <- !app_assoc. split; [reflexivity|].
      exists l, c, addrs, dvs. repeat split; auto.
    + destruct (IH fuel h _ _ (ns ++ [l]) (ds ++ [cmp key (Heap.c_key c)]) Er)
        as (addrs & dvs & H1 & H2); [lia|].
      exists (l :: addrs), (cmp key (Heap.c_key c) :: dvs).
      rewrite H1, <- !app_assoc. split; [reflexivity|].
      exists l, c, addrs, dvs. repeat split; auto.
  - inversion H; subst. exists [], []. rewrite !app_nil_r. destruct fuel; simpl; auto.
Qed.

Lemma spine_mono h0 h h' : forall addrs child stack,
  (forall a c, a ∈ addrs -> h !! a = Some c -> h' !! a = Some c) ->
  spine h0 h child addrs stack -> spine h0 h' child addrs stack.
Proof.
  induction addrs as [|a addrs IH]; intros child [|f stack] Hs H; simpl in *; auto.
  destruct H as ((c & Hc & Hf) & H). split.
  - exists c. split; [apply Hs; [left|exact Hc]|exact Hf].
  - apply IH; [|exact H]. intros b x Hb. apply Hs. right. exact Hb.
Qed.

Lemma last_cons {A} (a : A) (l : list A) (d : A) : List.last (a :: l) d = List.last l a.
Proof.
  revert a d. induction l as [|b l IH]; intros a d; [reflexivity|].
  change (List.last (a :: b :: l) d) with (List.last (b :: l) d).
  rewrite (IH b d), (IH b a). reflexivity.
Qed.

Lemma spine_snoc h0 h b c f : forall addrs child stack,
  spine h0 h child addrs stack -> h !! b = Some c ->
  cell_of_frame h0 c (List.last addrs child) f ->
  spine h0 h child (addrs ++ [b]) (stack ++ [f]).
Proof.
  induction addrs as [|a addrs IH]; intros child [|g stack] H Hb Hf; simpl in H;
    try contradiction.
  - simpl. split; [exists c; auto|exact I].
  - destruct H as (Ha & H). simpl. split; [exact Ha|].
    apply IH; auto. rewrite last_cons in Hf. exact Hf.
Qed.

(** The loop that copies the path: after the iterations for the objects
    below an ancestor, the stack holds their copies, allocated one after
    the other. *)
Lemma rebuild_path key h0 : forall t p addrs ds pre dpre h child,
  old_path cmp h0 key p t addrs ds ->
  h0 `prefix_of` h -> List.length pre = List.length dpre ->
  exists bs h',
    Heap.insert_rebuild (List.length pre + List.length addrs) (pre ++ addrs ++ [child])
                        (dpre ++ ds) h
    = Heap.insert_rebuild (List.length pre) (pre ++ bs ++ [child]) (dpre ++ ds) h' /\
    h `prefix_of` h' /\
    rev bs = seq (List.length h) (List.length addrs) /\
    List.length h' = (List.length h + List.length addrs)%nat /\
    spine h0 h' child (rev bs) (insert_path cmp key t []).
Proof.
  induction t as [|c k v l IHl r IHr cnt]; intros p addrs ds pre dpre h child H Hp Hlen;
    simpl in H.
  - destruct H as (_ & -> & ->). exists [], h. simpl. rewrite !Nat.add_0_r. auto.
  - destruct H as (a & cc & addrs' & ds' & -> & Ha & <- & <- & <- & <- & Rl & Rr & -> & -> & H).
    assert (Hstep : forall bs' h1 (sub : tree) (Hs : spine h0 h1 child (rev bs') (insert_path cmp key sub [])),
      h `prefix_of` h1 ->
      rev bs' = seq (List.length h) (List.length addrs') ->
      List.length h1 = (List.length h + List.length addrs')%nat ->
      (if cmp key (Heap.c_key cc) <=? 0 then sub = l else sub = r) ->
      exists bs h',
        Heap.insert_rebuild (List.length (pre ++ [a]))
          ((pre ++ [a]) ++ bs' ++ [child]) ((dpre ++ [cmp key (Heap.c_key cc)]) ++ ds') h1
        = Heap.insert_rebuild (List.length pre) (pre ++ bs ++ [child])
            (dpre ++ cmp key (Heap.c_key cc) :: ds') h' /\
        h `prefix_of` h' /\
        rev bs = seq (List.length h) (S (List.length addrs')) /\
        List.length h' = (List.length h + S (List.length addrs'))%nat /\
        spine h0 h' child (rev bs)
          (insert_path cmp key (Node (Heap.c_color cc) (Heap.c_key cc) (Heap.c_value cc) l r
                                     (Heap.c_count cc)) [])).
    { intros bs' h1 sub Hs Hp1 Hrev Hl1 Hsub.
      pose (ch := List.last (rev bs') child).
      pose (new := if cmp key (Heap.c_key cc) <=? 0
                   then Heap.Cell (Heap.c_color cc) (Heap.c_key cc) (Heap.c_value cc)
                                  (Some ch) (Heap.c_right cc) (Heap.c_count cc + 1)
                   else Heap.Cell (Heap.c_color cc) (Heap.c_key cc) (Heap.c_value cc)
                                  (Heap.c_left cc) (Some ch) (Heap.c_count cc + 1)).
      exists (List.length h1 :: bs'), (h1 ++ [new]).
      assert (Hch : (bs' ++ [child]) !! O = Some ch).
      { unfold ch. destruct bs' as [|x bs']; [reflexivity|]. simpl.
        rewrite List.last_last. reflexivity. }
      split; [|split; [|split; [|split]]].
      - rewrite length_app. simpl. rewrite Nat.add_1_r. simpl.
        unfold Heap.stack_get, Heap.bind, Heap.read, Heap.alloc, Heap.ret.
        rewrite <- !app_assoc. simpl.
        rewrite (list_lookup_middle pre _ a (List.length pre) eq_refl).
        pose proof (prefix_lookup_Some _ _ _ _ Ha (transitivity Hp Hp1)) as Ha1.
        unfold Heap.heap in *. rewrite Ha1.
        rewrite (list_lookup_middle dpre _ _ (List.length pre) Hlen).
        assert (Hnext : (pre ++ a :: bs' ++ [child]) !! S (List.length pre) = Some ch).
        { rewrite lookup_app_r by lia.
          replace (S (List.length pre) - List.length pre)%nat with 1%nat by lia. exact Hch. }
        rewrite Hnext.
        rewrite (insert_app_r_alt pre) by lia. rewrite Nat.sub_diag. simpl.
        fold new. reflexivity.
      - etrans; [exact Hp1|]. apply prefix_app_r. reflexivity.
      - rewrite seq_S. cbn [rev]. rewrite Hrev, Hl1. reflexivity.
      - rewrite length_app, Hl1. simpl. lia.
      - simpl rev.
        assert (Hnew : (h1 ++ [new]) !! List.length h1 = Some new)
          by (apply list_lookup_middle; reflexivity).
        assert (Hs' : spine h0 (h1 ++ [new]) child (rev bs') (insert_path cmp key sub [])).
        { eapply spine_mono; [|exact Hs]. intros b x _ Hx. apply lookup_app_l_Some. exact Hx. }
        simpl. destruct (cmp key (Heap.c_key cc) <=? 0) eqn:Ed; subst sub;
          rewrite RBFacts.insert_path_app; (apply (spine_snoc _ _ _ new); [exact Hs'|exact Hnew|]);
          unfold cell_of_frame, new; simpl; auto 10. }
    destruct (cmp key (Heap.c_key cc) <=? 0) eqn:Ed.
    + destruct (IHl _ _ _ (pre ++ [a]) (dpre ++ [cmp key (Heap.c_key cc)]) h child H Hp)
        as (bs' & h1 & E1 & Hp1 & Hrev & Hl1 & Hs).
      { rewrite !length_app. simpl. lia. }
      destruct (Hstep bs' h1 l Hs Hp1 Hrev Hl1 eq_refl) as (bs & h' & E2 & R).
      exists bs, h'. split; [|exact R].
      rewrite <- E2, <- E1. rewrite length_app, <- !app_assoc. simpl.
      replace (List.length pre + 1 + List.length addrs')%nat
        with (List.length pre + S (List.length addrs'))%nat by lia. reflexivity.
    + destruct (IHr _ _ _ (pre ++ [a]) (dpre ++ [cmp key (Heap.c_key cc)]) h child H Hp)
        as (bs' & h1 & E1 & Hp1 & Hrev & Hl1 & Hs).
      { rewrite !length_app. simpl. lia. }
      destruct (Hstep bs' h1 r Hs Hp1 Hrev Hl1 eq_refl) as (bs & h' & E2 & R).
      exists bs, h'. split; [|exact R].
      rewrite <- E2, <- E1. rewrite length_app, <- !app_assoc. simpl.
      replace (List.length pre + 1 + List.length addrs')%nat
        with (List.length pre + S (List.length addrs'))%nat by lia. reflexivity.
Qed.

End Paths.

Section Wp.
Context {K V : Type}.
Abbreviation heap := (@Heap.heap K V).
Abbreviation cell := (@Heap.cell K V).
Abbreviation ptr := Heap.ptr.
Abbreviation tree := (@tree K V).
Abbreviation frame := (@frame K V).
Abbreviation M := (@Heap.M K V).
Implicit Types (h : heap) (p : ptr) (t : tree).

Lemma wp_ret {A} (a : A) h (Q : A -> heap -> Prop) : Q a h -> wp (Heap.ret a) h Q.
Proof. intros H. exact H. Qed.

Lemma wp_bind {A B} (m : M A) (k : A -> M B) h (Q : B -> heap -> Prop) :
  wp m h (fun a h' => wp (k a) h' Q) -> wp (Heap.bind m k) h Q.
Proof.
  unfold wp, Heap.bind. destruct (m h) as [[a| |] h']; auto.
Qed.

Lemma wp_mono {A} (m : M A) h (Q Q' : A -> heap -> Prop) :
  wp m h Q -> (forall a h', Q a h' -> Q' a h') -> wp m h Q'.
Proof.
  unfold wp. destruct (m h) as [[a| |] h']; auto.
Qed.

Lemma wp_read l c h (Q : cell -> heap -> Prop) :
  h !! l = Some c -> Q c h -> wp (Heap.read l) h Q.
Proof. intros Hl HQ. unfold wp, Heap.read. rewrite Hl. exact HQ. Qed.

Lemma wp_modify l f c h (Q : unit -> heap -> Prop) :
  h !! l = Some c -> Q tt (<[l := f c]> h) -> wp (Heap.modify l f) h Q.
Proof. intros Hl HQ. unfold wp, Heap.modify. rewrite Hl. exact HQ. Qed.

Lemma wp_alloc c h (Q : nat -> heap -> Prop) :
  Q (List.length h) (h ++ [c]) -> wp (Heap.alloc c) h Q.
Proof. intros HQ. exact HQ. Qed.

Lemma wp_stack_get (stack : list nat) i l h (Q : nat -> heap -> Prop) :
  stack !! i = Some l -> Q l h -> wp (Heap.stack_get stack i) h Q.
Proof. intros Hl HQ. unfold wp, Heap.stack_get. rewrite Hl. exact HQ. Qed.

Lemma wp_count_of h avoid p t (Q : Z -> heap -> Prop) :
  rep h avoid p t -> Q (count t) h -> wp (Heap.count_of p) h Q.
Proof. intros Hr HQ. unfold wp. rewrite (rep_count _ _ _ _ Hr). exact HQ. Qed.

Lemma wp_is_red h avoid p t (Q : bool -> heap -> Prop) :
  rep h avoid p t -> Q (is_red t) h -> wp (Heap.is_red p) h Q.
Proof. intros Hr HQ. unfold wp. rewrite (rep_is_red _ _ _ _ Hr). exact HQ. Qed.

Lemma wp_run {A} (m : M A) h (Q : A -> heap -> Prop) :
  wp m h Q -> exists a h', m h = (Ok a, h') /\ Q a h'.
Proof. unfold wp. destruct (m h) as [[a| |] h']; try contradiction. eauto. Qed.

Lemma rep_ptr_neq h avoid p t a :
  rep h avoid p t -> a ∈ avoid -> Heap.ptr_eqb p (Some a) = false.
Proof.
  destruct 1 as [|l c tl tr _ Hn _ _]; intros Ha; simpl; [reflexivity|].
  apply Nat.eqb_neq. intros ->. contradiction.
Qed.

Lemma rep_old_neq (h0 : heap) p t a :
  rep h0 [] p t -> Heap.fresh h0 a -> Heap.ptr_eqb p (Some a) = false.
Proof.
  destruct 1 as [|l c tl tr Hl _ _ _]; intros Ha; simpl; [reflexivity|].
  apply Nat.eqb_neq. apply lookup_lt_Some in Hl. unfold Heap.fresh in Ha. lia.
Qed.

Lemma rep_node' h avoid l c col k v tl tr cnt :
  h !! l = Some c -> l ∉ avoid ->
  Heap.c_color c = col -> Heap.c_key c = k -> Heap.c_value c = v -> Heap.c_count c = cnt ->
  rep h avoid (Heap.c_left c) tl -> rep h avoid (Heap.c_right c) tr ->
  rep h avoid (Some l) (Node col k v tl tr cnt).
Proof. intros Hl Hn <- <- <- <- H1 H2. apply Heap.rep_node; assumption. Qed.

Lemma focus_rep h avoid n t : focus h (n :: avoid) n t -> n ∉ avoid -> rep h avoid (Some n) t.
Proof.
  intros (c & tl & tr & Hc & -> & Hl & Hr) Hn. apply Heap.rep_node; auto.
  - eapply rep_weaken; [|exact Hl]. intros l Hin. right. exact Hin.
  - eapply rep_weaken; [|exact Hr]. intros l Hin. right. exact Hin.
Qed.

Lemma focus_mono touched h h' avoid n t :
  same_outside touched h h' -> n ∉ touched -> (forall l, l ∈ touched -> l ∈ avoid) ->
  focus h avoid n t -> focus h' avoid n t.
Proof.
  intros Hs Hn Hsub (c & tl & tr & Hc & -> & Hl & Hr).
  exists c, tl, tr. split; [apply Hs; assumption|]. split; [reflexivity|].
  split; (eapply rep_mono; [|eassumption]); eapply same_outside_more; eauto.
Qed.

Section Loop.
Variable h0 : heap.

(** When the loop ends at [n], the first entry of the stack is the root of
    the tree zipped from there. *)
Lemma finish : forall addrs stack h n t junk,
  path_inv h0 h n addrs stack t ->
  exists root, (rev addrs ++ n :: junk) !! O = Some root /\
    focus h [root] root (zip t stack) /\ Heap.fresh h0 root.
Proof.
  induction addrs as [|a addrs IH]; intros [|f stack] h n t junk (Hnd & Hfr & Hext & Hsp & Hfoc);
    simpl in Hsp; try contradiction.
  - exists n. simpl. split; [reflexivity|]. split; [exact Hfoc|].
    inversion Hfr; assumption.
  - destruct Hsp as ((c & Hc & Hcf) & Hsp).
    simpl rev. rewrite <- app_assoc. simpl. apply IH.
    inversion Hnd as [|? ? Hn Hnd']; subst. inversion Hfr as [|? ? _ Hfr']; subst.
    split; [exact Hnd'|]. split; [exact Hfr'|]. split; [exact Hext|]. split; [exact Hsp|].
    pose proof (focus_rep _ _ _ _ Hfoc Hn) as Hr.
    destruct Hcf as (E1 & E2 & E3 & E4 & Hd).
    unfold plug. destruct (fdir f); destruct Hd as (Ech & Hsib).
    + exists c, t, (fsib f). rewrite E1, E2, E3, E4. split; [exact Hc|]. split; [reflexivity|].
      rewrite Ech. split; [exact Hr|]. eapply rep_old; eauto.
    + exists c, (fsib f), t. rewrite E1, E2, E3, E4. split; [exact Hc|]. split; [reflexivity|].
      rewrite Ech. split; [|exact Hr]. eapply rep_old; eauto.
Qed.

Lemma stack_top (arest : list nat) (ppp : nat) (junk : list nat) :
  (rev (ppp :: arest) ++ junk) !! List.length arest = Some ppp.
Proof.
  simpl. rewrite <- app_assoc. apply list_lookup_middle. rewrite length_rev. reflexivity.
Qed.

Lemma prefix_insert_fresh h l (c : cell) :
  h0 `prefix_of` h -> Heap.fresh h0 l -> h0 `prefix_of` <[l := c]> h.
Proof.
  intros (k & ->) Hl. unfold Heap.heap in *. rewrite insert_app_r_alt by exact Hl. apply prefix_app_r. reflexivity.
Qed.

(** [if (s >= 3) { ppp = n_stack[s - 3]; ... }]: the object above the
    rotated ones now links to the new root [x] of the rotated subtree. *)
Lemma relink_spec (left_first : bool) h app x arest rest junk :
  spine h0 h app arest rest -> NoDup arest -> Forall (Heap.fresh h0) arest ->
  Heap.fresh h0 app -> h0 `prefix_of` h ->
  wp ((if left_first then Heap.relink_left_first else Heap.relink_right_first)
        (rev arest ++ junk) (S (S (List.length arest))) app x) h
     (fun _ h' => spine h0 h' x arest rest /\ same_outside arest h h' /\ h0 `prefix_of` h').
Proof.
  intros Hsp Hnd Hfr Happ Hext.
  destruct arest as [|ppp arest]; destruct rest as [|f rest]; simpl in Hsp; try contradiction.
  - destruct left_first; apply wp_ret; auto using same_outside_refl.
  - destruct Hsp as ((c & Hc & E1 & E2 & E3 & E4 & Hd) & Hsp).
    inversion Hnd as [|? ? Hn Hnd']; subst. inversion Hfr as [|? ? Hf Hfr']; subst.
    assert (Hpost : forall c', Heap.c_color c' = Heap.c_color c -> Heap.c_key c' = Heap.c_key c ->
              Heap.c_value c' = Heap.c_value c -> Heap.c_count c' = Heap.c_count c ->
              match fdir f with
              | Left => Heap.c_left c' = Some x /\ Heap.c_right c' = Heap.c_right c
              | Right => Heap.c_right c' = Some x /\ Heap.c_left c' = Heap.c_left c
              end ->
              spine h0 (<[ppp := c']> h) x (ppp :: arest) (f :: rest) /\
              same_outside (ppp :: arest) h (<[ppp := c']> h) /\
              h0 `prefix_of` <[ppp := c']> h).
    { intros c' F1 F2 F3 F4 Fd. split; [|split].
      - simpl. split.
        + exists c'. split.
          * apply list_lookup_insert_eq. eapply lookup_lt_Some; exact Hc.
          * unfold cell_of_frame. rewrite F1, F2, F3, F4.
            repeat (split; [assumption|]).
            destruct (fdir f); destruct Hd as (_ & Hs); destruct Fd as (G1 & G2);
              rewrite G2; auto.
        + eapply spine_mono; [|exact Hsp]. intros a y Ha Hy.
          unfold Heap.heap in *. rewrite list_lookup_insert_ne; [exact Hy|].
          intros <-. contradiction.
      - apply same_outside_insert; [apply same_outside_refl|left].
      - apply prefix_insert_fresh; assumption. }
    assert (Hstack : (rev (ppp :: arest) ++ junk)
                       !! (S (S (List.length (ppp :: arest))) - 3)%nat = Some ppp).
    { replace (S (S (List.length (ppp :: arest))) - 3)%nat with (List.length arest)
        by (simpl; lia). apply stack_top. }
    destruct left_first.
    + unfold Heap.relink_left_first.
      replace (3 <=? S (S (List.length (ppp :: arest))))%nat with true
        by (symmetry; apply Nat.leb_le; simpl; lia).
      apply wp_bind. eapply wp_stack_get; [exact Hstack|].
      unfold Heap.get_left. apply wp_bind, wp_bind. eapply wp_read; [exact Hc|].
      apply wp_ret. destruct (fdir f) eqn:Ed; destruct Hd as (Ech & Hs).
      * rewrite Ech. simpl. rewrite Nat.eqb_refl.
        eapply wp_modify; [exact Hc|]. apply Hpost; simpl; auto.
      * rewrite (rep_old_neq _ _ _ _ Hs Happ).
        eapply wp_modify; [exact Hc|]. apply Hpost; simpl; auto.
    + unfold Heap.relink_right_first.
      replace (3 <=? S (S (List.length (ppp :: arest))))%nat with true
        by (symmetry; apply Nat.leb_le; simpl; lia).
      apply wp_bind. eapply wp_stack_get; [exact Hstack|].
      unfold Heap.get_right. apply wp_bind, wp_bind. eapply wp_read; [exact Hc|].
      apply wp_ret. destruct (fdir f) eqn:Ed; destruct Hd as (Ech & Hs).
      * rewrite (rep_old_neq _ _ _ _ Hs Happ).
        eapply wp_modify; [exact Hc|]. apply Hpost; simpl; auto.
      * rewrite Ech. simpl. rewrite Nat.eqb_refl.
        eapply wp_modify; [exact Hc|]. apply Hpost; simpl; auto.
Qed.

(** The end of a rotation: the object above is linked to the new root [x]
    of the rotated subtree, and the loop ends. *)
Lemma rotate_end (left_first : bool) h x app arest rest t junk :
  spine h0 h app arest rest -> NoDup (x :: arest) -> Forall (Heap.fresh h0) (x :: arest) ->
  Heap.fresh h0 app -> h0 `prefix_of` h -> focus h (x :: arest) x t ->
  wp ((if left_first then Heap.relink_left_first else Heap.relink_right_first)
        (rev arest ++ x :: junk) (S (S (List.length arest))) app x) h
     (fun _ h' =>
        wp (Heap.ret (rev arest ++ x :: junk)) h'
           (fun st h'' => exists root, st !! O = Some root /\
              focus h'' [root] root (zip t rest) /\ Heap.fresh h0 root /\
              h0 `prefix_of` h'')).
Proof.
  intros Hsp Hnd Hfr Happ Hext Hfoc.
  inversion Hnd as [|? ? Hx Hnd']; subst. inversion Hfr as [|? ? Hfx Hfr']; subst.
  eapply wp_mono; [apply (relink_spec left_first); eassumption|].
  intros [] h' (Hsp' & Hso & Hext'). apply wp_ret.
  destruct (finish arest rest h' x t junk) as (root & H1 & H2 & H3).
  { split; [exact Hnd|]. split; [exact Hfr|]. split; [exact Hext'|]. split; [exact Hsp'|].
    eapply focus_mono; [exact Hso|exact Hx| |exact Hfoc]. intros l Hl. right. exact Hl. }
  exists root. auto.
Qed.

Lemma stack_shape (arest : list nat) (app ap n : nat) (junk : list nat) :
  rev (ap :: app :: arest) ++ n :: junk = rev arest ++ app :: ap :: n :: junk.
Proof. simpl. rewrite <- !app_assoc. reflexivity. Qed.

Lemma stack_rotated (arest : list nat) (a b c x y : nat) (junk : list nat) :
  <[S (List.length arest) := y]> (<[List.length arest := x]> (rev arest ++ a :: b :: c :: junk))
  = rev arest ++ x :: y :: c :: junk.
Proof.
  rewrite <- (length_rev arest).
  rewrite (insert_app_r_alt (rev arest)) by lia. rewrite Nat.sub_diag. simpl.
  rewrite (insert_app_r_alt (rev arest)) by lia.
  replace (S (List.length (rev arest)) - List.length (rev arest))%nat with 1%nat by lia.
  reflexivity.
Qed.

Lemma spine_same touched h h' : forall addrs child stack,
  same_outside touched h h' -> (forall a, a ∈ addrs -> a ∉ touched) ->
  spine h0 h child addrs stack -> spine h0 h' child addrs stack.
Proof.
  intros addrs child stack Hs Hd. apply spine_mono. intros a c Ha. apply Hs, Hd, Ha.
Qed.

Lemma spine_bound h : forall addrs child stack,
  spine h0 h child addrs stack -> Forall (fun a => (a < List.length h)%nat) addrs.
Proof.
  induction addrs as [|a addrs IH]; intros child [|f stack] H; simpl in H;
    try contradiction; constructor.
  - destruct H as ((c & Hc & _) & _). eapply lookup_lt_Some; exact Hc.
  - eapply IH. apply H.
Qed.

Lemma prefix_app_more h (more : heap) : h0 `prefix_of` h -> h0 `prefix_of` h ++ more.
Proof. intros H. etrans; [exact H|]. apply prefix_app_r. reflexivity. Qed.

Ltac len := repeat first [rewrite length_insert | rewrite length_app]; simpl; lia.

Ltac look :=
  unfold Heap.heap in *;
  repeat first
    [ rewrite list_lookup_insert_eq by len
    | rewrite list_lookup_insert_ne by lia
    | rewrite lookup_app_l by len
    | rewrite list_lookup_middle by len ];
  first [eassumption | reflexivity].

Ltac wp_unfold :=
  unfold Heap.set_color, Heap.set_left, Heap.set_right, Heap.set_count,
    Heap.get_color, Heap.get_left, Heap.get_right, Heap.repaint, Heap.recount, Heap.deref.

Ltac solve_in := first [assumption | left | right; solve_in].

Ltac solve_same :=
  repeat first
    [ apply same_outside_refl
    | apply same_outside_app
    | apply same_outside_insert; [|solve_in] ].

Ltac wp_step :=
  lazymatch goal with
  | |- wp (Heap.bind _ _) _ _ => apply wp_bind
  | |- wp (Heap.ret _) _ _ => apply wp_ret
  | |- wp (Heap.stack_get _ _) _ _ => eapply wp_stack_get; [eassumption|]
  | |- wp (Heap.read _) _ _ => eapply wp_read; [look|]
  | |- wp (Heap.modify _ _) _ _ => eapply wp_modify; [look|]
  | |- wp (Heap.alloc _) _ _ => apply wp_alloc; unfold Heap.heap in *; rewrite ?length_insert
  | |- wp (Heap.count_of (Some _)) _ _ => cbn [Heap.count_of]
  | |- wp (Heap.count_of _) _ _ =>
      eapply wp_count_of; [eapply rep_mono; [|eassumption]; solve_same|]
  end;
  cbv beta;
  cbn [Heap.c_left Heap.c_right Heap.c_color Heap.c_key Heap.c_value Heap.c_count
       Heap.with_color Heap.with_left Heap.with_right Heap.with_count].

Ltac wp_go := repeat (first [progress wp_unfold | wp_step]).

Ltac solve_prefix :=
  repeat first
    [ assumption
    | apply prefix_app_more
    | apply prefix_insert_fresh; [|assumption] ].

Ltac solve_notin :=
  rewrite ?not_elem_of_cons; repeat split;
  first
    [ assumption
    | lia
    | apply not_elem_of_nil
    | let Hin := fresh "Hin" in
      intros Hin;
      match goal with
      | B : Forall (fun a => (a < _)%nat) ?l, Hin : _ ∈ ?l |- _ =>
          apply (proj1 (Forall_forall _ _) B) in Hin; lia
      end ].

Ltac solve_incl :=
  let l := fresh "l" in
  let Hl := fresh "Hl" in
  intros l Hl; rewrite ?elem_of_cons in Hl; rewrite ?elem_of_nil in Hl;
  rewrite ?elem_of_cons; tauto.

Ltac solve_rep HS :=
  cbn [Heap.c_left Heap.c_right Heap.c_color Heap.c_key Heap.c_value Heap.c_count
       Heap.with_color Heap.with_left Heap.with_right Heap.with_count];
  lazymatch goal with
  | |- rep _ _ (Some _) _ =>
      eapply rep_node';
      [ look | solve_notin | reflexivity | reflexivity | reflexivity | reflexivity
      | solve_rep HS | solve_rep HS ]
  | |- rep _ _ _ _ =>
      eapply rep_weaken; [|eapply rep_mono; [exact HS|eassumption]]; solve_incl
  end.

Lemma rep_node_inv h avoid p c k v l r cnt :
  rep h avoid p (Node c k v l r cnt) ->
  exists a lft rgt, p = Some a /\ h !! a = Some (Heap.Cell c k v lft rgt cnt) /\
    (a ∉ avoid) /\ rep h avoid lft l /\ rep h avoid rgt r.
Proof.
  inversion 1 as [|a cc ? ? Ha Hn Hl Hr]; subst. destruct cc. simpl in *.
  eauto 10.
Qed.

(** The rebalancing loop ends with the root of the rebalanced tree first
    in the stack. *)
Lemma rebalance_spec : forall s h n addrs stack t junk,
  List.length addrs = s -> path_inv h0 h n addrs stack t ->
  wp (Heap.insert_rebalance s (rev addrs ++ n :: junk)) h
     (fun st h' => exists root, st !! O = Some root /\
        focus h' [root] root (rebalance t stack) /\ Heap.fresh h0 root /\
        h0 `prefix_of` h').
Proof.
  induction s as [| |s IH] using HeapFacts.nat_ind2; intros h n addrs stack t junk Hlen Hinv.
  - destruct addrs; [|discriminate]. simpl. apply wp_ret.
    destruct (finish [] stack h n t junk Hinv) as (root & H1 & H2 & H3).
    destruct Hinv as (_ & _ & Hext & Hsp & _). destruct stack; [|contradiction].
    exists root. auto.
  - destruct addrs as [|a [|? ?]]; try discriminate. apply wp_ret.
    destruct (finish [a] stack h n t junk Hinv) as (root & H1 & H2 & H3).
    destruct Hinv as (_ & _ & Hext & Hsp & _).
    destruct stack as [|f [|? ?]]; simpl in Hsp; try tauto.
    exists root. auto.
  - destruct addrs as [|ap [|app arest]]; try discriminate.
    simpl in Hlen. injection Hlen as Hlen. subst s.
    pose proof Hinv as (Hnd & Hfr & Hext & Hsp & Hfoc).
    destruct stack as [|p [|pp rest]]; simpl in Hsp; try tauto.
    destruct Hsp as ((cp & Hp & Hcp) & (cpp & Hpp & Hcpp) & Hrest).
    destruct Hfoc as (cn & tl & tr & Hn & -> & Rl & Rr).
    rewrite stack_shape.
    assert (S0 : (rev arest ++ app :: ap :: n :: junk) !! List.length arest = Some app).
    { apply list_lookup_middle. rewrite length_rev. reflexivity. }
    assert (S1 : (rev arest ++ app :: ap :: n :: junk) !! S (List.length arest) = Some ap).
    { rewrite lookup_app_r by (rewrite length_rev; lia). rewrite length_rev.
      replace (S (List.length arest) - List.length arest)%nat with 1%nat by lia. reflexivity. }
    assert (S2 : (rev arest ++ app :: ap :: n :: junk) !! S (S (List.length arest)) = Some n).
    { rewrite lookup_app_r by (rewrite length_rev; lia). rewrite length_rev.
      replace (S (S (List.length arest)) - List.length arest)%nat with 2%nat by lia.
      reflexivity. }
    cbn [Heap.insert_rebalance].
    destruct cn as [nc nk nv nl nr ncnt], cp as [pc0 pk0 pv0 pl pr pcnt0],
      cpp as [ppc0 ppk0 ppv0 ppl ppr ppcnt0].
    destruct p as [pd pc pk pv ps pcnt], pp as [ppd ppc ppk ppv pps ppcnt].
    unfold cell_of_frame in Hcp, Hcpp. simpl in Hcp, Hcpp, Rl, Rr, Hinv |- *.
    destruct Hcp as (-> & -> & -> & -> & Hcp), Hcpp as (-> & -> & -> & -> & Hcpp).
    pose proof (spine_bound _ _ _ _ Hrest) as Brest.
    pose proof Hnd as Hnd'. rewrite !NoDup_cons, !not_elem_of_cons in Hnd'.
    destruct Hnd' as ((Dn1 & Dn2 & Dn3) & (Dp1 & Dp2) & Dpp & Drest).
    pose proof Hfr as Hfr'. rewrite !Forall_cons in Hfr'.
    destruct Hfr' as (Fn & Fp & Fpp & Frest).
    pose proof (lookup_lt_Some _ _ _ Hn) as Ln. pose proof (lookup_lt_Some _ _ _ Hp) as Lp.
    pose proof (lookup_lt_Some _ _ _ Hpp) as Lpp.
    pose proof Fn as Gn. pose proof Fp as Gp. pose proof Fpp as Gpp.
    unfold Heap.fresh in Gn, Gp, Gpp.
    assert (Hend : wp (Heap.ret (rev arest ++ app :: ap :: n :: junk)) h
              (fun st h' => exists root, st !! O = Some root /\
                 focus h' [root] root
                   (zip (Node nc nk nv tl tr ncnt)
                        (Frame pd pc pk pv ps pcnt :: Frame ppd ppc ppk ppv pps ppcnt :: rest)) /\
                 Heap.fresh h0 root /\ h0 `prefix_of` h')).
    { apply wp_ret. rewrite <- stack_shape.
      destruct (finish _ _ _ _ _ junk Hinv) as (root & H1 & H2 & H3).
      exists root. auto. }
    wp_go. cbn [Heap.c_color].
    destruct pc; [|exact Hend].
    cbn [color_eqb orb]. wp_go. cbn [Heap.c_color].
    destruct nc; [|exact Hend].
    cbn [color_eqb orb]. clear Hend. wp_go. cbn [Heap.c_left Heap.c_right].
    assert (Hdis : forall a, a ∈ arest -> a ∉ [n; ap; app]).
    { intros a Ha. rewrite !not_elem_of_cons.
      repeat split; try apply not_elem_of_nil; intros ->; contradiction. }
    assert (Hin_n : n ∈ n :: ap :: app :: arest) by solve_in.
    assert (Hin_p : ap ∈ n :: ap :: app :: arest) by solve_in.
    assert (Hin_pp : app ∈ n :: ap :: app :: arest) by solve_in.
    destruct ppd, pd; destruct Hcpp as (-> & Rpps0), Hcp as (-> & Rps0);
      pose proof (rep_old h0 h _ _ _ Hext Hfr Rps0) as Rps;
      pose proof (rep_old h0 h _ _ _ Hext Hfr Rpps0) as Rpps;
      cbn [Heap.ptr_eqb]; rewrite ?Nat.eqb_refl, ?(rep_ptr_neq _ _ _ _ _ Rpps Hin_p);
      wp_go; cbn [Heap.c_left Heap.c_right Heap.ptr_eqb];
      rewrite ?Nat.eqb_refl, ?(rep_ptr_neq _ _ _ _ _ Rps Hin_n); wp_go;
      cbn [Heap.c_left Heap.c_right];
      (eapply wp_is_red; [exact Rpps|]);
      (destruct (is_red pps) eqn:Ered;
       [destruct pps as [|[] yk yv yl yr ycnt]; try discriminate;
        destruct (rep_node_inv _ _ _ _ _ _ _ _ _ Rpps0) as (y & ylft & yrgt & -> & Hy0 & _ & Ryl0 & Ryr0);
        pose proof (prefix_lookup_Some _ _ _ _ Hy0 Hext) as Hy;
        pose proof (lookup_lt_Some _ _ _ Hy0) as Ly0;
        pose proof (rep_old h0 h _ _ _ Hext Hfr Ryl0) as Ryl;
        pose proof (rep_old h0 h _ _ _ Hext Hfr Ryr0) as Ryr
       |]).
    all: wp_go.
    all: try rewrite stack_rotated; unfold recounted.
    all:
      match goal with
      | |- wp _ ?hx _ =>
          assert (HS3 : same_outside [n; ap; app] h hx) by solve_same;
          assert (HS : same_outside (n :: ap :: app :: arest) h hx)
            by (apply (same_outside_more [n; ap; app]); [solve_incl|exact HS3])
      end.
    all:
      first
        [ (* recolouring: the loop goes on two levels up *)
          apply (IH _ app arest rest _ (ap :: n :: junk) eq_refl);
          (split; [constructor; assumption|]); (split; [constructor; assumption|]);
          (split; [solve_prefix|]);
          (split; [eapply spine_same; [exact HS3|exact Hdis|exact Hrest]|])
        | (* rotation: the loop ends *)
          (first [apply (rotate_end true) | apply (rotate_end false)]);
          [ eapply spine_same; [exact HS3|exact Hdis|exact Hrest]
          | constructor; assumption | constructor; assumption | exact Fpp | solve_prefix | ] ].
    all: eexists _, _, _; (split; [look|]); (split; [reflexivity|]); split; solve_rep HS.
Qed.

End Loop.

Variable cmp : K -> K -> Z.

Lemma insert_spec depth fuel key value h root t :
  Heap.reify depth h root = Some t -> (depth <= fuel)%nat ->
  wp (Heap.insert cmp fuel key value root) h
     (fun r h' => exists root', r = Some root' /\ h `prefix_of` h' /\
        rep h' [] (Some root') (insert cmp key value t)).
Proof.
  intros H Hf. unfold Heap.insert.
  destruct (descend_path cmp key depth fuel h root t [] [] H Hf) as (addrs & ds & E1 & Hop).
  apply wp_bind. unfold wp at 1. rewrite E1. cbn [app].
  apply wp_bind, wp_alloc.
  set (leaf := Heap.Cell RED key value None None 1).
  destruct (rebuild_path cmp key h t root addrs ds [] [] (h ++ [leaf]) (List.length h) Hop)
    as (bs & h2 & E2 & Hp2 & Hrev & Hl2 & Hsp); [apply prefix_app_r; reflexivity|reflexivity|].
  cbn [app List.length Nat.add] in E2.
  apply wp_bind. unfold wp at 1.
  replace (List.length (addrs ++ [List.length h]) - 1)%nat with (List.length addrs)
    by (rewrite length_app; simpl; lia).
  rewrite E2. cbn [Heap.insert_rebuild Heap.ret].
  assert (Hleaf : h2 !! List.length h = Some leaf).
  { eapply prefix_lookup_Some; [|exact Hp2]. apply list_lookup_middle. reflexivity. }
  assert (Hext : h `prefix_of` h2).
  { etrans; [|exact Hp2]. apply prefix_app_r. reflexivity. }
  rewrite length_app in Hrev. cbn [List.length] in Hrev.
  assert (Hseq : List.length h :: rev bs = seq (List.length h) (S (List.length addrs))).
  { rewrite Hrev. cbn [seq]. f_equal. f_equal. lia. }
  apply wp_bind.
  replace (List.length (bs ++ [List.length h]) - 1)%nat with (List.length (rev bs))
    by (rewrite length_app, length_rev; simpl; lia).
  rewrite <- (rev_involutive bs) at 2.
  eapply wp_mono.
  { apply (rebalance_spec h _ h2 (List.length h) (rev bs) (insert_path cmp key t [])
             (Node RED key value Leaf Leaf 1) [] eq_refl).
    split; [rewrite Hseq; apply NoDup_seq|].
    split.
    { rewrite Hseq. apply Forall_forall. intros a Ha. apply elem_of_seq in Ha.
      unfold Heap.fresh. lia. }
    split; [exact Hext|]. split; [exact Hsp|].
    exists leaf, Leaf, Leaf. split; [exact Hleaf|]. split; [reflexivity|].
    split; constructor. }
  intros st h3 (root' & Hst & (c & tl & tr & Hc & Et & Rl & Rr) & Hfr & Hext3).
  cbv beta. apply wp_bind. eapply wp_stack_get; [exact Hst|].
  apply wp_bind. unfold Heap.set_color. eapply wp_modify; [exact Hc|]. apply wp_ret.
  exists root'. split; [reflexivity|]. split; [apply prefix_insert_fresh; assumption|].
  unfold insert. rewrite Et. cbn [repaint].
  assert (HS : same_outside [root'] h3 (<[root' := Heap.with_color BLACK c]> h3)).
  { apply same_outside_insert; [apply same_outside_refl|left]. }
  eapply rep_node'.
  - apply list_lookup_insert_eq. eapply lookup_lt_Some. exact Hc.
  - apply not_elem_of_nil.
  - reflexivity.
  - reflexivity.
  - reflexivity.
  - reflexivity.
  - eapply rep_weaken; [|eapply rep_mono; [exact HS|exact Rl]]. intros l Hl.
    apply elem_of_nil in Hl. contradiction.
  - eapply rep_weaken; [|eapply rep_mono; [exact HS|exact Rr]]. intros l Hl.
    apply elem_of_nil in Hl. contradiction.
Qed.

End Wp.

End InsertFacts.

(** * Proofs about the loops of the compaction pass *)

Module PassFacts.

Import Compactor.

Section Loading.

Variable NULLBYTE : value.
Variable bloom_contains : Z -> key -> bool.
Variable disk : Z -> option TableFile.
Variable m : SnapManifest.

Abbreviation cmp := RedBlackTree.defaultCompare.

(** What every operation of the pass keeps of the merge buffer. *)
Abbreviation good t :=
  (RedBlackTree.wf t /\ RedBlackTree.root_black t /\ RedBlackTree.ordered cmp t).







Lemma mark_and_load_missing level (st : pass_state) f :
  disk (f_i f) = None ->
  mark_and_load NULLBYTE bloom_contains disk m level st f = Throws ENOENT.
Proof. intros Hd. unfold mark_and_load, loadFile. rewrite Hd. reflexivity. Qed.




End Loading.

(** ** The older values of a key *)



(** ** The files cleared from the manifest *)

Lemma filter_filter {X : Type} (f g : X -> bool) (xs : list X) :
  List.filter f (List.filter g xs) = List.filter (fun x => g x && f x) xs.
Proof.
  induction xs as [|x xs IH]; simpl; [reflexivity|].
  destruct (g x); simpl; [destruct (f x)|]; rewrite IH; reflexivity.
Qed.

Lemma clearFile_level (m : SnapManifest) (d : nat * Z) (j : nat) :
  lvl (clearFile m d) !! j
  = (fun l => {| files := List.filter (fun file => negb (Nat.eqb (fst d) j && (f_i file =? snd d)))
                                      (files l);
                 comp := comp l |}) <$> lvl m !! j.
Proof.
  assert (Hsame : forall l : Level,
            {| files := List.filter (fun _ => true) (files l); comp := comp l |} = l).
  { intros [fs c]. simpl. f_equal. induction fs as [|f fs IH]; simpl; [reflexivity|].
    rewrite IH. reflexivity. }
  unfold clearFile. destruct (Nat.eqb_spec (fst d) j) as [<-|Hne].
  - destruct (lvl m !! fst d) as [l|] eqn:E; simpl.
    + rewrite list_lookup_insert_eq by (eapply lookup_lt_Some; exact E). reflexivity.
    + rewrite E. reflexivity.
  - simpl. destruct (lvl m !! fst d) as [l|] eqn:E; simpl.
    + rewrite list_lookup_insert_ne by exact Hne.
      destruct (lvl m !! j) as [l'|]; simpl; [rewrite Hsame|]; reflexivity.
    + destruct (lvl m !! j) as [l'|]; simpl; [rewrite Hsame|]; reflexivity.
Qed.

Lemma clearFile_header (m : SnapManifest) (d : nat * Z) :
  v (clearFile m d) = v m /\ inc (clearFile m d) = inc m /\
  List.length (lvl (clearFile m d)) = List.length (lvl m).
Proof.
  unfold clearFile. destruct (lvl m !! fst d); simpl; auto.
  rewrite length_insert. auto.
Qed.

End PassFacts.

(** * Facts about the samples *)

Module SampleFacts.

Import RedBlackTree RBFacts IteratorFacts Compactor.

Lemma three_counted : counted Samples.three.
Proof. vm_compute. repeat split. Qed.

Lemma three_invariant : rb_invariant Samples.three.
Proof.
  apply wf_rb_invariant; [|reflexivity]. unfold wf. vm_compute.
  repeat (split || intro); try reflexivity; try discriminate.
Qed.

Lemma three_distinct : distinct_keys defaultCompare Samples.three.
Proof.
  unfold distinct_keys. vm_compute. repeat (constructor; try (vm_compute; reflexivity)).
Qed.

Lemma three_ordered : ordered defaultCompare Samples.three.
Proof. exact (distinct_ordered defaultCompare Samples.three three_distinct). Qed.

Lemma on_two_of_three : iterator_of Samples.three Samples.on_two.
Proof. vm_compute. split; reflexivity. Qed.



End SampleFacts.

(** * Further properties of the tree *)

Module Properties.

Import RedBlackTree RBFacts IteratorFacts SampleFacts.

(** X1. An iterator of a tree with consistent counts reads the entry at its
    own index: [it.key()] is [keys()[it.index()]], [it.value()] is
    [values()[it.index()]], and the index of an iterator with an empty
    stack, and only of such an iterator, is [length()]. *)
Theorem iterator_reads_its_index {K V : Type} (t : @tree K V) (it : iterator) :
  counted t -> iterator_of t it ->
  iterator_key it = keys t !! Z.to_nat (index t it) /\
  iterator_value it = values t !! Z.to_nat (index t it) /\
  0 <= index t it <= length t /\
  (valid it = false <-> index t it = length t).
Proof.
  intros Hc Hit. destruct (iterator_of_at_pos t it Hit) as (B & HB).
  rewrite (at_pos_index t it B Hc HB), Nat2Z.id.
  destruct (at_pos_entry t it B HB) as (Hk & Hv).
  destruct (at_pos_prefix t it B HB) as (A & HA).
  pose proof (at_pos_valid t it B HB) as Hval.
  rewrite keys_inorder, values_inorder, !list_lookup_fmap, (counted_length t Hc).
  split; [exact Hk|]. split; [exact Hv|].
  assert (Hlen : (List.length B <= List.length (inorder t))%nat).
  { rewrite HA, length_app. lia. }
  split; [lia|].
  destruct (valid it).
  - assert ((List.length B < List.length (inorder t))%nat) by (apply Hval; reflexivity).
    split; [discriminate|lia].
  - split; [intros _|reflexivity].
    destruct (Nat.eq_dec (List.length B) (List.length (inorder t))) as [He|Hne]; [lia|].
    assert (Hlt : (List.length B < List.length (inorder t))%nat) by lia.
    apply Hval in Hlt. discriminate.
Qed.

Lemma iterator_reads_its_index_witness :
  counted Samples.three /\ iterator_of Samples.three Samples.on_two /\
  (iterator_key Samples.on_two
   = keys Samples.three !! Z.to_nat (index Samples.three Samples.on_two) /\
   iterator_value Samples.on_two
   = values Samples.three !! Z.to_nat (index Samples.three Samples.on_two) /\
   0 <= index Samples.three Samples.on_two <= length Samples.three /\
   (valid Samples.on_two = false <-> index Samples.three Samples.on_two = length Samples.three)).
Proof.
  split; [exact three_counted|]. split; [exact on_two_of_three|].
  apply (iterator_reads_its_index Samples.three Samples.on_two);
    [exact three_counted|exact on_two_of_three].
Defined.

(** X2. [begin()] stands on the first entry and [end()] on the last one:
    their indices are 0 and [length() - 1], nothing lies before the one or
    after the other, and both have an empty stack on the empty tree. *)
Theorem begin_and_end {K V : Type} (t : @tree K V) :
  counted t ->
  iterator_of t (begin t) /\ iterator_of t (end_ t) /\
  valid (begin t) = is_node t /\ valid (end_ t) = is_node t /\
  index t (begin t) = 0 /\
  (is_node t = true -> index t (end_ t) = length t - 1) /\
  iterator_key (begin t) = head (keys t) /\ iterator_key (end_ t) = last (keys t) /\
  hasPrev (begin t) = false /\ hasNext (end_ t) = false.
Proof.
  intros Hc.
  pose proof (begin_pos t) as Hb. pose proof (end_pos t) as He.
  split; [exact (at_pos_iterator_of _ _ _ Hb)|].
  split; [exact (at_pos_iterator_of _ _ _ He)|].
  split; [|split].
  { unfold begin. destruct t as [|c k v l r cnt]; [reflexivity|].
    destruct (leftmost_ok (Node c k v l r cnt) [] eq_refl) as (? & ? & ? & ? & ? & ? & H & _).
    rewrite H. reflexivity. }
  { unfold end_. destruct t as [|c k v l r cnt]; [reflexivity|].
    destruct (rightmost_ok (Node c k v l r cnt) [] eq_refl) as (? & ? & ? & ? & ? & ? & H & _).
    rewrite H. reflexivity. }
  split; [exact (at_pos_index _ _ _ Hc Hb)|].
  split.
  { intros Hn. rewrite (at_pos_index _ _ _ Hc He), (counted_length t Hc).
    destruct t as [|c k v l r cnt]; [discriminate|].
    assert (Hne : inorder (Node c k v l r cnt) <> []) by (simpl; destruct (inorder l); discriminate).
    destruct (exists_last Hne) as (B & e & ->). rewrite removelast_last, length_app.
    simpl. lia. }
  split.
  { destruct (at_pos_entry _ _ _ Hb) as (Hk & _). rewrite Hk, keys_inorder.
    destruct (inorder t); reflexivity. }
  split.
  { destruct (at_pos_entry _ _ _ He) as (Hk & _). rewrite Hk, keys_inorder.
    destruct (inorder t) as [|e0 es] eqn:E; [reflexivity|].
    assert (Hne : e0 :: es <> []) by discriminate.
    destruct (exists_last Hne) as (B & e & ->). rewrite removelast_last.
    rewrite list_lookup_middle by reflexivity. rewrite map_app. simpl. rewrite last_snoc. reflexivity. }
  split.
  - unfold begin. destruct t as [|c k v l r cnt]; [reflexivity|].
    destruct (leftmost_ok (Node c k v l r cnt) [] eq_refl)
      as (c' & k' & v' & r' & cnt' & stack' & H1 & H2 & H3).
    rewrite H1. destruct (prev_pos c' k' v' Leaf r' cnt' stack') as (Hp & Hv).
    rewrite <- Hv.
    destruct (prev (Some (Node c' k' v' Leaf r' cnt', stack'))) as [[[|c2 k2 v2 l2 r2 cnt2] s2]|];
      [contradiction| |reflexivity].
    destruct Hp as (_ & Hp). rewrite H3 in Hp. simpl in Hp. destruct (_ ++ inorder l2); discriminate.
  - unfold end_. destruct t as [|c k v l r cnt]; [reflexivity|].
    destruct (rightmost_ok (Node c k v l r cnt) [] eq_refl)
      as (c' & k' & v' & l' & cnt' & stack' & H1 & H2 & H3).
    rewrite H1. destruct (next_pos c' k' v' l' Leaf cnt' stack') as (Hp & Hv).
    rewrite <- Hv. rewrite H2 in Hp.
    pose proof (at_pos_valid _ _ _ Hp) as Hval. rewrite H3 in Hval. simpl in Hval.
    destruct (valid _); [|reflexivity].
    assert (Hlt : (List.length (inorder (Node c k v l r cnt))
                   < List.length (inorder (Node c k v l r cnt)))%nat) by (apply Hval; reflexivity).
    lia.
Qed.

Lemma begin_and_end_witness :
  counted Samples.three /\
  (iterator_of Samples.three (begin Samples.three) /\
   iterator_of Samples.three (end_ Samples.three) /\
   valid (begin Samples.three) = is_node Samples.three /\
   valid (end_ Samples.three) = is_node Samples.three /\
   index Samples.three (begin Samples.three) = 0 /\
   (is_node Samples.three = true ->
    index Samples.three (end_ Samples.three) = length Samples.three - 1) /\
   iterator_key (begin Samples.three) = head (keys Samples.three) /\
   iterator_key (end_ Samples.three) = last (keys Samples.three) /\
   hasPrev (begin Samples.three) = false /\ hasNext (end_ Samples.three) = false).
Proof.
  split; [exact three_counted|]. apply (begin_and_end Samples.three). exact three_counted.
Defined.

(** X3. [next()] on a valid iterator of a tree with consistent counts moves
    it to the next index; it is valid afterwards exactly when [hasNext()]
    said so, which is when the entry was not the last one. *)
Theorem next_moves_one_forward {K V : Type} (t : @tree K V) (it : iterator) :
  counted t -> iterator_of t it -> valid it = true ->
  iterator_of t (next it) /\
  index t (next it) = index t it + 1 /\
  valid (next it) = hasNext it /\
  (hasNext it = true <-> index t it + 1 < length t).
Proof.
  intros Hc Hit Hv.
  destruct it as [[[|c k v l r cnt] stack]|]; simpl in Hit; try discriminate;
    [destruct Hit; discriminate|].
  destruct Hit as (_ & Hz).
  destruct (next_pos c k v l r cnt stack) as (Hp & Hn). rewrite Hz in Hp.
  assert (Hcur : at_pos t (Some (Node c k v l r cnt, stack)) (ctx_before stack ++ inorder l))
    by (split; [exact Hz|reflexivity]).
  split; [exact (at_pos_iterator_of _ _ _ Hp)|].
  rewrite (at_pos_index _ _ _ Hc Hp), (at_pos_index _ _ _ Hc Hcur), length_app.
  split; [simpl; lia|]. split; [exact Hn|].
  rewrite <- Hn, (counted_length t Hc). pose proof (at_pos_valid _ _ _ Hp) as Hval.
  rewrite length_app in Hval. simpl in Hval. rewrite Hval. lia.
Qed.

Lemma next_moves_one_forward_witness :
  counted Samples.three /\ iterator_of Samples.three Samples.on_two /\
  valid Samples.on_two = true /\
  (iterator_of Samples.three (next Samples.on_two) /\
   index Samples.three (next Samples.on_two) = index Samples.three Samples.on_two + 1 /\
   valid (next Samples.on_two) = hasNext Samples.on_two /\
   (hasNext Samples.on_two = true <->
    index Samples.three Samples.on_two + 1 < length Samples.three)).
Proof.
  split; [exact three_counted|]. split; [exact on_two_of_three|]. split; [reflexivity|].
  apply (next_moves_one_forward Samples.three Samples.on_two);
    [exact three_counted|exact on_two_of_three|reflexivity].
Defined.

(** X4. [prev()] on a valid iterator moves it to the index before; on the
    first entry, where [hasPrev()] is false, it leaves an empty stack, an
    iterator whose index is [length()]. *)
Theorem prev_moves_one_back {K V : Type} (t : @tree K V) (it : iterator) :
  counted t -> iterator_of t it -> valid it = true ->
  iterator_of t (prev it) /\
  valid (prev it) = hasPrev it /\
  (hasPrev it = true <-> 0 < index t it) /\
  index t (prev it) = (if hasPrev it then index t it - 1 else length t).
Proof.
  intros Hc Hit Hv.
  destruct it as [[[|c k v l r cnt] stack]|]; simpl in Hit; try discriminate;
    [destruct Hit; discriminate|].
  destruct Hit as (_ & Hz).
  destruct (prev_pos c k v l r cnt stack) as (Hp & Hn). rewrite Hz in Hp.
  assert (Hcur : at_pos t (Some (Node c k v l r cnt, stack)) (ctx_before stack ++ inorder l))
    by (split; [exact Hz|reflexivity]).
  rewrite (at_pos_index _ _ _ Hc Hcur). rewrite <- Hn.
  destruct (prev (Some (Node c k v l r cnt, stack))) as [[[|c' k' v' l' r' cnt'] stack']|];
    [contradiction| |].
  - destruct Hp as (Hz' & HB).
    assert (Hnew : at_pos t (Some (Node c' k' v' l' r' cnt', stack'))
                     (ctx_before stack' ++ inorder l')) by (split; [exact Hz'|reflexivity]).
    split; [exact (at_pos_iterator_of _ _ _ Hnew)|]. split; [reflexivity|].
    rewrite (at_pos_index _ _ _ Hc Hnew). rewrite <- HB, length_app. simpl.
    split; [split; [lia|reflexivity]|lia].
  - split; [exact I|]. split; [reflexivity|]. rewrite Hp. simpl.
    split; [split; [discriminate|lia]|]. apply length_count.
Qed.

Lemma prev_moves_one_back_witness :
  counted Samples.three /\ iterator_of Samples.three Samples.on_two /\
  valid Samples.on_two = true /\
  (iterator_of Samples.three (prev Samples.on_two) /\
   valid (prev Samples.on_two) = hasPrev Samples.on_two /\
   (hasPrev Samples.on_two = true <-> 0 < index Samples.three Samples.on_two) /\
   index Samples.three (prev Samples.on_two)
   = (if hasPrev Samples.on_two then index Samples.three Samples.on_two - 1
      else length Samples.three)).
Proof.
  split; [exact three_counted|]. split; [exact on_two_of_three|]. split; [reflexivity|].
  apply (prev_moves_one_back Samples.three Samples.on_two);
    [exact three_counted|exact on_two_of_three|reflexivity].
Defined.

(** X5. On a tree that is not empty and has consistent counts, [at(idx)]
    never fails: it returns a valid iterator of index [idx] when
    [0 <= idx < length()], and an iterator with an empty stack otherwise. *)
Theorem at_is_total_on_nonempty_trees {K V : Type} (t : @tree K V) (idx : Z) :
  counted t -> is_node t = true ->
  exists it, at_ idx t = Ok it /\ iterator_of t it /\
    (valid it = true <-> 0 <= idx < length t) /\
    (valid it = true -> index t it = idx).
Proof.
  intros Hc Hn. rewrite length_count. unfold at_.
  destruct (idx <? 0) eqn:E0.
  { apply Z.ltb_lt in E0. exists None. simpl.
    repeat split; try discriminate; intros; lia. }
  apply Z.ltb_ge in E0.
  destruct (Z_lt_le_dec idx (count t)) as [Hlt | Hge].
  - destruct (at_loop_ok t idx [] Hc) as (c & k & v & l & r & cnt & stack & Ha & Hb & _);
      [lia|].
    exists (Some (Node c k v l r cnt, stack)). split; [exact Ha|].
    destruct (at_loop_zip _ _ _ _ _ Ha) as (_ & Hz).
    split; [split; [reflexivity|exact Hz]|]. split; [split; [lia|reflexivity]|].
    intros _. simpl. rewrite Hb. simpl. lia.
  - exists None. split; [apply at_loop_overflow; assumption|]. simpl.
    repeat split; try discriminate; intros; lia.
Qed.

Lemma at_is_total_on_nonempty_trees_witness :
  counted Samples.three /\ is_node Samples.three = true /\
  exists it, at_ 3 Samples.three = Ok it /\ iterator_of Samples.three it /\
    (valid it = true <-> 0 <= 3 < length Samples.three) /\
    (valid it = true -> index Samples.three it = 3).
Proof.
  split; [exact three_counted|]. split; [reflexivity|].
  apply (at_is_total_on_nonempty_trees Samples.three 3); [exact three_counted|reflexivity].
Defined.

(** X6. On a tree in ascending key order, [ge(key)] stands on the first
    entry whose key is not below [key]: the keys before it are below [key],
    the keys from it on are not, and its stack is empty when every key is
    below [key]. *)
Theorem ge_is_the_first_key_not_below {K V : Type} (cmp : K -> K -> Z) (key : K)
    (t : @tree K V) :
  comparator cmp -> ordered cmp t -> counted t ->
  exists below rest,
    keys t = below ++ rest /\
    Forall (fun k => cmp key k > 0) below /\ Forall (fun k => cmp key k <= 0) rest /\
    iterator_of t (ge cmp key t) /\
    index t (ge cmp key t) = Z.of_nat (List.length below) /\
    iterator_key (ge cmp key t) = head rest.
Proof.
  intros Hcmp Ho Hc.
  destruct (first_pos cmp key _ (rising_le cmp Hcmp key) t Ho) as (B & A & H1 & H2 & H3 & H4).
  fold (ge cmp key t) in H4.
  exists (map fst B), (map fst A).
  split; [rewrite keys_inorder, H1, map_app; reflexivity|].
  split; [apply Forall_map; eapply Forall_impl; [exact H2|];
          intros e He; unfold holds in He; apply Z.leb_gt in He; lia|].
  split; [apply Forall_map; eapply Forall_impl; [exact H3|];
          intros e He; unfold holds in He; apply Z.leb_le in He; exact He|].
  split; [exact (at_pos_iterator_of _ _ _ H4)|].
  split; [rewrite (at_pos_index _ _ _ Hc H4), length_map; reflexivity|].
  apply (at_pos_head t _ B A H4 H1).
Qed.

Lemma ge_is_the_first_key_not_below_witness :
  comparator defaultCompare /\ ordered defaultCompare Samples.three /\ counted Samples.three /\
  exists below rest,
    keys Samples.three = below ++ rest /\
    Forall (fun k => defaultCompare 2 k > 0) below /\
    Forall (fun k => defaultCompare 2 k <= 0) rest /\
    iterator_of Samples.three (ge defaultCompare 2 Samples.three) /\
    index Samples.three (ge defaultCompare 2 Samples.three) = Z.of_nat (List.length below) /\
    iterator_key (ge defaultCompare 2 Samples.three) = head rest.
Proof.
  split; [exact defaultCompare_comparator|]. split; [exact three_ordered|].
  split; [exact three_counted|].
  apply (ge_is_the_first_key_not_below defaultCompare 2 Samples.three);
    [exact defaultCompare_comparator|exact three_ordered|exact three_counted].
Defined.

(** X7. On a tree in ascending key order, [gt(key)] stands on the first
    entry whose key is above [key]: the keys before it are not above
    [key], the keys from it on are. *)
Theorem gt_is_the_first_key_above {K V : Type} (cmp : K -> K -> Z) (key : K)
    (t : @tree K V) :
  comparator cmp -> ordered cmp t -> counted t ->
  exists upto rest,
    keys t = upto ++ rest /\
    Forall (fun k => cmp key k >= 0) upto /\ Forall (fun k => cmp key k < 0) rest /\
    iterator_of t (gt cmp key t) /\
    index t (gt cmp key t) = Z.of_nat (List.length upto) /\
    iterator_key (gt cmp key t) = head rest.
Proof.
  intros Hcmp Ho Hc.
  destruct (first_pos cmp key _ (rising_lt cmp Hcmp key) t Ho) as (B & A & H1 & H2 & H3 & H4).
  fold (gt cmp key t) in H4.
  exists (map fst B), (map fst A).
  split; [rewrite keys_inorder, H1, map_app; reflexivity|].
  split; [apply Forall_map; eapply Forall_impl; [exact H2|];
          intros e He; unfold holds in He; apply Z.ltb_ge in He; lia|].
  split; [apply Forall_map; eapply Forall_impl; [exact H3|];
          intros e He; unfold holds in He; apply Z.ltb_lt in He; exact He|].
  split; [exact (at_pos_iterator_of _ _ _ H4)|].
  split; [rewrite (at_pos_index _ _ _ Hc H4), length_map; reflexivity|].
  apply (at_pos_head t _ B A H4 H1).
Qed.

Lemma gt_is_the_first_key_above_witness :
  comparator defaultCompare /\ ordered defaultCompare Samples.three /\ counted Samples.three /\
  exists upto rest,
    keys Samples.three = upto ++ rest /\
    Forall (fun k => defaultCompare 2 k >= 0) upto /\
    Forall (fun k => defaultCompare 2 k < 0) rest /\
    iterator_of Samples.three (gt defaultCompare 2 Samples.three) /\
    index Samples.three (gt defaultCompare 2 Samples.three) = Z.of_nat (List.length upto) /\
    iterator_key (gt defaultCompare 2 Samples.three) = head rest.
Proof.
  split; [exact defaultCompare_comparator|]. split; [exact three_ordered|].
  split; [exact three_counted|].
  apply (gt_is_the_first_key_above defaultCompare 2 Samples.three);
    [exact defaultCompare_comparator|exact three_ordered|exact three_counted].
Defined.

(** X8. On a tree in ascending key order, [lt(key)] stands on the last
    entry whose key is below [key], and has an empty stack when no key is
    below [key]. *)
Theorem lt_is_the_last_key_below {K V : Type} (cmp : K -> K -> Z) (key : K)
    (t : @tree K V) :
  comparator cmp -> ordered cmp t -> counted t ->
  exists below rest,
    keys t = below ++ rest /\
    Forall (fun k => cmp key k > 0) below /\ Forall (fun k => cmp key k <= 0) rest /\
    iterator_of t (lt cmp key t) /\
    iterator_key (lt cmp key t) = last below /\
    index t (lt cmp key t)
    = match below with [] => length t | _ :: _ => Z.of_nat (List.length below) - 1 end.
Proof.
  intros Hcmp Ho Hc.
  destruct (last_pos cmp key (fun d => d <=? 0) (fun d => d >? 0) (rising_le cmp Hcmp key)
              gtb_negb_leb t Ho Hc)
    as (B & A & H1 & H2 & H3 & H4 & H5 & H6).
  fold (lt cmp key t) in H4, H5, H6.
  exists (map fst B), (map fst A).
  split; [rewrite keys_inorder, H1, map_app; reflexivity|].
  split; [apply Forall_map; eapply Forall_impl; [exact H2|];
          intros e He; unfold holds in He; apply Z.leb_gt in He; lia|].
  split; [apply Forall_map; eapply Forall_impl; [exact H3|];
          intros e He; unfold holds in He; apply Z.leb_le in He; exact He|].
  split; [exact H4|]. split; [exact H5|].
  rewrite H6. destruct B; simpl; [reflexivity|]. rewrite length_map. reflexivity.
Qed.

Lemma lt_is_the_last_key_below_witness :
  comparator defaultCompare /\ ordered defaultCompare Samples.three /\ counted Samples.three /\
  exists below rest,
    keys Samples.three = below ++ rest /\
    Forall (fun k => defaultCompare 2 k > 0) below /\
    Forall (fun k => defaultCompare 2 k <= 0) rest /\
    iterator_of Samples.three (lt defaultCompare 2 Samples.three) /\
    iterator_key (lt defaultCompare 2 Samples.three) = last below /\
    index Samples.three (lt defaultCompare 2 Samples.three)
    = match below with
      | [] => length Samples.three
      | _ :: _ => Z.of_nat (List.length below) - 1
      end.
Proof.
  split; [exact defaultCompare_comparator|]. split; [exact three_ordered|].
  split; [exact three_counted|].
  apply (lt_is_the_last_key_below defaultCompare 2 Samples.three);
    [exact defaultCompare_comparator|exact three_ordered|exact three_counted].
Defined.

(** X9. On a tree in ascending key order, [le(key)] stands on the last
    entry whose key is not above [key], and has an empty stack when every
    key is above [key]. *)
Theorem le_is_the_last_key_not_above {K V : Type} (cmp : K -> K -> Z) (key : K)
    (t : @tree K V) :
  comparator cmp -> ordered cmp t -> counted t ->
  exists upto rest,
    keys t = upto ++ rest /\
    Forall (fun k => cmp key k >= 0) upto /\ Forall (fun k => cmp key k < 0) rest /\
    iterator_of t (le cmp key t) /\
    iterator_key (le cmp key t) = last upto /\
    index t (le cmp key t)
    = match upto with [] => length t | _ :: _ => Z.of_nat (List.length upto) - 1 end.
Proof.
  intros Hcmp Ho Hc.
  destruct (last_pos cmp key (fun d => d <? 0) (fun d => d >=? 0) (rising_lt cmp Hcmp key)
              geb_negb_ltb t Ho Hc)
    as (B & A & H1 & H2 & H3 & H4 & H5 & H6).
  fold (le cmp key t) in H4, H5, H6.
  exists (map fst B), (map fst A).
  split; [rewrite keys_inorder, H1, map_app; reflexivity|].
  split; [apply Forall_map; eapply Forall_impl; [exact H2|];
          intros e He; unfold holds in He; apply Z.ltb_ge in He; lia|].
  split; [apply Forall_map; eapply Forall_impl; [exact H3|];
          intros e He; unfold holds in He; apply Z.ltb_lt in He; exact He|].
  split; [exact H4|]. split; [exact H5|].
  rewrite H6. destruct B; simpl; [reflexivity|]. rewrite length_map. reflexivity.
Qed.

Lemma le_is_the_last_key_not_above_witness :
  comparator defaultCompare /\ ordered defaultCompare Samples.three /\ counted Samples.three /\
  exists upto rest,
    keys Samples.three = upto ++ rest /\
    Forall (fun k => defaultCompare 2 k >= 0) upto /\
    Forall (fun k => defaultCompare 2 k < 0) rest /\
    iterator_of Samples.three (le defaultCompare 2 Samples.three) /\
    iterator_key (le defaultCompare 2 Samples.three) = last upto /\
    index Samples.three (le defaultCompare 2 Samples.three)
    = match upto with
      | [] => length Samples.three
      | _ :: _ => Z.of_nat (List.length upto) - 1
      end.
Proof.
  split; [exact defaultCompare_comparator|]. split; [exact three_ordered|].
  split; [exact three_counted|].
  apply (le_is_the_last_key_not_above defaultCompare 2 Samples.three);
    [exact defaultCompare_comparator|exact three_ordered|exact three_counted].
Defined.




(** X12. [remove(key)] on a tree that satisfies the structural invariant
    never fails and keeps the invariant.  When [find(key)] has an empty
    stack the tree is returned as it is; otherwise exactly one entry leaves
    the tree, one whose key compares equal to [key], the other entries
    stay in their order and [length()] goes down by one. *)
Theorem remove_takes_out_one_entry {K V : Type} (cmp : K -> K -> Z) (key : K) (t : @tree K V) :
  rb_invariant t ->
  exists t', remove cmp key t = Ok t' /\ rb_invariant t' /\
    ((find cmp key t = None /\ t' = t) \/
     exists before k v after,
       cmp key k = 0 /\ inorder t = before ++ (k, v) :: after /\
       inorder t' = before ++ after /\ length t' = length t - 1).
Proof.
  intros Hinv. destruct (rb_invariant_wf t Hinv) as (Hw & Hb).
  destruct (remove_wf cmp key t Hw Hb) as (t' & Hr & Hw' & Hb').
  exists t'. split; [exact Hr|]. split; [exact (wf_rb_invariant t' Hw' Hb')|].
  destruct (remove_inorder cmp key t t' Hw Hb Hr) as [H | (B & k & v & A & Hk & H1 & H2)];
    [left; exact H|].
  right. exists B, k, v, A. repeat split; auto.
  rewrite (counted_length t' (wf_counted t' Hw')), (counted_length t (wf_counted t Hw)).
  rewrite H1, H2, !length_app. simpl. lia.
Qed.

Lemma remove_takes_out_one_entry_witness :
  rb_invariant Samples.three /\
  exists t', remove defaultCompare 2 Samples.three = Ok t' /\ rb_invariant t' /\
    ((find defaultCompare 2 Samples.three = None /\ t' = Samples.three) \/
     exists before k v after,
       defaultCompare 2 k = 0 /\ inorder Samples.three = before ++ (k, v) :: after /\
       inorder t' = before ++ after /\ length t' = length Samples.three - 1).
Proof.
  split; [exact three_invariant|].
  apply (remove_takes_out_one_entry defaultCompare 2 Samples.three). exact three_invariant.
Defined.

(** X13. [remove()] on a valid iterator of a tree that satisfies the
    structural invariant never fails, keeps the invariant and takes out
    exactly the entry the iterator stands on, the one at [index()]; on an
    iterator with an empty stack it returns the tree as it is. *)
Theorem iterator_remove_takes_out_its_entry {K V : Type} (t : @tree K V) (it : iterator) :
  rb_invariant t -> iterator_of t it ->
  exists t', iterator_remove t it = Ok t' /\ rb_invariant t' /\
    if valid it
    then inorder t' = delete (Z.to_nat (index t it)) (inorder t) /\ length t' = length t - 1
    else t' = t.
Proof.
  intros Hinv Hit. destruct (rb_invariant_wf t Hinv) as (Hw & Hb).
  destruct it as [[[|c k v l r cnt] stack]|]; simpl in Hit;
    [destruct Hit; discriminate| |exists t; simpl; auto].
  destruct Hit as (_ & Hz).
  destruct (remove_at_spec c k v l r cnt stack t Hw Hb Hz) as (t' & Hr & Hw' & Hb' & Hin).
  exists t'. split; [exact Hr|]. split; [exact (wf_rb_invariant t' Hw' Hb')|].
  assert (Hcur : at_pos t (Some (Node c k v l r cnt, stack)) (ctx_before stack ++ inorder l))
    by (split; [exact Hz|reflexivity]).
  assert (Ht : inorder t = (ctx_before stack ++ inorder l) ++ (k, v) :: inorder r ++ ctx_after stack)
    by (rewrite <- Hz; apply inorder_focus).
  cbn [valid].
  rewrite (at_pos_index _ _ _ (wf_counted t Hw) Hcur), Nat2Z.id.
  rewrite (counted_length t' (wf_counted t' Hw')), (counted_length t (wf_counted t Hw)).
  rewrite Hin, Ht, delete_middle. split; [reflexivity|].
  rewrite !length_app, length_cons, !length_app. lia.
Qed.

Lemma iterator_remove_takes_out_its_entry_witness :
  rb_invariant Samples.three /\ iterator_of Samples.three Samples.on_two /\
  exists t', iterator_remove Samples.three Samples.on_two = Ok t' /\ rb_invariant t' /\
    if valid Samples.on_two
    then inorder t'
         = delete (Z.to_nat (index Samples.three Samples.on_two)) (inorder Samples.three) /\
         length t' = length Samples.three - 1
    else t' = Samples.three.
Proof.
  split; [exact three_invariant|]. split; [exact on_two_of_three|].
  apply (iterator_remove_takes_out_its_entry Samples.three Samples.on_two);
    [exact three_invariant|exact on_two_of_three].
Defined.

(** X14. [update(value)] on a valid iterator of a tree that satisfies the
    structural invariant returns a tree that satisfies it, with the same
    keys and the same length, whose values are those of the tree with
    [value] at the index of the iterator; on an iterator with an empty
    stack it throws. *)
Theorem update_replaces_the_value {K V : Type} (t : @tree K V) (it : iterator) (value : V) :
  rb_invariant t -> iterator_of t it ->
  if valid it
  then exists t', iterator_update value it = Some t' /\ rb_invariant t' /\
         keys t' = keys t /\ length t' = length t /\
         values t' = <[Z.to_nat (index t it) := value]> (values t)
  else iterator_update value it = None.
Proof.
  intros Hinv Hit. destruct (rb_invariant_wf t Hinv) as (Hw & Hb).
  destruct it as [[[|c k v l r cnt] stack]|]; simpl in Hit;
    [destruct Hit; discriminate| |reflexivity].
  destruct Hit as (_ & Hz). cbn [valid iterator_update].
  destruct (update_spec c k v l r cnt stack value t Hw Hb Hz) as (Hw' & Hb' & Hin).
  eexists. split; [reflexivity|]. split; [exact (wf_rb_invariant _ Hw' Hb')|].
  assert (Hcur : at_pos t (Some (Node c k v l r cnt, stack)) (ctx_before stack ++ inorder l))
    by (split; [exact Hz|reflexivity]).
  assert (Ht : inorder t = (ctx_before stack ++ inorder l) ++ (k, v) :: inorder r ++ ctx_after stack)
    by (rewrite <- Hz; apply inorder_focus).
  rewrite (at_pos_index _ _ _ (wf_counted t Hw) Hcur), Nat2Z.id.
  rewrite (counted_length _ (wf_counted _ Hw')), (counted_length t (wf_counted t Hw)).
  rewrite !keys_inorder, !values_inorder, Hin, Ht.
  split; [rewrite !map_app; reflexivity|].
  split; [rewrite !length_app; reflexivity|].
  rewrite !(map_app snd (ctx_before stack ++ inorder l)). cbn [map snd].
  rewrite <- (length_map snd (ctx_before stack ++ inorder l)).
  symmetry. apply insert_middle.
Qed.

Lemma update_replaces_the_value_witness :
  rb_invariant Samples.three /\ iterator_of Samples.three Samples.on_two /\
  if valid Samples.on_two
  then exists t', iterator_update 21 Samples.on_two = Some t' /\ rb_invariant t' /\
         keys t' = keys Samples.three /\ length t' = length Samples.three /\
         values t'
         = <[Z.to_nat (index Samples.three Samples.on_two) := 21]> (values Samples.three)
  else iterator_update 21 Samples.on_two = None.
Proof.
  split; [exact three_invariant|]. split; [exact on_two_of_three|].
  apply (update_replaces_the_value Samples.three Samples.on_two 21);
    [exact three_invariant|exact on_two_of_three].
Defined.

(** X15. [forEach(visit)] calls the visitor on the entries in the order of
    [keys()] and [values()], one after the other, and stops at the first
    call that returns a truthy value. *)
Theorem forEach_visits_in_order {K V S : Type} (visit : K -> V -> S -> S * bool)
    (t : @tree K V) (st : S) :
  forEach visit t st = visit_list visit (inorder t) st /\
  map fst (inorder t) = keys t /\ map snd (inorder t) = values t.
Proof.
  split; [apply doVisitFull_list|]. split; [symmetry; apply keys_inorder|].
  symmetry. apply values_inorder.
Qed.

(** X16. On a tree in ascending key order, [forEach(visit, lo)] visits, in
    order, exactly the entries whose key is not below [lo]. *)
Theorem forEach_from_visits_the_keys_from_lo {K V S : Type} (cmp : K -> K -> Z)
    (visit : K -> V -> S -> S * bool) (lo : K) (t : @tree K V) (st : S) :
  comparator cmp -> ordered cmp t ->
  forEach_from cmp visit lo t st
  = visit_list visit (List.filter (fun e => cmp lo (fst e) <=? 0) (inorder t)) st.
Proof. intros Hcmp Ho. apply (doVisitHalf_list cmp Hcmp); exact Ho. Qed.

Lemma forEach_from_visits_the_keys_from_lo_witness :
  comparator defaultCompare /\ ordered defaultCompare Samples.three /\
  forEach_from defaultCompare Samples.collect 2 Samples.three []
  = visit_list Samples.collect
      (List.filter (fun e => defaultCompare 2 (fst e) <=? 0) (inorder Samples.three)) [].
Proof.
  split; [exact defaultCompare_comparator|]. split; [exact three_ordered|].
  apply (forEach_from_visits_the_keys_from_lo defaultCompare Samples.collect 2 Samples.three []);
    [exact defaultCompare_comparator|exact three_ordered].
Defined.

(** X17. On a tree in ascending key order, [forEach(visit, lo, hi)] visits,
    in order, exactly the entries whose key is not below [lo] and is below
    [hi]; it visits nothing when [lo] is not below [hi]. *)
Theorem forEach_range_visits_the_keys_between {K V S : Type} (cmp : K -> K -> Z)
    (visit : K -> V -> S -> S * bool) (lo hi : K) (t : @tree K V) (st : S) :
  comparator cmp -> ordered cmp t ->
  forEach_range cmp visit lo hi t st
  = visit_list visit
      (List.filter (fun e => (cmp lo (fst e) <=? 0) && (cmp hi (fst e) >? 0)) (inorder t)) st /\
  (cmp lo hi >= 0 -> forEach_range cmp visit lo hi t st = (st, false)).
Proof.
  intros Hcmp Ho. unfold forEach_range. destruct (cmp lo hi >=? 0) eqn:E.
  - rewrite Z.geb_leb in E. apply Z.leb_le in E.
    rewrite (empty_range cmp Hcmp lo hi) by lia. split; reflexivity.
  - rewrite Z.geb_leb in E. apply Z.leb_gt in E.
    split; [apply (doVisit_list cmp Hcmp); exact Ho|lia].
Qed.

Lemma forEach_range_visits_the_keys_between_witness :
  comparator defaultCompare /\ ordered defaultCompare Samples.three /\
  (forEach_range defaultCompare Samples.collect 1 3 Samples.three []
   = visit_list Samples.collect
       (List.filter (fun e => (defaultCompare 1 (fst e) <=? 0) && (defaultCompare 3 (fst e) >? 0))
                    (inorder Samples.three)) [] /\
   (defaultCompare 1 3 >= 0 ->
    forEach_range defaultCompare Samples.collect 1 3 Samples.three [] = ([], false))).
Proof.
  split; [exact defaultCompare_comparator|]. split; [exact three_ordered|].
  apply (forEach_range_visits_the_keys_between defaultCompare Samples.collect 1 3
           Samples.three []);
    [exact defaultCompare_comparator|exact three_ordered].
Defined.

(** X18. On a tree in ascending key order, [insert(key, value)] puts the
    new entry after the entries whose key is below [key] and before all
    others, also those with a key equal to [key]; [ge(key)] on the result
    stands on the new entry. *)
Theorem insert_goes_before_equal_keys {K V : Type} (cmp : K -> K -> Z) (key : K) (value : V)
    (t : @tree K V) :
  comparator cmp -> ordered cmp t ->
  (exists below rest,
     inorder t = below ++ rest /\
     inorder (insert cmp key value t) = below ++ (key, value) :: rest /\
     Forall (fun e => cmp key (fst e) > 0) below /\
     Forall (fun e => cmp key (fst e) <= 0) rest) /\
  iterator_key (ge cmp key (insert cmp key value t)) = Some key /\
  iterator_value (ge cmp key (insert cmp key value t)) = Some value.
Proof.
  intros Hcmp Ho.
  destruct (inorder_insert_ctx cmp key value t) as (H1 & H2).
  pose proof (insert_path_before cmp Hcmp key t [] Ho ltac:(constructor)) as Hb.
  destruct (insert_path_bounds cmp Hcmp key t [] Ho ltac:(constructor) ltac:(constructor))
    as (_ & Ha).
  set (B := ctx_before (insert_path cmp key t [])) in *.
  set (A := ctx_after (insert_path cmp key t [])) in *.
  split; [exists B, A; auto|].
  pose proof (insert_ordered cmp Hcmp key value t Ho) as Ho'.
  destruct (first_pos cmp key _ (rising_le cmp Hcmp key) _ Ho') as (B' & A' & H3 & H4 & H5 & H6).
  fold (ge cmp key (insert cmp key value t)) in H6.
  destruct (split_unique (fun e : K * V => cmp key (fst e) <=? 0) B' B A' ((key, value) :: A))
    as (-> & ->); auto.
  - rewrite <- H3. exact H2.
  - eapply Forall_impl; [exact Hb|]. intros e He. simpl in He. apply Z.leb_gt. lia.
  - constructor.
    + simpl. rewrite (cmp_refl cmp Hcmp). reflexivity.
    + eapply Forall_impl; [exact Ha|]. intros e He. simpl in He. apply Z.leb_le. exact He.
  - apply (at_pos_head _ _ B ((key, value) :: A) H6 H2).
Qed.

Lemma insert_goes_before_equal_keys_witness :
  comparator defaultCompare /\ ordered defaultCompare Samples.three /\
  ((exists below rest,
      inorder Samples.three = below ++ rest /\
      inorder (insert defaultCompare 2 21 Samples.three) = below ++ (2, 21) :: rest /\
      Forall (fun e => defaultCompare 2 (fst e) > 0) below /\
      Forall (fun e => defaultCompare 2 (fst e) <= 0) rest) /\
   iterator_key (ge defaultCompare 2 (insert defaultCompare 2 21 Samples.three)) = Some 2 /\
   iterator_value (ge defaultCompare 2 (insert defaultCompare 2 21 Samples.three)) = Some 21).
Proof.
  split; [exact defaultCompare_comparator|]. split; [exact three_ordered|].
  apply (insert_goes_before_equal_keys defaultCompare 2 21 Samples.three);
    [exact defaultCompare_comparator|exact three_ordered].
Defined.

(** X19. On a tree whose keys are in strictly ascending order and that
    holds no key equal to [key], [insert(key, value)] keeps the keys
    strictly ascending, [get(key)] on the result is [value], and [get] of
    a key that is not equal to [key] returns what it returned before. *)
Theorem get_after_insert_of_a_new_key {K V : Type} (cmp : K -> K -> Z) (key : K) (value : V)
    (t : @tree K V) :
  comparator cmp -> distinct_keys cmp t -> get cmp key t = None ->
  distinct_keys cmp (insert cmp key value t) /\
  get cmp key (insert cmp key value t) = Some value /\
  forall k, cmp k key <> 0 -> get cmp k (insert cmp key value t) = get cmp k t.
Proof.
  intros Hcmp Hd Hnone.
  pose proof (distinct_ordered cmp t Hd) as Ho.
  destruct (inorder_insert_ctx cmp key value t) as (H1 & H2).
  pose proof (insert_path_before cmp Hcmp key t [] Ho ltac:(constructor)) as Hb.
  destruct (insert_path_bounds cmp Hcmp key t [] Ho ltac:(constructor) ltac:(constructor))
    as (_ & Ha).
  set (B := ctx_before (insert_path cmp key t [])) in *.
  set (A := ctx_after (insert_path cmp key t [])) in *.
  pose proof (proj1 (get_none cmp Hcmp key t Ho) Hnone) as Habs.
  assert (Hd' : distinct_keys cmp (insert cmp key value t)).
  { unfold distinct_keys in *. rewrite H2. rewrite H1 in Hd.
    apply StronglySorted_app in Hd. destruct Hd as (Hba & HsB & HsA).
    apply StronglySorted_app. split; [|split; [exact HsB|]].
    - intros x1 x2 Hx1 Hx2. apply elem_of_cons in Hx2. destruct Hx2 as [-> | Hx2].
      + rewrite Forall_forall in Hb. specialize (Hb x1 Hx1). simpl.
        destruct Hcmp as (Hs & _). specialize (Hs key (fst x1)). lia.
      + apply Hba; assumption.
    - apply StronglySorted_cons. split; [|exact HsA].
      apply Forall_forall. intros e He. simpl.
      rewrite Forall_forall in Ha. specialize (Ha e He). simpl in Ha.
      assert (cmp key (fst e) <> 0).
      { apply Habs. rewrite H1. apply elem_of_app. right. exact He. }
      lia. }
  split; [exact Hd'|]. split.
  - apply (get_iff cmp Hcmp _ _ _ Hd'). exists key. split; [|apply (cmp_refl cmp Hcmp)].
    rewrite H2. apply elem_of_app. right. left.
  - intros k Hk. apply option_ext. intros v.
    rewrite (get_iff cmp Hcmp k _ v Hd'), (get_iff cmp Hcmp k _ v Hd), H1, H2.
    split; intros (k' & Hin & Hk'); exists k'; (split; [|exact Hk']).
    + apply elem_of_app in Hin. destruct Hin as [Hin | Hin]; [apply elem_of_app; auto|].
      apply elem_of_cons in Hin. destruct Hin as [Heq | Hin]; [|apply elem_of_app; auto].
      inversion Heq; subst. contradiction.
    + apply elem_of_app in Hin. apply elem_of_app.
      destruct Hin as [Hin | Hin]; [left; exact Hin|right; right; exact Hin].
Qed.

Lemma get_after_insert_of_a_new_key_witness :
  comparator defaultCompare /\ distinct_keys defaultCompare Samples.three /\
  get defaultCompare 5 Samples.three = None /\
  (distinct_keys defaultCompare (insert defaultCompare 5 50 Samples.three) /\
   get defaultCompare 5 (insert defaultCompare 5 50 Samples.three) = Some 50 /\
   forall k, defaultCompare k 5 <> 0 ->
     get defaultCompare k (insert defaultCompare 5 50 Samples.three)
     = get defaultCompare k Samples.three).
Proof.
  split; [exact defaultCompare_comparator|]. split; [exact three_distinct|].
  split; [reflexivity|].
  apply (get_after_insert_of_a_new_key defaultCompare 5 50 Samples.three);
    [exact defaultCompare_comparator|exact three_distinct|reflexivity].
Defined.

(** X20. On a tree whose keys are in strictly ascending order and that
    satisfies the structural invariant, after [remove(key)] the keys are
    still strictly ascending, [get(key)] is undefined, and [get] of a key
    that is not equal to [key] returns what it returned before. *)
Theorem get_after_remove {K V : Type} (cmp : K -> K -> Z) (key : K) (t : @tree K V) :
  comparator cmp -> distinct_keys cmp t -> rb_invariant t ->
  exists t', remove cmp key t = Ok t' /\
    distinct_keys cmp t' /\
    get cmp key t' = None /\
    forall k, cmp k key <> 0 -> get cmp k t' = get cmp k t.
Proof.
  intros Hcmp Hd Hinv. destruct (rb_invariant_wf t Hinv) as (Hw & Hb).
  destruct (remove_wf cmp key t Hw Hb) as (t' & Hr & Hw' & Hb').
  exists t'. split; [exact Hr|].
  destruct (remove_inorder cmp key t t' Hw Hb Hr) as [(Hf & ->) | (B & k0 & v0 & A & Hk0 & H1 & H2)].
  - split; [exact Hd|]. split; [|reflexivity].
    rewrite (get_find_loop cmp key t []). unfold find in Hf. rewrite Hf. reflexivity.
  - assert (Hd' : distinct_keys cmp t').
    { unfold distinct_keys in *. rewrite H2. rewrite H1 in Hd.
      apply StronglySorted_app in Hd. destruct Hd as (Hba & HsB & HsA).
      apply StronglySorted_cons in HsA. destruct HsA as (_ & HsA).
      apply StronglySorted_app. repeat split; auto.
      intros x1 x2 Hx1 Hx2. apply Hba; [exact Hx1|right; exact Hx2]. }
    assert (Hsame : forall k v, cmp k k0 <> 0 ->
              ((exists k', (k', v) ∈ inorder t' /\ cmp k k' = 0) <->
               (exists k', (k', v) ∈ inorder t /\ cmp k k' = 0))).
    { intros k v Hk. rewrite H1, H2.
      split; intros (k' & Hin & Hk'); exists k'; (split; [|exact Hk']).
      - apply elem_of_app in Hin. apply elem_of_app.
        destruct Hin as [Hin | Hin]; [left; exact Hin|right; right; exact Hin].
      - apply elem_of_app in Hin. destruct Hin as [Hin | Hin]; [apply elem_of_app; auto|].
        apply elem_of_cons in Hin. destruct Hin as [Heq | Hin]; [|apply elem_of_app; auto].
        inversion Heq; subst. contradiction. }
    split; [exact Hd'|]. split.
    + destruct (get cmp key t') as [v|] eqn:E; [exfalso|reflexivity].
      apply (get_iff cmp Hcmp key t' v Hd') in E. destruct E as (k' & Hin & Hk').
      unfold distinct_keys in Hd. rewrite H1 in Hd. rewrite H2 in Hin.
      apply StronglySorted_app in Hd. destruct Hd as (Hba & HsB & HsA).
      apply StronglySorted_cons in HsA. destruct HsA as (HA & _).
      assert (Heq : cmp k' k0 = 0).
      { apply (cmp_eq_trans cmp Hcmp k' key k0); [apply (cmp_eq_sym cmp Hcmp); exact Hk'|exact Hk0]. }
      apply elem_of_app in Hin. destruct Hin as [Hin | Hin].
      * specialize (Hba (k', v) (k0, v0) Hin ltac:(left)). simpl in Hba. lia.
      * rewrite Forall_forall in HA. specialize (HA (k', v) Hin). simpl in HA.
        apply (cmp_eq_sym cmp Hcmp) in Heq. lia.
    + intros k Hk. apply option_ext. intros v.
      rewrite (get_iff cmp Hcmp k _ v Hd'), (get_iff cmp Hcmp k _ v Hd).
      apply Hsame. intros Hkk0. apply Hk.
      apply (cmp_eq_trans cmp Hcmp k k0 key); [exact Hkk0|].
      apply (cmp_eq_sym cmp Hcmp). exact Hk0.
Qed.

Lemma get_after_remove_witness :
  comparator defaultCompare /\ distinct_keys defaultCompare Samples.three /\
  rb_invariant Samples.three /\
  exists t', remove defaultCompare 2 Samples.three = Ok t' /\
    distinct_keys defaultCompare t' /\
    get defaultCompare 2 t' = None /\
    forall k, defaultCompare k 2 <> 0 -> get defaultCompare k t' = get defaultCompare k Samples.three.
Proof.
  split; [exact defaultCompare_comparator|]. split; [exact three_distinct|].
  split; [exact three_invariant|].
  apply (get_after_remove defaultCompare 2 Samples.three);
    [exact defaultCompare_comparator|exact three_distinct|exact three_invariant].
Defined.

(** X21. On a tree in ascending key order that satisfies the structural
    invariant and holds no key equal to [key], [insert(key, value)]
    followed by [remove(key)] gives back the entries of the tree, in their
    order, in a tree that satisfies the invariant. *)
Theorem remove_undoes_insert_of_a_new_key {K V : Type} (cmp : K -> K -> Z) (key : K)
    (value : V) (t : @tree K V) :
  comparator cmp -> ordered cmp t -> rb_invariant t -> get cmp key t = None ->
  exists t', remove cmp key (insert cmp key value t) = Ok t' /\
    inorder t' = inorder t /\ rb_invariant t'.
Proof.
  intros Hcmp Ho Hinv Hnone. destruct (rb_invariant_wf t Hinv) as (Hw & Hb).
  destruct (insert_wf cmp key value t Hw Hb) as (Hw1 & Hb1).
  destruct (remove_wf cmp key _ Hw1 Hb1) as (t' & Hr & Hw' & Hb').
  exists t'. split; [exact Hr|]. split; [|exact (wf_rb_invariant t' Hw' Hb')].
  pose proof (proj1 (get_none cmp Hcmp key t Ho) Hnone) as Habs.
  destruct (inorder_insert cmp key value t) as (B & A & H1 & H2).
  destruct (remove_inorder cmp key _ t' Hw1 Hb1 Hr) as [(Hf & _) | (B' & k & v & A' & Hk & H3 & H4)].
  - exfalso.
    assert (Hg : get cmp key (insert cmp key value t) = None).
    { rewrite (get_find_loop cmp key _ []). unfold find in Hf. rewrite Hf. reflexivity. }
    pose proof (proj1 (get_none cmp Hcmp key _ (insert_ordered cmp Hcmp key value t Ho)) Hg)
      as Hg'.
    apply (Hg' (key, value)); [|apply (cmp_refl cmp Hcmp)].
    rewrite H2. apply elem_of_app. right. left.
  - rewrite H4, H1. rewrite H2 in H3.
    assert (Hnot : forall e, e ∈ B ++ A -> cmp key (fst e) <> 0).
    { intros e He. apply Habs. rewrite H1. exact He. }
    clear - H3 Hk Hnot. revert B' H3 Hnot.
    induction B as [|b B IH]; intros B' H3 Hnot; simpl in *.
    + destruct B' as [|b' B']; simpl in H3; inversion H3; subst; [reflexivity|].
      exfalso. apply (Hnot (k, v)); [|exact Hk]. apply elem_of_app. right. left.
    + destruct B' as [|b' B']; simpl in H3; inversion H3; subst.
      * exfalso. apply (Hnot (k, v)); [left|exact Hk].
      * simpl. f_equal. apply IH; [assumption|].
        intros e He. apply Hnot. right. exact He.
Qed.

Lemma remove_undoes_insert_of_a_new_key_witness :
  comparator defaultCompare /\ ordered defaultCompare Samples.three /\
  rb_invariant Samples.three /\ get defaultCompare 5 Samples.three = None /\
  exists t', remove defaultCompare 5 (insert defaultCompare 5 50 Samples.three) = Ok t' /\
    inorder t' = inorder Samples.three /\ rb_invariant t'.
Proof.
  split; [exact defaultCompare_comparator|]. split; [exact three_ordered|].
  split; [exact three_invariant|]. split; [reflexivity|].
  apply (remove_undoes_insert_of_a_new_key defaultCompare 5 50 Samples.three);
    [exact defaultCompare_comparator|exact three_ordered|exact three_invariant|reflexivity].
Defined.

End Properties.

(** * The queries of the store and the tree *)

Module StoreProperties.

Import RedBlackTree RBFacts SampleFacts.

(** X22. In a store where the root denotes the tree [t], the queries
    [length()], [get(key)] and [keys()] on the root return what they return
    on [t], and leave the store as it is. *)
Theorem store_queries_read_the_denoted_tree {K V : Type} (cmp : K -> K -> Z) (depth fuel : nat)
    (h : @Heap.heap K V) (root : Heap.ptr) (t : @tree K V) (key : K) :
  Heap.reify depth h root = Some t -> (depth <= fuel)%nat ->
  Heap.length root h = (Ok (length t), h) /\
  Heap.get cmp fuel key root h = (Ok (get cmp key t), h) /\
  Heap.keys fuel root h = (Ok (keys t), h).
Proof.
  intros H Hf. split; [exact (StoreFacts.length_reify depth h root t H)|].
  split; [exact (StoreFacts.get_reify cmp key depth fuel h root t H Hf)|].
  rewrite keys_inorder. destruct root as [n|]; simpl.
  - exact (StoreFacts.visit_keys_reify depth fuel h n t [] H Hf).
  - destruct depth; simpl in H; inversion H; reflexivity.
Qed.

Lemma store_queries_read_the_denoted_tree_witness :
  Heap.reify 1 Samples.store Samples.root = Some (Node BLACK 2 20 Leaf Leaf 1) /\
  (1 <= 2)%nat /\
  (Heap.length Samples.root Samples.store
   = (Ok (length (Node BLACK 2 20 Leaf Leaf 1)), Samples.store) /\
   Heap.get defaultCompare 2 2 Samples.root Samples.store
   = (Ok (get defaultCompare 2 (Node BLACK 2 20 Leaf Leaf 1)), Samples.store) /\
   Heap.keys 2 Samples.root Samples.store
   = (Ok (keys (Node BLACK 2 20 Leaf Leaf 1)), Samples.store)).
Proof.
  split; [reflexivity|]. split; [lia|].
  apply (store_queries_read_the_denoted_tree defaultCompare 1 2 Samples.store Samples.root
           (Node BLACK 2 20 Leaf Leaf 1) 2); [reflexivity|lia].
Defined.

(** X28. In a store where the root denotes the tree [t], [insert(key,
    value)] on the root succeeds, given one unit of fuel for each level of
    [t]; the root it returns denotes the tree that [insert] builds from
    [t], and the objects that were in the store are left as they were. *)
Theorem store_insert_builds_the_inserted_tree {K V : Type} (cmp : K -> K -> Z)
    (depth fuel : nat) (key : K) (value : V) (h : @Heap.heap K V) (root : Heap.ptr)
    (t : @tree K V) :
  Heap.reify depth h root = Some t -> (depth <= fuel)%nat ->
  exists root' h' depth',
    Heap.insert cmp fuel key value root h = (Ok (Some root'), h') /\
    Heap.reify depth' h' (Some root') = Some (insert cmp key value t) /\
    h `prefix_of` h'.
Proof.
  intros H Hf.
  destruct (InsertFacts.wp_run _ _ _
              (InsertFacts.insert_spec cmp depth fuel key value h root t H Hf))
    as (r & h' & E & root' & -> & Hp & Hr).
  destruct (InsertFacts.rep_reify _ _ _ _ Hr) as (depth' & Hd).
  exists root', h', depth'. auto.
Qed.

Lemma store_insert_builds_the_inserted_tree_witness :
  Heap.reify 1 Samples.store Samples.root = Some (Node BLACK 2 20 Leaf Leaf 1) /\
  (1 <= 1)%nat /\
  exists root' h' depth',
    Heap.insert defaultCompare 1 3 30 Samples.root Samples.store = (Ok (Some root'), h') /\
    Heap.reify depth' h' (Some root')
    = Some (insert defaultCompare 3 30 (Node BLACK 2 20 Leaf Leaf 1)) /\
    Samples.store `prefix_of` h'.
Proof.
  split; [reflexivity|]. split; [lia|].
  apply (store_insert_builds_the_inserted_tree defaultCompare 1 1 3 30 Samples.store
           Samples.root (Node BLACK 2 20 Leaf Leaf 1)); [reflexivity|lia].
Defined.

End StoreProperties.

(** * Further properties of the compaction pass *)

Module PassProperties.

Import Compactor PassFacts SampleFacts.


(** X24. The three tests on a file of the next level accept the file
    exactly when its range lies inside the range worked with, both ranges
    being well formed; with no range to work with they accept nothing. *)
Theorem overlap_test_accepts_the_contained_files (k0 k1 : key) (file : FileRef) :
  fst (f_range file) <= snd (f_range file) -> k0 <= k1 ->
  (overlap_test (Some (k0, k1)) file = true <->
   k0 <= fst (f_range file) /\ snd (f_range file) <= k1) /\
  overlap_test None file = false.
Proof.
  intros Hr Hk. split; [|reflexivity].
  unfold overlap_test. destruct (f_range file) as [r0 r1]. simpl in *.
  destruct (Z.geb_spec r0 k0), (Z.leb_spec r1 k0), (Z.geb_spec r0 k1), (Z.leb_spec r1 k1);
    simpl; split; intros Hx; try discriminate; try reflexivity; try lia.
Qed.

Lemma overlap_test_accepts_the_contained_files_witness :
  fst (f_range (Scenarios.file 21 2 8)) <= snd (f_range (Scenarios.file 21 2 8)) /\
  0 <= 10 /\
  ((overlap_test (Some (0, 10)) (Scenarios.file 21 2 8) = true <->
    0 <= fst (f_range (Scenarios.file 21 2 8)) /\
    snd (f_range (Scenarios.file 21 2 8)) <= 10) /\
   overlap_test None (Scenarios.file 21 2 8) = false).
Proof.
  split; [simpl; lia|]. split; [lia|].
  apply (overlap_test_accepts_the_contained_files 0 10 (Scenarios.file 21 2 8)); simpl; lia.
Defined.





(** X27. Clearing the scheduled files leaves in every level of the
    manifest the files that are not scheduled for that level, in their
    order; the markers, the number of levels and the header of the
    manifest stay as they are. *)
Theorem clearOldFiles_keeps_the_unscheduled_files (m : SnapManifest)
    (scheduled : list (nat * Z)) (j : nat) :
  lvl (clearOldFiles m scheduled) !! j
  = (fun l => {| files := List.filter (fun file => negb (scheduled_for scheduled j file))
                                      (files l);
                 comp := comp l |}) <$> lvl m !! j /\
  v (clearOldFiles m scheduled) = v m /\ inc (clearOldFiles m scheduled) = inc m /\
  List.length (lvl (clearOldFiles m scheduled)) = List.length (lvl m).
Proof.
  unfold clearOldFiles. revert m.
  induction scheduled as [|d rest IH]; intros m; simpl.
  - split; [|auto]. destruct (lvl m !! j) as [[fs c]|]; simpl; [|reflexivity].
    f_equal. f_equal. induction fs as [|f fs IHfs]; simpl; [reflexivity|].
    rewrite <- IHfs. reflexivity.
  - destruct (IH (clearFile m d)) as (H1 & H2 & H3 & H4).
    destruct (clearFile_header m d) as (H5 & H6 & H7).
    split; [|rewrite H2, H3, H4; auto].
    rewrite H1, clearFile_level. destruct (lvl m !! j) as [[fs c]|]; simpl; [|reflexivity].
    f_equal. f_equal. rewrite filter_filter. apply List.filter_ext.
    intros file. rewrite negb_orb. reflexivity.
Qed.

End PassProperties.
